(** * DyldExtractorC: the LINKEDIT optimizer

    A shallow embedding of [DyldExtractor/Converter/LinkeditOptimizer.cpp]:
    the [LinkeditTracker], the [StringPool] and the copy passes of the
    [LinkeditOptimizer], over a byte-addressed memory.

    Conventions.
    - A pointer is its address, a [Z]; [nullptr] is [0].
    - Memory is a finite map from addresses to bytes.  An access to an
      address that is not mapped is a fault (the process dies): every
      operation that touches memory returns an [option], [None] being the
      fault.
    - The buffer that [optimizeLinkedit] allocates is a memory of its own,
      addressed from the first byte of the allocation; behind the bytes
      asked for it holds the bytes that the chunk has left over, which a
      pass that goes past the allocation reads and writes.
    - [uint32_t] arithmetic is written out with [wrap32]; pointer and
      [size_t] arithmetic is 64 bits wide and is not wrapped.
    - Calls to the activity logger and to spdlog have no effect on the state
      and are left out. *)

From Stdlib Require Import ZArith Lia Ascii String.
From stdpp Require Import base option numbers list sorting gmap strings.

Local Open Scope Z_scope.

(** ** Machine integers *)

Definition wrap32 (z : Z) : Z := z mod 2 ^ 32.

Definition nullptr : Z := 0.

(** ** Bytes and memory *)

Abbreviation byte := ascii (only parsing).
Abbreviation mem := (gmap Z ascii) (only parsing).

Definition byte_of_Z (z : Z) : byte := ascii_of_N (Z.to_N (z mod 256)).
Definition Z_of_byte (b : byte) : Z := Z.of_N (N_of_ascii b).

(** [n] bytes starting at [a]; a fault if one of them is not mapped. *)
Fixpoint load_bytes (m : mem) (a : Z) (n : nat) : option (list byte) :=
  match n with
  | O => Some []
  | S n' =>
      b ← m !! a;
      bs ← load_bytes m (a + 1) n';
      Some (b :: bs)
  end.

(** Writes [bs] at [a]; a fault if one of the addresses is not mapped. *)
Fixpoint store_bytes (m : mem) (a : Z) (bs : list byte) : option mem :=
  match bs with
  | [] => Some m
  | b :: bs' =>
      match m !! a with
      | None => None
      | Some _ => store_bytes (<[a:=b]> m) (a + 1) bs'
      end
  end.

(** Little-endian integers. *)
Fixpoint le_encode (n : nat) (v : Z) : list byte :=
  match n with
  | O => []
  | S n' => byte_of_Z v :: le_encode n' (v / 256)
  end.

Fixpoint le_decode (bs : list byte) : Z :=
  match bs with
  | [] => 0
  | b :: bs' => Z_of_byte b + 256 * le_decode bs'
  end.

Definition load32 (m : mem) (a : Z) : option Z := le_decode <$> load_bytes m a 4.
Definition load64 (m : mem) (a : Z) : option Z := le_decode <$> load_bytes m a 8.
Definition store8 (m : mem) (a v : Z) : option mem := store_bytes m a (le_encode 1 v).
Definition store32 (m : mem) (a v : Z) : option mem := store_bytes m a (le_encode 4 v).

(** [memcpy(dst, src, n)] between two memories ([src_m] may be [dst_m]);
    a negative [n] would be a huge [size_t] and faults.  All the bytes are
    read before the first is written, so this is also [memmove]. *)
Definition memcpy (dst_m : mem) (dst : Z) (src_m : mem) (src : Z) (n : Z)
  : option mem :=
  if decide (n < 0) then None
  else bs ← load_bytes src_m src (Z.to_nat n); store_bytes dst_m dst bs.

Definition memmove (m : mem) (dst src n : Z) : option mem := memcpy m dst m src n.

Definition memset (m : mem) (dst : Z) (c : Z) (n : Z) : option mem :=
  if decide (n < 0) then None
  else store_bytes m dst (replicate (Z.to_nat n) (byte_of_Z c)).

(** The bytes [bs] mapped at [a]. *)
Definition region (a : Z) (bs : list byte) : mem :=
  list_to_map (zip (seqZ a (Z.of_nat (length bs))) bs).

(** [calloc(n, 1)]: the [n] zero bytes of a fresh allocation, addressed from
    [0].  These are the bytes that [calloc] promises and no more: what the
    heap holds behind them is not part of the allocation (see
    [optimizeLinkedit], which is given it). *)
Definition calloc (n : Z) : mem :=
  list_to_map ((λ i, (i, zero)) <$> seqZ 0 n).

(** The NUL-terminated string at [p].  A scan that has read more bytes than
    the memory holds would have left it, so [S (size m)] steps are enough
    (lemma [c_str_None]). *)
Fixpoint c_str_go (fuel : nat) (m : mem) (p : Z) : option string :=
  match fuel with
  | O => None
  | S fuel' =>
      c ← m !! p;
      if decide (c = zero) then Some EmptyString
      else String c <$> c_str_go fuel' m (p + 1)
  end.

Definition c_str (m : mem) (p : Z) : option string := c_str_go (S (size m)) m p.

(** What a string literal denotes as a [const char *]: its bytes up to the
    first NUL. *)
Fixpoint c_literal (s : string) : string :=
  match s with
  | EmptyString => EmptyString
  | String c s' => if decide (c = zero) then EmptyString else String c (c_literal s')
  end.

Definition strlen (s : string) : Z := Z.of_nat (String.length s).

(** ** StringPool *)

(** [_pool] is a [std::map<std::string_view, uint32_t>]: the keys are
    compared by their bytes.  A key is kept here by value, the bytes the
    view had when it was added: the optimizer does not write to the string
    tables it reads while it uses the pool. *)
Record StringPool := mkStringPool {
  _pool : gmap string Z;
  _stringsLength : Z;
}.

(** [StringPool::addString].  [strView] is the [std::string_view] made from
    the [const char *] argument, the bytes before its first NUL; the callers
    read it with [c_str]. *)
Definition addString (sp : StringPool) (strView : string) : Z * StringPool :=
  match _pool sp !! strView with
  | Some index => (index, sp)
  | None =>
      let index := _stringsLength sp in
      (index,
       {| _pool := <[strView := index]> (_pool sp);
          _stringsLength :=
            wrap32 (_stringsLength sp + wrap32 (wrap32 (strlen strView) + 1)) |})
  end.

(** [StringPool::StringPool]: the literal ["\x00"] read as a C string. *)
Definition StringPool_new : StringPool :=
  (addString {| _pool := ∅; _stringsLength := 0 |}
     (c_literal (String zero EmptyString))).2.

(** [operator<] of [std::pair<uint32_t, std::string_view>]. *)
Definition strings_le (x y : Z * string) : Prop :=
  x.1 < y.1 \/ (x.1 = y.1 /\ String.leb x.2 y.2 = true).

#[global] Instance strings_le_dec : RelDecision strings_le.
Proof. intros x y. unfold strings_le. apply _. Defined.

(** The vector [strings] of [writeStrings] before it is sorted. *)
Definition pool_entries (sp : StringPool) : list (Z * string) :=
  (λ kv, (kv.2, kv.1)) <$> map_to_list (_pool sp).

(** The [memcpy] loop of [writeStrings]. *)
Fixpoint write_all (m : mem) (dest : Z) (strings : list (Z * string))
  : option mem :=
  match strings with
  | [] => Some m
  | (offset, string) :: rest =>
      m' ← store_bytes m (dest + offset) (list_ascii_of_string string);
      write_all m' dest rest
  end.

(** [StringPool::writeStrings].  [std::sort] on pairwise different pairs
    gives the one ascending arrangement, as [merge_sort] does.  With an empty
    vector [*strings.rbegin()] is undefined: a fault. *)
Definition writeStrings (sp : StringPool) (m : mem) (dest : Z)
  : option (Z * mem) :=
  let strings := merge_sort strings_le (pool_entries sp) in
  m' ← write_all m dest strings;
  '(lastStringOff, lastString) ← last strings;
  Some (wrap32 (wrap32 (lastStringOff + wrap32 (strlen lastString)) + 1), m').

(** [extends sp sp']: [sp'] is [sp] after any number of [addString] calls. *)
Inductive extends (sp : StringPool) : StringPool -> Prop :=
| extends_refl : extends sp sp
| extends_add sp' s : extends sp sp' -> extends sp (addString sp' s).2.

(** The bytes of the pool: every string with one terminator. *)
Definition pool_bytes (sp : StringPool) : Z :=
  map_fold (λ s _ n, n + (strlen s + 1)) 0 (_pool sp).

(** The layout of a pool: every string and its terminator lie below
    [_stringsLength], no two of them overlap, one of them ends at
    [_stringsLength], and [_stringsLength] is the sum of their sizes. *)
Definition pool_inv (sp : StringPool) : Prop :=
  (forall s o, _pool sp !! s = Some o ->
     0 <= o /\ o + strlen s + 1 <= _stringsLength sp)
  /\ (forall s1 o1 s2 o2,
        _pool sp !! s1 = Some o1 -> _pool sp !! s2 = Some o2 -> s1 ≠ s2 ->
        o1 + strlen s1 + 1 <= o2 \/ o2 + strlen s2 + 1 <= o1)
  /\ (exists s o, _pool sp !! s = Some o /\ o + strlen s + 1 = _stringsLength sp)
  /\ _stringsLength sp = pool_bytes sp.

(** The pools a program can hold: the constructor's, and any number of
    [addString] calls on it. *)
Inductive reachable : StringPool -> Prop :=
| reachable_new : reachable StringPool_new
| reachable_add sp s : reachable sp -> reachable (addString sp s).2.

(** ** Record layouts

    [Macho::Loader] mirrors [<mach-o/loader.h>]; the header that declares it
    is not part of the sources at hand, so the field offsets below are those
    of [loader.h], and those of the local-symbols records are those of
    [<dyld/dyld_cache_format.h>]. *)

(** The pointer-width tag [P] ([Utils::Pointer32], [Utils::Pointer64]). *)
Class Pointer := {
  sizeof_mach_header : Z;       (* sizeof(mach_header<P>) *)
  sizeof_nlist : Z;             (* sizeof(nlist<P>) *)
  sizeof_ptr : nat;             (* width of vmaddr, vmsize *)
  segment_vmaddr : Z;           (* offsetof(segment_command<P>, vmaddr) *)
  segment_vmsize : Z;
  segment_filesize : Z;
}.

Definition Pointer32 : Pointer :=
  {| sizeof_mach_header := 28; sizeof_nlist := 12; sizeof_ptr := 4;
     segment_vmaddr := 24; segment_vmsize := 28; segment_filesize := 36 |}.

Definition Pointer64 : Pointer :=
  {| sizeof_mach_header := 32; sizeof_nlist := 16; sizeof_ptr := 8;
     segment_vmaddr := 24; segment_vmsize := 32; segment_filesize := 48 |}.

Module Loader.
(* mach_header *)
Definition ncmds : Z := 16.
Definition sizeofcmds : Z := 20.
(* load_command *)
Definition cmdsize : Z := 4.
(* nlist *)
Definition n_strx : Z := 0.
Definition n_type : Z := 4.
(* symtab_command *)
Definition symoff : Z := 8.
Definition nsyms : Z := 12.
Definition stroff : Z := 16.
Definition strsize : Z := 20.
(* dysymtab_command *)
Definition ilocalsym : Z := 8.
Definition nlocalsym : Z := 12.
Definition iextdefsym : Z := 16.
Definition nextdefsym : Z := 20.
Definition iundefsym : Z := 24.
Definition nundefsym : Z := 28.
Definition indirectsymoff : Z := 56.
Definition nindirectsyms : Z := 60.
(* dyld_info_command *)
Definition bind_off : Z := 16.
Definition bind_size : Z := 20.
Definition weak_bind_off : Z := 24.
Definition weak_bind_size : Z := 28.
Definition lazy_bind_off : Z := 32.
Definition lazy_bind_size : Z := 36.
Definition export_off : Z := 40.
Definition export_size : Z := 44.
(* linkedit_data_command *)
Definition dataoff : Z := 8.
Definition datasize : Z := 12.
(* dyld_cache_local_symbols_info *)
Definition nlistOffset : Z := 0.
Definition stringsOffset : Z := 8.
Definition entriesOffset : Z := 16.
Definition entriesCount : Z := 20.
(* dyld_cache_local_symbols_entry: dylibOffset is a uint32_t *)
Definition entry_nlistStartIndex : Z := 4.
Definition entry_nlistCount : Z := 8.
Definition sizeof_entry : Z := 12.
(* dyld_cache_local_symbols_entry_64: dylibOffset is a uint64_t *)
Definition entry64_nlistStartIndex : Z := 8.
Definition entry64_nlistCount : Z := 12.
Definition sizeof_entry64 : Z := 16.
End Loader.

Definition INDIRECT_SYMBOL_LOCAL : Z := 0x80000000.
Definition INDIRECT_SYMBOL_ABS : Z := 0x40000000.

(** Modelled from the spec: [Utils::alignR(size, 8)], whose definition is not
    part of the sources at hand.  The spec has the sizes "padded to 8" and
    "rounded up to a multiple of 8"; [size] is a [uint32_t] taken by
    reference. *)
Definition alignR (size : Z) (alignment : Z) : Z :=
  wrap32 (size + (alignment - size mod alignment) mod alignment).

(** ** The collaborators of the optimizer

    [Macho::Context] and [Dyld::Context] are declared outside the sources at
    hand (only a part of [Macho/Context.h] is here).  They are taken as
    records of what the optimizer asks of them; their answers do not change
    while the optimizer runs. *)

Record MachoContext := {
  (* getLoadCommand<false, T>(...): the first such command, or nullptr *)
  getLoadCommand_dyld_info : Z;
  getLoadCommand_symtab : Z;
  getLoadCommand_dysymtab : Z;
  getLoadCommand_DYLD_EXPORTS_TRIE : Z;
  getLoadCommand_FUNCTION_STARTS : Z;
  getLoadCommand_DATA_IN_CODE : Z;
  (* header *)
  header : Z;
  (* getSection("__TEXT", "__text")->addr, None when there is no section *)
  getSection_TEXT_text_addr : option Z;
  (* getSegment("__LINKEDIT"): its command, None for std::nullopt *)
  getSegment_LINKEDIT : option Z;
  (* getSegment("__TEXT")->command->vmaddr *)
  getSegment_TEXT_vmaddr : Z;
  (* convertAddr(addr): the file offset and the file *)
  convertAddr : Z -> Z * Z;
  (* convertAddrP(addr): the address in the file *)
  convertAddrP : Z -> Z;
}.

(** The symbols cache, [_dCtx.getSymbolsCache()]: its [file] and its
    [header->localSymbolsOffset]. *)
Record SymbolsCache := {
  file : Z;
  localSymbolsOffset : Z;
}.

Record DyldContext := {
  sharedRegionStart : Z;            (* header->sharedRegionStart *)
  (* headerContainsMember(offsetof(dyld_cache_header, symbolFileUUID)) *)
  headerContainsMember_symbolFileUUID : bool;
  getSymbolsCache : option SymbolsCache;   (* None for nullptr *)
}.

(** ** LinkeditTracker *)

(** [LinkeditData]: [offset] points at the [uint32_t] field of the load
    command that names the region, [data] at the region, [dataSize] is a
    [uint32_t].  Its arguments are taken in the order of the calls
    [LinkeditData(field, data, size)]. *)
Module LinkeditData.
Record t := mk {
  offset : Z;
  data : Z;
  dataSize : Z;
}.
End LinkeditData.
Abbreviation LinkeditData := LinkeditData.mk.

Module LinkeditTracker.

Record t := mk {
  _header : Z;
  _commandsStart : Z;
  _headerSpaceAvailable : Z;
  _linkeditStart : Z;
  _linkeditEnd : Z;
  trackingData : list LinkeditData.t;
}.

Definition set_trackingData (self : t) (td : list LinkeditData.t) : t :=
  {| _header := _header self;
     _commandsStart := _commandsStart self;
     _headerSpaceAvailable := _headerSpaceAvailable self;
     _linkeditStart := _linkeditStart self;
     _linkeditEnd := _linkeditEnd self;
     trackingData := td |}.

(** [std::lower_bound] with the comparison [a.data < b.data], then
    [insert]: the new element goes before the first one whose [data] is
    not below its own.  (On the registry, which is kept in that order, the
    binary search of [lower_bound] finds this same place.) *)
Fixpoint lower_bound_insert (l : list LinkeditData.t) (d : LinkeditData.t)
  : list LinkeditData.t :=
  match l with
  | [] => [d]
  | a :: l' =>
      if decide (LinkeditData.data a < LinkeditData.data d)
      then a :: lower_bound_insert l' d
      else d :: a :: l'
  end.

Definition trackData (self : t) (d : LinkeditData.t) : t :=
  set_trackingData self (lower_bound_insert (trackingData self) d).

(** The loop "Adjust tracking pointers" of [insertLoadCommand]. *)
Definition shift_offsets (shiftStart shiftDelta : Z) (l : list LinkeditData.t)
  : list LinkeditData.t :=
  (λ ptrPair,
     if decide (LinkeditData.offset ptrPair >= shiftStart)
     then LinkeditData (LinkeditData.offset ptrPair + shiftDelta)
            (LinkeditData.data ptrPair) (LinkeditData.dataSize ptrPair)
     else ptrPair) <$> l.

(** [lc->cmdsize] is read again wherever the source names it. *)
Definition insertLoadCommand (self : t) (m : mem) (after lc : Z)
  : option (bool * t * mem) :=
  sizeofcmds ← load32 m (_header self + Loader.sizeofcmds);
  lc_cmdsize ← load32 m (lc + Loader.cmdsize);
  if decide (wrap32 (sizeofcmds + lc_cmdsize) > _headerSpaceAvailable self)
  then Some (false, self, m)
  else
    let shiftDelta := lc_cmdsize in
    after_cmdsize ← load32 m (after + Loader.cmdsize);
    let shiftStart := after + after_cmdsize in
    let shiftEnd := _commandsStart self + sizeofcmds in
    m ← memmove m (shiftStart + shiftDelta) shiftStart (shiftEnd - shiftStart);
    lc_cmdsize ← load32 m (lc + Loader.cmdsize);
    m ← memcpy m shiftStart m lc lc_cmdsize;
    let self :=
      set_trackingData self (shift_offsets shiftStart shiftDelta (trackingData self)) in
    ncmds ← load32 m (_header self + Loader.ncmds);
    m ← store32 m (_header self + Loader.ncmds) (wrap32 (ncmds + 1));
    sizeofcmds ← load32 m (_header self + Loader.sizeofcmds);
    lc_cmdsize ← load32 m (lc + Loader.cmdsize);
    m ← store32 m (_header self + Loader.sizeofcmds) (wrap32 (sizeofcmds + lc_cmdsize));
    Some (true, self, m).

(** The shift amount of [insertLinkeditData], in [uint32_t]. *)
Definition shiftDelta_of (dataSize : Z) : Z :=
  wrap32 (dataSize + (8 - dataSize mod 8)).

(** The loop "Update tracking data" of [insertLinkeditData]. *)
Fixpoint shift_tracked (m : mem) (shiftStart shiftDelta : Z)
    (l : list LinkeditData.t) : option (list LinkeditData.t * mem) :=
  match l with
  | [] => Some ([], m)
  | trackedData :: rest =>
      if decide (LinkeditData.data trackedData >= shiftStart) then
        v ← load32 m (LinkeditData.offset trackedData);
        m ← store32 m (LinkeditData.offset trackedData) (wrap32 (v + shiftDelta));
        '(rest', m) ← shift_tracked m shiftStart shiftDelta rest;
        Some (LinkeditData (LinkeditData.offset trackedData)
                (LinkeditData.data trackedData + shiftDelta)
                (LinkeditData.dataSize trackedData) :: rest', m)
      else
        '(rest', m) ← shift_tracked m shiftStart shiftDelta rest;
        Some (trackedData :: rest', m)
  end.

(** The end of the last tracked region, [_linkeditStart] when there is
    none. *)
Definition lastDataEnd (self : t) : Z :=
  match last (trackingData self) with
  | Some lastData => LinkeditData.data lastData + LinkeditData.dataSize lastData
  | None => _linkeditStart self
  end.

Definition insertLinkeditData (self : t) (m : mem)
    (after : option LinkeditData.t) (data : LinkeditData.t)
  : option (bool * t * mem) :=
  let shiftDelta := shiftDelta_of (LinkeditData.dataSize data) in
  let lastDataEnd := lastDataEnd self in
  if decide (lastDataEnd + shiftDelta > _linkeditEnd self)
  then Some (false, self, m)
  else
    let shiftStart :=
      match after with
      | Some after => LinkeditData.data after + LinkeditData.dataSize after
      | None => _linkeditStart self
      end in
    m ← memmove m (shiftStart + shiftDelta) shiftStart (lastDataEnd - shiftStart);
    '(td, m) ← shift_tracked m shiftStart shiftDelta (trackingData self);
    let self := set_trackingData self td in
    m ← memset m (shiftStart + shiftDelta - 8) 0 8;
    m ← memcpy m shiftStart m (LinkeditData.data data) (LinkeditData.dataSize data);
    let data := LinkeditData (LinkeditData.offset data) shiftStart shiftDelta in
    Some (true, trackData self data, m).

(** The constructor; [inl] is the [std::invalid_argument] it throws. *)
Definition new {P : Pointer} (mCtx : MachoContext) (m : mem)
  : option (string + t) :=
  match getSection_TEXT_text_addr mCtx with
  | None => Some (inl "Mach-O Context doesn't have a __text sect.")
  | Some addr =>
      let textSectStart := convertAddrP mCtx addr in
      let commandsStart := header mCtx + sizeof_mach_header in
      match getSegment_LINKEDIT mCtx with
      | None => Some (inl "Mach-O Context doesn't have a __LINKEDIT segment.")
      | Some linkeditSeg =>
          vmaddr ← le_decode <$> load_bytes m (linkeditSeg + segment_vmaddr) sizeof_ptr;
          vmsize ← le_decode <$> load_bytes m (linkeditSeg + segment_vmsize) sizeof_ptr;
          let linkeditStart := convertAddrP mCtx vmaddr in
          Some (inr (mk (header mCtx) commandsStart
                       (wrap32 (textSectStart - commandsStart))
                       linkeditStart (linkeditStart + vmsize) []))
      end
  end.

End LinkeditTracker.

Definition wrap64 (z : Z) : Z := z mod 2 ^ 64.

(** [std::map<uint32_t, uint32_t>::operator[]] read as a value: a key that
    is missing is inserted with the value [0]. *)
Definition map_subscript (m : gmap Z Z) (k : Z) : Z * gmap Z Z :=
  match m !! k with
  | Some v => (v, m)
  | None => (0, <[k := 0]> m)
  end.

(** ** LinkeditOptimizer *)

Module LinkeditOptimizer.

(** The object, with [ram], the memory of the process that its pointers
    lead to (the mapped cache files with the load commands and the old
    LINKEDIT), and [hasRedactedIndirect], the flag of [_eCtx]. *)
Record t := mk {
  mCtx : MachoContext;
  dCtx : DyldContext;
  ram : mem;
  hasRedactedIndirect : bool;
  _linkeditTracker : LinkeditTracker.t;
  _stringsPool : StringPool;
  _symbolsCount : Z;
  _linkeditFile : Z;
  _linkeditOffset : Z;
  _linkeditStart : Z;
  _dyldInfo : Z;
  _symTab : Z;
  _dySymTab : Z;
  _exportTrieCmd : Z;
  _newSymbolEntriesStart : Z;
  _redactedSymbolsCount : Z;
  _newSymbolIndicies : gmap Z Z;
}.

Definition set_ram (s : t) (v : mem) : t :=
  mk (mCtx s) (dCtx s) v (hasRedactedIndirect s) (_linkeditTracker s)
     (_stringsPool s) (_symbolsCount s) (_linkeditFile s) (_linkeditOffset s)
     (_linkeditStart s) (_dyldInfo s) (_symTab s) (_dySymTab s)
     (_exportTrieCmd s) (_newSymbolEntriesStart s) (_redactedSymbolsCount s)
     (_newSymbolIndicies s).

Definition set_hasRedactedIndirect (s : t) (v : bool) : t :=
  mk (mCtx s) (dCtx s) (ram s) v (_linkeditTracker s)
     (_stringsPool s) (_symbolsCount s) (_linkeditFile s) (_linkeditOffset s)
     (_linkeditStart s) (_dyldInfo s) (_symTab s) (_dySymTab s)
     (_exportTrieCmd s) (_newSymbolEntriesStart s) (_redactedSymbolsCount s)
     (_newSymbolIndicies s).

Definition set_linkeditTracker (s : t) (v : LinkeditTracker.t) : t :=
  mk (mCtx s) (dCtx s) (ram s) (hasRedactedIndirect s) v
     (_stringsPool s) (_symbolsCount s) (_linkeditFile s) (_linkeditOffset s)
     (_linkeditStart s) (_dyldInfo s) (_symTab s) (_dySymTab s)
     (_exportTrieCmd s) (_newSymbolEntriesStart s) (_redactedSymbolsCount s)
     (_newSymbolIndicies s).

Definition set_stringsPool (s : t) (v : StringPool) : t :=
  mk (mCtx s) (dCtx s) (ram s) (hasRedactedIndirect s) (_linkeditTracker s)
     v (_symbolsCount s) (_linkeditFile s) (_linkeditOffset s)
     (_linkeditStart s) (_dyldInfo s) (_symTab s) (_dySymTab s)
     (_exportTrieCmd s) (_newSymbolEntriesStart s) (_redactedSymbolsCount s)
     (_newSymbolIndicies s).

Definition set_symbolsCount (s : t) (v : Z) : t :=
  mk (mCtx s) (dCtx s) (ram s) (hasRedactedIndirect s) (_linkeditTracker s)
     (_stringsPool s) v (_linkeditFile s) (_linkeditOffset s)
     (_linkeditStart s) (_dyldInfo s) (_symTab s) (_dySymTab s)
     (_exportTrieCmd s) (_newSymbolEntriesStart s) (_redactedSymbolsCount s)
     (_newSymbolIndicies s).

Definition set_newSymbolEntriesStart (s : t) (v : Z) : t :=
  mk (mCtx s) (dCtx s) (ram s) (hasRedactedIndirect s) (_linkeditTracker s)
     (_stringsPool s) (_symbolsCount s) (_linkeditFile s) (_linkeditOffset s)
     (_linkeditStart s) (_dyldInfo s) (_symTab s) (_dySymTab s)
     (_exportTrieCmd s) v (_redactedSymbolsCount s)
     (_newSymbolIndicies s).

Definition set_redactedSymbolsCount (s : t) (v : Z) : t :=
  mk (mCtx s) (dCtx s) (ram s) (hasRedactedIndirect s) (_linkeditTracker s)
     (_stringsPool s) (_symbolsCount s) (_linkeditFile s) (_linkeditOffset s)
     (_linkeditStart s) (_dyldInfo s) (_symTab s) (_dySymTab s)
     (_exportTrieCmd s) (_newSymbolEntriesStart s) v
     (_newSymbolIndicies s).

Definition set_newSymbolIndicies (s : t) (v : gmap Z Z) : t :=
  mk (mCtx s) (dCtx s) (ram s) (hasRedactedIndirect s) (_linkeditTracker s)
     (_stringsPool s) (_symbolsCount s) (_linkeditFile s) (_linkeditOffset s)
     (_linkeditStart s) (_dyldInfo s) (_symTab s) (_dySymTab s)
     (_exportTrieCmd s) (_newSymbolEntriesStart s) (_redactedSymbolsCount s)
     v.

(** [_linkeditTracker.trackData(LinkeditData(field, data, size))]. *)
Definition track (s : t) (field data size : Z) : t :=
  set_linkeditTracker s
    (LinkeditTracker.trackData (_linkeditTracker s) (LinkeditData field data size)).

Section passes.
Context {P : Pointer}.

(** A [vmaddr] or [vmsize], as wide as a pointer. *)
Definition loadP (m : mem) (a : Z) : option Z :=
  le_decode <$> load_bytes m a sizeof_ptr.
Definition storeP (m : mem) (a v : Z) : option mem :=
  store_bytes m a (le_encode sizeof_ptr v).

(** The constructor; dereferencing an empty [std::optional] is a fault.
    [tracker] is [*eCtx.linkeditTracker], [m] the memory
    of the process, [redacted] the flag [eCtx.hasRedactedIndirect]. *)
Definition new (mctx : MachoContext) (dctx : DyldContext) (m : mem)
    (redacted : bool) (tracker : LinkeditTracker.t) : option t :=
  linkeditSeg ← getSegment_LINKEDIT mctx;
  vmaddr ← loadP m (linkeditSeg + segment_vmaddr);
  let '(offset, file) := convertAddr mctx vmaddr in
  Some (mk mctx dctx m redacted tracker StringPool_new 0
          file (wrap32 offset) (file + offset)
          (getLoadCommand_dyld_info mctx) (getLoadCommand_symtab mctx)
          (getLoadCommand_dysymtab mctx) (getLoadCommand_DYLD_EXPORTS_TRIE mctx)
          0 0 ∅).

(** Every pass takes the buffer [newLinkedit] (a memory addressed from the
    first byte of the allocation: the pointer [newLinkedit + offset] is the
    address [offset] in it) and the cursor [offset], a [uint32_t &].  No pass
    is given the size of the buffer. *)

Definition copyBindingInfo (self : t) (newLinkedit : mem) (offset : Z)
  : option (t * mem * Z) :=
  if decide (_dyldInfo self = nullptr) then Some (self, newLinkedit, offset)
  else
    size ← load32 (ram self) (_dyldInfo self + Loader.bind_size);
    if decide (size ≠ 0) then
      bind_off ← load32 (ram self) (_dyldInfo self + Loader.bind_off);
      newLinkedit ← memcpy newLinkedit offset (ram self) (_linkeditFile self + bind_off) size;
      let size := alignR size 8 in
      let self := track self (_dyldInfo self + Loader.bind_off)
                    (_linkeditStart self + offset) size in
      ram' ← store32 (ram self) (_dyldInfo self + Loader.bind_off)
               (wrap32 (_linkeditOffset self + offset));
      Some (set_ram self ram', newLinkedit, wrap32 (offset + size))
    else Some (self, newLinkedit, offset).

Definition copyWeakBindingInfo (self : t) (newLinkedit : mem) (offset : Z)
  : option (t * mem * Z) :=
  if decide (_dyldInfo self = nullptr) then Some (self, newLinkedit, offset)
  else
    size ← load32 (ram self) (_dyldInfo self + Loader.weak_bind_size);
    if decide (size ≠ 0) then
      weak_bind_off ← load32 (ram self) (_dyldInfo self + Loader.weak_bind_off);
      newLinkedit ← memcpy newLinkedit offset (ram self) (_linkeditFile self + weak_bind_off) size;
      let size := alignR size 8 in
      let self := track self (_dyldInfo self + Loader.weak_bind_off)
                    (_linkeditStart self + offset) size in
      ram' ← store32 (ram self) (_dyldInfo self + Loader.weak_bind_off)
               (wrap32 (_linkeditOffset self + offset));
      Some (set_ram self ram', newLinkedit, wrap32 (offset + size))
    else Some (self, newLinkedit, offset).

Definition copyLazyBindingInfo (self : t) (newLinkedit : mem) (offset : Z)
  : option (t * mem * Z) :=
  if decide (_dyldInfo self = nullptr) then Some (self, newLinkedit, offset)
  else
    size ← load32 (ram self) (_dyldInfo self + Loader.lazy_bind_size);
    if decide (size ≠ 0) then
      lazy_bind_off ← load32 (ram self) (_dyldInfo self + Loader.lazy_bind_off);
      newLinkedit ← memcpy newLinkedit offset (ram self) (_linkeditFile self + lazy_bind_off) size;
      let size := alignR size 8 in
      let self := track self (_dyldInfo self + Loader.lazy_bind_off)
                    (_linkeditStart self + offset) size in
      ram' ← store32 (ram self) (_dyldInfo self + Loader.lazy_bind_off)
               (wrap32 (_linkeditOffset self + offset));
      Some (set_ram self ram', newLinkedit, wrap32 (offset + size))
    else Some (self, newLinkedit, offset).

(** [copyExportInfo] is declared and defined, and nothing calls it: no
    instantiation of the class template has this member.  Its assignment
    of [_linkeditStart + offset] to the [uint32_t] that [dataFieldOff]
    points at gives a pointer to a [uint32_t], which C++ does not allow, so
    that the member has no behaviour from there on: the model follows it up
    to that statement and has no result ([None]) for a call that reaches
    it. *)
Definition copyExportInfo (self : t) (newLinkedit : mem) (offset : Z)
  : option (t * mem * Z) :=
  if decide (_exportTrieCmd self = nullptr /\ _dyldInfo self = nullptr)
  then Some (self, newLinkedit, offset)
  else
    '(data, dataSize, dataFieldOff) ←
      (if decide (_exportTrieCmd self ≠ nullptr) then
         dataoff ← load32 (ram self) (_exportTrieCmd self + Loader.dataoff);
         datasize ← load32 (ram self) (_exportTrieCmd self + Loader.datasize);
         Some (_linkeditFile self + dataoff, datasize,
               _exportTrieCmd self + Loader.dataoff)
       else
         export_off ← load32 (ram self) (_dyldInfo self + Loader.export_off);
         export_size ← load32 (ram self) (_dyldInfo self + Loader.export_size);
         Some (_linkeditFile self + export_off, export_size,
               _dyldInfo self + Loader.export_off));
    if decide (dataSize ≠ 0) then
      newLinkedit ← memcpy newLinkedit offset (ram self) data dataSize;
      let dataSize := alignR dataSize 8 in
      let self := track self dataFieldOff (_linkeditStart self + offset) dataSize in
      (* the assignment of the pointer to the field *)
      None
    else Some (self, newLinkedit, offset).

Definition startSymbolEntries (self : t) (newLinkedit : mem) (offset : Z)
  : option (t * mem * Z) :=
  Some (set_newSymbolEntriesStart self offset, newLinkedit, offset).

(** The counting loop of [searchRedactedSymbol], from index [i] on, [n]
    entries left. *)
Fixpoint count_redacted (m : mem) (indirectSymStart : Z) (n : nat) (i : Z)
    (redactedSymbolsCount : Z) : option Z :=
  match n with
  | O => Some redactedSymbolsCount
  | S n' =>
      symbolIndex ← load32 m (indirectSymStart + i * 4);
      count_redacted m indirectSymStart n' (i + 1)
        (if decide (symbolIndex = 0) then wrap32 (redactedSymbolsCount + 1)
         else redactedSymbolsCount)
  end.

(** [_dySymTab->nindirectsyms], which the loop condition reads at every
    turn, is read once: the loop writes nothing. *)
Definition searchRedactedSymbol (self : t) (newLinkedit : mem) (offset : Z)
  : option (t * mem * Z) :=
  indirectsymoff ← load32 (ram self) (_dySymTab self + Loader.indirectsymoff);
  let indirectSymStart := _linkeditFile self + indirectsymoff in
  nindirectsyms ← load32 (ram self) (_dySymTab self + Loader.nindirectsyms);
  count ← count_redacted (ram self) indirectSymStart (Z.to_nat nindirectsyms) 0
            (_redactedSymbolsCount self);
  let self := set_redactedSymbolsCount self count in
  if decide (_redactedSymbolsCount self ≠ 0) then
    let '(strIndex, pool) := addString (_stringsPool self) (c_literal "<redacted>") in
    let self := set_stringsPool self pool in
    let self := set_symbolsCount self (wrap32 (_symbolsCount self + 1)) in
    let symbolEntry := offset in
    newLinkedit ← store32 newLinkedit (symbolEntry + Loader.n_strx) strIndex;
    newLinkedit ← store8 newLinkedit (symbolEntry + Loader.n_type) 1;
    Some (set_hasRedactedIndirect self true, newLinkedit,
          wrap32 (offset + sizeof_nlist))
  else Some (self, newLinkedit, offset).

(** [memcpy(newEntry, entry, sizeof(nlist<P>))] and
    [newEntry->n_un.n_strx = _stringsPool.addString(string)], the body the
    four symbol loops share. *)
Definition copy_nlist (self : t) (newLinkedit : mem) (newEntry entry : Z)
    (string : string) : option (t * mem) :=
  newLinkedit ← memcpy newLinkedit newEntry (ram self) entry sizeof_nlist;
  let '(strx, pool) := addString (_stringsPool self) string in
  newLinkedit ← store32 newLinkedit (newEntry + Loader.n_strx) strx;
  Some (set_stringsPool self pool, newLinkedit).

(** The loop of [_copyPublicLocalSymbols]: [n] entries left, [entry] the
    next one. *)
Fixpoint copyPublicLocalSymbols_loop (n : nat) (strings entry : Z) (self : t)
    (newLinkedit : mem) (newEntriesHead newLocalSymbolsCount : Z)
  : option (t * mem * Z) :=
  match n with
  | O => Some (self, newLinkedit, newLocalSymbolsCount)
  | S n' =>
      n_strx ← load32 (ram self) (entry + Loader.n_strx);
      string ← c_str (ram self) (strings + n_strx);
      if decide (string = c_literal "<redacted>") then
        copyPublicLocalSymbols_loop n' strings (entry + sizeof_nlist) self
          newLinkedit newEntriesHead newLocalSymbolsCount
      else
        '(self, newLinkedit) ← copy_nlist self newLinkedit newEntriesHead entry string;
        let self := set_symbolsCount self (wrap32 (_symbolsCount self + 1)) in
        copyPublicLocalSymbols_loop n' strings (entry + sizeof_nlist) self
          newLinkedit (newEntriesHead + sizeof_nlist)
          (wrap32 (newLocalSymbolsCount + 1))
  end.

Definition _copyPublicLocalSymbols (self : t) (newLinkedit : mem) (offset : Z)
  : option (Z * t * mem * Z) :=
  if decide (_dySymTab self = nullptr) then Some (0, self, newLinkedit, offset)
  else
    nlocalsym ← load32 (ram self) (_dySymTab self + Loader.nlocalsym);
    if decide (nlocalsym = 0) then Some (0, self, newLinkedit, offset)
    else
      stroff ← load32 (ram self) (_symTab self + Loader.stroff);
      let strings := _linkeditFile self + stroff in
      symoff ← load32 (ram self) (_symTab self + Loader.symoff);
      ilocalsym ← load32 (ram self) (_dySymTab self + Loader.ilocalsym);
      let symsStart := _linkeditFile self + symoff + sizeof_nlist * ilocalsym in
      '(self, newLinkedit, newLocalSymbolsCount) ←
        copyPublicLocalSymbols_loop (Z.to_nat nlocalsym) strings symsStart self
          newLinkedit offset 0;
      Some (newLocalSymbolsCount, self, newLinkedit,
            wrap32 (offset + sizeof_nlist * newLocalSymbolsCount)).

(** The lambda [searchEntries] of [_findLocalSymbolEntries], for an entry
    type of size [sizeof_T] whose [dylibOffset] is read by [load]: the
    entry found, or [nullptr]. *)
Fixpoint searchEntries (m : mem) (sizeof_T : Z) (load : mem -> Z -> option Z)
    (n : nat) (entry machoOffset : Z) : option Z :=
  match n with
  | O => Some nullptr
  | S n' =>
      dylibOffset ← load m entry;
      if decide (dylibOffset = machoOffset) then Some entry
      else searchEntries m sizeof_T load n' (entry + sizeof_T) machoOffset
  end.

(** The pair ([symsStart], [symsEnd]); both [nullptr] when the image has
    no entry. *)
Definition _findLocalSymbolEntries (self : t) (symbolsInfo : Z)
  : option (Z * Z) :=
  entriesOffset ← load32 (ram self) (symbolsInfo + Loader.entriesOffset);
  entriesCount ← load32 (ram self) (symbolsInfo + Loader.entriesCount);
  let entriesStart := symbolsInfo + entriesOffset in
  '(nlistStart, nlistCount) ←
    (if headerContainsMember_symbolFileUUID (dCtx self) then
       let machoOffset :=
         wrap64 (getSegment_TEXT_vmaddr (mCtx self) - sharedRegionStart (dCtx self)) in
       entry ← searchEntries (ram self) Loader.sizeof_entry64 load64
                 (Z.to_nat entriesCount) entriesStart machoOffset;
       if decide (entry ≠ nullptr) then
         nlistOffset ← load32 (ram self) (symbolsInfo + Loader.nlistOffset);
         nlistStartIndex ← load32 (ram self) (entry + Loader.entry64_nlistStartIndex);
         nlistCount ← load32 (ram self) (entry + Loader.entry64_nlistCount);
         Some (symbolsInfo + nlistOffset + sizeof_nlist * nlistStartIndex, nlistCount)
       else Some (nullptr, 0)
     else
       let machoOffset :=
         (convertAddr (mCtx self) (getSegment_TEXT_vmaddr (mCtx self))).1 in
       entry ← searchEntries (ram self) Loader.sizeof_entry load32
                 (Z.to_nat entriesCount) entriesStart (wrap32 machoOffset);
       if decide (entry ≠ nullptr) then
         nlistOffset ← load32 (ram self) (symbolsInfo + Loader.nlistOffset);
         nlistStartIndex ← load32 (ram self) (entry + Loader.entry_nlistStartIndex);
         nlistCount ← load32 (ram self) (entry + Loader.entry_nlistCount);
         Some (symbolsInfo + nlistOffset + sizeof_nlist * nlistStartIndex, nlistCount)
       else Some (nullptr, 0));
  if decide (nlistStart = nullptr) then Some (nullptr, nullptr)
  else Some (nlistStart, nlistStart + sizeof_nlist * nlistCount).

(** The loop of [_copyRedactedLocalSymbols]. *)
Fixpoint copyRedactedLocalSymbols_loop (n : nat) (stringsStart symEntry : Z)
    (self : t) (newLinkedit : mem) (newEntriesHead newLocalSymbolsCount : Z)
  : option (t * mem * Z) :=
  match n with
  | O => Some (self, newLinkedit, newLocalSymbolsCount)
  | S n' =>
      n_strx ← load32 (ram self) (symEntry + Loader.n_strx);
      string ← c_str (ram self) (stringsStart + n_strx);
      '(self, newLinkedit) ← copy_nlist self newLinkedit newEntriesHead symEntry string;
      let self := set_symbolsCount self (wrap32 (_symbolsCount self + 1)) in
      copyRedactedLocalSymbols_loop n' stringsStart (symEntry + sizeof_nlist) self
        newLinkedit (newEntriesHead + sizeof_nlist)
        (wrap32 (newLocalSymbolsCount + 1))
  end.

(** When no entry is found the source logs an error and goes on: the loop
    from [nullptr] to [nullptr] has no turn.  The loop walks from
    [symsStart] to [symsEnd] in steps of [sizeof(nlist<P>)]. *)
Definition _copyRedactedLocalSymbols (self : t) (newLinkedit : mem) (offset : Z)
  : option (Z * t * mem * Z) :=
  match getSymbolsCache (dCtx self) with
  | None => Some (0, self, newLinkedit, offset)
  | Some symbolsCache =>
      if decide (localSymbolsOffset symbolsCache = 0)
      then Some (0, self, newLinkedit, offset)
      else
        let localSymsInfo := file symbolsCache + localSymbolsOffset symbolsCache in
        '(symsStart, symsEnd) ← _findLocalSymbolEntries self localSymsInfo;
        stringsOffset ← load32 (ram self) (localSymsInfo + Loader.stringsOffset);
        let stringsStart := localSymsInfo + stringsOffset in
        '(self, newLinkedit, newLocalSymbolsCount) ←
          copyRedactedLocalSymbols_loop
            (Z.to_nat ((symsEnd - symsStart) / sizeof_nlist)) stringsStart
            symsStart self newLinkedit offset 0;
        Some (newLocalSymbolsCount, self, newLinkedit,
              wrap32 (offset + sizeof_nlist * newLocalSymbolsCount))
  end.

Definition copyLocalSymbols (self : t) (newLinkedit : mem) (offset : Z)
  : option (t * mem * Z) :=
  let newLocalSymbolsStartIndex := _symbolsCount self in
  '(newSymsCount, self, newLinkedit, offset) ←
    _copyPublicLocalSymbols self newLinkedit offset;
  '(redacted, self, newLinkedit, offset) ←
    _copyRedactedLocalSymbols self newLinkedit offset;
  let newSymsCount := wrap32 (newSymsCount + redacted) in
  if decide (newSymsCount ≠ 0 /\ _dySymTab self ≠ nullptr) then
    ram' ← store32 (ram self) (_dySymTab self + Loader.ilocalsym)
             newLocalSymbolsStartIndex;
    ram' ← store32 ram' (_dySymTab self + Loader.nlocalsym) newSymsCount;
    Some (set_ram self ram', newLinkedit, offset)
  else Some (self, newLinkedit, offset).

(** The loop that [copyExportedSymbols] and [copyImportedSymbols] have in
    common, from [symIndex] on. *)
Fixpoint copySymbols_loop (n : nat) (syms stringsStart symIndex : Z) (self : t)
    (newLinkedit : mem) (newEntriesHead newSymbolsCount : Z)
  : option (t * mem * Z) :=
  match n with
  | O => Some (self, newLinkedit, newSymbolsCount)
  | S n' =>
      let symEntry := syms + sizeof_nlist * symIndex in
      n_strx ← load32 (ram self) (symEntry + Loader.n_strx);
      string ← c_str (ram self) (stringsStart + n_strx);
      '(self, newLinkedit) ← copy_nlist self newLinkedit newEntriesHead symEntry string;
      let self :=
        set_newSymbolIndicies self
          (<[symIndex := _symbolsCount self]> (_newSymbolIndicies self)) in
      let self := set_symbolsCount self (wrap32 (_symbolsCount self + 1)) in
      copySymbols_loop n' syms stringsStart (symIndex + 1) self newLinkedit
        (newEntriesHead + sizeof_nlist) (wrap32 (newSymbolsCount + 1))
  end.

Definition copyExportedSymbols (self : t) (newLinkedit : mem) (offset : Z)
  : option (t * mem * Z) :=
  if decide (_dySymTab self = nullptr) then Some (self, newLinkedit, offset)
  else
    let newExportedSymbolsStartIndex := _symbolsCount self in
    symoff ← load32 (ram self) (_symTab self + Loader.symoff);
    let syms := _linkeditFile self + symoff in
    symsStart ← load32 (ram self) (_dySymTab self + Loader.iextdefsym);
    nextdefsym ← load32 (ram self) (_dySymTab self + Loader.nextdefsym);
    let symsEnd := wrap32 (symsStart + nextdefsym) in
    stroff ← load32 (ram self) (_symTab self + Loader.stroff);
    let stringsStart := _linkeditFile self + stroff in
    '(self, newLinkedit, newExportedSymbolsCount) ←
      copySymbols_loop (Z.to_nat (symsEnd - symsStart)) syms stringsStart
        symsStart self newLinkedit offset 0;
    self ←
      (if decide (newExportedSymbolsCount ≠ 0) then
         ram' ← store32 (ram self) (_dySymTab self + Loader.iextdefsym)
                  newExportedSymbolsStartIndex;
         ram' ← store32 ram' (_dySymTab self + Loader.nextdefsym)
                  newExportedSymbolsCount;
         Some (set_ram self ram')
       else Some self);
    Some (self, newLinkedit,
          wrap32 (offset + sizeof_nlist * newExportedSymbolsCount)).

Definition copyImportedSymbols (self : t) (newLinkedit : mem) (offset : Z)
  : option (t * mem * Z) :=
  if decide (_dySymTab self = nullptr) then Some (self, newLinkedit, offset)
  else
    let newImportedSymbolsStartIndex := _symbolsCount self in
    symoff ← load32 (ram self) (_symTab self + Loader.symoff);
    let syms := _linkeditFile self + symoff in
    symsStart ← load32 (ram self) (_dySymTab self + Loader.iundefsym);
    nundefsym ← load32 (ram self) (_dySymTab self + Loader.nundefsym);
    let symsEnd := wrap32 (symsStart + nundefsym) in
    stroff ← load32 (ram self) (_symTab self + Loader.stroff);
    let stringsStart := _linkeditFile self + stroff in
    '(self, newLinkedit, newImportedSymbolsCount) ←
      copySymbols_loop (Z.to_nat (symsEnd - symsStart)) syms stringsStart
        symsStart self newLinkedit offset 0;
    self ←
      (if decide (newImportedSymbolsCount ≠ 0) then
         ram' ← store32 (ram self) (_dySymTab self + Loader.iundefsym)
                  newImportedSymbolsStartIndex;
         ram' ← store32 ram' (_dySymTab self + Loader.nundefsym)
                  newImportedSymbolsCount;
         Some (set_ram self ram')
       else Some self);
    Some (self, newLinkedit,
          wrap32 (offset + sizeof_nlist * newImportedSymbolsCount)).

Definition endSymbolEntries (self : t) (newLinkedit : mem) (offset : Z)
  : option (t * mem * Z) :=
  if decide (_symTab self = nullptr) then Some (self, newLinkedit, offset)
  else
    let offset := wrap32 (offset + sizeof_nlist * _redactedSymbolsCount self) in
    let symEntrySize := alignR (wrap32 (offset - _newSymbolEntriesStart self)) 8 in
    let self := track self (_symTab self + Loader.symoff)
                  (_linkeditStart self + _newSymbolEntriesStart self) symEntrySize in
    ram' ← store32 (ram self) (_symTab self + Loader.symoff)
             (wrap32 (_linkeditOffset self + _newSymbolEntriesStart self));
    ram' ← store32 ram' (_symTab self + Loader.nsyms) (_symbolsCount self);
    Some (set_ram self ram', newLinkedit, offset).

Definition copyFunctionStarts (self : t) (newLinkedit : mem) (offset : Z)
  : option (t * mem * Z) :=
  let functionStarts := getLoadCommand_FUNCTION_STARTS (mCtx self) in
  if decide (functionStarts = nullptr) then Some (self, newLinkedit, offset)
  else
    size ← load32 (ram self) (functionStarts + Loader.datasize);
    if decide (size ≠ 0) then
      dataoff ← load32 (ram self) (functionStarts + Loader.dataoff);
      newLinkedit ← memcpy newLinkedit offset (ram self) (_linkeditFile self + dataoff) size;
      let size := alignR size 8 in
      let self := track self (functionStarts + Loader.dataoff)
                    (_linkeditStart self + offset) size in
      ram' ← store32 (ram self) (functionStarts + Loader.dataoff)
               (wrap32 (_linkeditOffset self + offset));
      Some (set_ram self ram', newLinkedit, wrap32 (offset + size))
    else Some (self, newLinkedit, offset).

Definition copyDataInCode (self : t) (newLinkedit : mem) (offset : Z)
  : option (t * mem * Z) :=
  let dataInCode := getLoadCommand_DATA_IN_CODE (mCtx self) in
  if decide (dataInCode = nullptr) then Some (self, newLinkedit, offset)
  else
    size ← load32 (ram self) (dataInCode + Loader.datasize);
    if decide (size ≠ 0) then
      dataoff ← load32 (ram self) (dataInCode + Loader.dataoff);
      newLinkedit ← memcpy newLinkedit offset (ram self) (_linkeditFile self + dataoff) size;
      let size := alignR size 8 in
      let self := track self (dataInCode + Loader.dataoff)
                    (_linkeditStart self + offset) size in
      ram' ← store32 (ram self) (dataInCode + Loader.dataoff)
               (wrap32 (_linkeditOffset self + offset));
      Some (set_ram self ram', newLinkedit, wrap32 (offset + size))
    else Some (self, newLinkedit, offset).

(** The loop of [copyIndirectSymbolTable] from [entryIndex] on.  After the
    branch that copies the entry, the assignment from [_newSymbolIndicies]
    is made whatever the entry was. *)
Fixpoint copyIndirect_loop (m : mem) (n : nat) (entries newEntries entryIndex : Z)
    (newSymbolIndicies : gmap Z Z) (newLinkedit : mem)
  : option (gmap Z Z * mem) :=
  match n with
  | O => Some (newSymbolIndicies, newLinkedit)
  | S n' =>
      let entry := entries + 4 * entryIndex in
      e ← load32 m entry;
      newLinkedit ←
        (if decide (e = INDIRECT_SYMBOL_ABS \/ e = INDIRECT_SYMBOL_LOCAL \/ e = 0)
         then store32 newLinkedit (newEntries + 4 * entryIndex) e
         else Some newLinkedit);
      let '(v, newSymbolIndicies) := map_subscript newSymbolIndicies e in
      newLinkedit ← store32 newLinkedit (newEntries + 4 * entryIndex) v;
      copyIndirect_loop m n' entries newEntries (entryIndex + 1)
        newSymbolIndicies newLinkedit
  end.

Definition copyIndirectSymbolTable (self : t) (newLinkedit : mem) (offset : Z)
  : option (t * mem * Z) :=
  if decide (_dySymTab self = nullptr) then Some (self, newLinkedit, offset)
  else
    indirectsymoff ← load32 (ram self) (_dySymTab self + Loader.indirectsymoff);
    let entries := _linkeditFile self + indirectsymoff in
    let newEntries := offset in
    nindirectsyms ← load32 (ram self) (_dySymTab self + Loader.nindirectsyms);
    '(newSymbolIndicies, newLinkedit) ←
      copyIndirect_loop (ram self) (Z.to_nat nindirectsyms) entries newEntries 0
        (_newSymbolIndicies self) newLinkedit;
    let self := set_newSymbolIndicies self newSymbolIndicies in
    let size := alignR (wrap32 (nindirectsyms * 4)) 8 in
    let self := track self (_dySymTab self + Loader.indirectsymoff)
                  (_linkeditStart self + offset) size in
    ram' ← store32 (ram self) (_dySymTab self + Loader.indirectsymoff)
             (wrap32 (_linkeditOffset self + offset));
    Some (set_ram self ram', newLinkedit, wrap32 (offset + size)).

Definition copyStringPool (self : t) (newLinkedit : mem) (offset : Z)
  : option (t * mem * Z) :=
  '(size, newLinkedit) ← writeStrings (_stringsPool self) newLinkedit offset;
  ram' ← store32 (ram self) (_symTab self + Loader.stroff)
           (wrap32 (_linkeditOffset self + offset));
  ram' ← store32 ram' (_symTab self + Loader.strsize) size;
  let self := set_ram self ram' in
  let size := alignR size 8 in
  let self := track self (_symTab self + Loader.stroff)
                (_linkeditStart self + offset) size in
  Some (self, newLinkedit, wrap32 (offset + size)).

Definition updateLoadCommands (self : t) (offset : Z) : option t :=
  linkeditSeg ← getSegment_LINKEDIT (mCtx self);
  ram' ← storeP (ram self) (linkeditSeg + segment_vmsize) offset;
  ram' ← storeP ram' (linkeditSeg + segment_filesize) offset;
  Some (set_ram self ram').

End passes.
End LinkeditOptimizer.

(** [Converter::optimizeLinkedit].  [checkLoadCommands] only logs.  The result
    is [inl] for an exception, and else the optimizer at the end, which
    holds what the extraction context keeps: the memory, the tracker and the
    flag.  The buffer is freed.

    [slack] are the bytes that the heap holds right behind the [vmsize]
    bytes asked for: an allocator rounds a size up, and the chunk that it
    gives may be longer than asked.  [calloc] promises [vmsize] zero bytes,
    and no pass compares the cursor with [vmsize]: a pass that goes on behind
    them reads and writes [slack], and the copy back takes what is there.
    Behind [slack] the model maps nothing (a fault): what a write there does
    to the other objects of the heap is not modelled.  With [slack = []] the
    first byte behind the allocation is a fault. *)
Definition optimizeLinkedit {P : Pointer} (mCtx : MachoContext)
    (dCtx : DyldContext) (m : mem) (slack : list byte)
    (hasRedactedIndirect : bool)
  : option (string + LinkeditOptimizer.t) :=
  tracker ← LinkeditTracker.new mCtx m;
  match tracker with
  | inl e => Some (inl e)
  | inr linkeditTracker =>
      match getSegment_LINKEDIT mCtx with
      | None => Some (inl "Mach-o file doesn't have __LINKEDIT segment.")
      | Some linkeditSeg =>
          let offset := 0 in
          vmsize ← LinkeditOptimizer.loadP m (linkeditSeg + segment_vmsize);
          let newLinkedit := calloc vmsize ∪ region vmsize slack in
          optimizer ← LinkeditOptimizer.new mCtx dCtx m hasRedactedIndirect linkeditTracker;
          '(optimizer, newLinkedit, offset) ← LinkeditOptimizer.copyBindingInfo optimizer newLinkedit offset;
          '(optimizer, newLinkedit, offset) ← LinkeditOptimizer.copyWeakBindingInfo optimizer newLinkedit offset;
          '(optimizer, newLinkedit, offset) ← LinkeditOptimizer.copyLazyBindingInfo optimizer newLinkedit offset;
          '(optimizer, newLinkedit, offset) ← LinkeditOptimizer.startSymbolEntries optimizer newLinkedit offset;
          '(optimizer, newLinkedit, offset) ← LinkeditOptimizer.searchRedactedSymbol optimizer newLinkedit offset;
          '(optimizer, newLinkedit, offset) ← LinkeditOptimizer.copyLocalSymbols optimizer newLinkedit offset;
          '(optimizer, newLinkedit, offset) ← LinkeditOptimizer.copyExportedSymbols optimizer newLinkedit offset;
          '(optimizer, newLinkedit, offset) ← LinkeditOptimizer.copyImportedSymbols optimizer newLinkedit offset;
          '(optimizer, newLinkedit, offset) ← LinkeditOptimizer.endSymbolEntries optimizer newLinkedit offset;
          '(optimizer, newLinkedit, offset) ← LinkeditOptimizer.copyFunctionStarts optimizer newLinkedit offset;
          '(optimizer, newLinkedit, offset) ← LinkeditOptimizer.copyDataInCode optimizer newLinkedit offset;
          '(optimizer, newLinkedit, offset) ← LinkeditOptimizer.copyIndirectSymbolTable optimizer newLinkedit offset;
          '(optimizer, newLinkedit, offset) ← LinkeditOptimizer.copyStringPool optimizer newLinkedit offset;
          vmaddr ← LinkeditOptimizer.loadP (LinkeditOptimizer.ram optimizer) (linkeditSeg + segment_vmaddr);
          let oldLinkedit := convertAddrP mCtx vmaddr in
          ram' ← memcpy (LinkeditOptimizer.ram optimizer) oldLinkedit newLinkedit 0 offset;
          optimizer ← LinkeditOptimizer.updateLoadCommands
                        (LinkeditOptimizer.set_ram optimizer ram') offset;
          Some (inr optimizer)
      end
  end.

(** ** Memory images for the examples *)

Definition bytes (s : string) : list byte := list_ascii_of_string s.

Definition u32 (v : Z) : list byte := le_encode 4 v.

(** [n] bytes that are not zero. *)
Definition garbage (n : nat) : list byte := replicate n "255"%char.

(** A tracker over a LINKEDIT of [capacity] bytes at [0x1000], with nothing
    tracked. *)
Definition empty_tracker (capacity : Z) : LinkeditTracker.t :=
  LinkeditTracker.mk 0x100 0x120 0x100 0x1000 (0x1000 + capacity) [].

(** A memory with the mach header ([ncmds = 1], [sizeofcmds = 0xf8]) and 256
    bytes for the load commands, a LINKEDIT of 32 bytes that are not zero, a
    new load command of 16 bytes at [0x2000], and a payload at [0x3000]. *)
Definition tracker_mem : mem :=
  region 0x100 (u32 0 ++ u32 0 ++ u32 0 ++ u32 0 ++ u32 1 ++ u32 0xf8 ++ u32 0 ++ u32 0)
  ∪ region 0x120 (u32 0x19 ++ u32 0xf8 ++ replicate 248 zero)
  ∪ region 0x1000 (garbage 32)
  ∪ region 0x2000 (u32 0x1b ++ u32 16 ++ u32 0 ++ u32 0)
  ∪ region 0x3000 (bytes "ABCDEFGHIJKLMNOP").

(** What an insertion answered, what is tracked after it, and [n] bytes of
    the memory at [a]. *)
Definition tracker_view (r : option (bool * LinkeditTracker.t * mem))
    (a : Z) (n : nat) : option (bool * list LinkeditData.t * list byte) :=
  '(b, t, m) ← r;
  bs ← load_bytes m a n;
  Some (b, LinkeditTracker.trackingData t, bs).

(** A 64-bit image in a cache file mapped at [FILE], in the way the cache
    builder leaves one: its one local symbol is ["<redacted>"], [_foo] is
    exported and [_bar] imported, and its indirect symbol table holds the
    index of [_bar], a stripped entry (zero) and [INDIRECT_SYMBOL_LOCAL]. *)
Definition FILE : Z := 0x10000.
Definition VMBASE : Z := 0x180000000.

Definition u8 (v : Z) : list byte := le_encode 1 v.
Definition u16 (v : Z) : list byte := le_encode 2 v.
Definition u64 (v : Z) : list byte := le_encode 8 v.
Definition zeros (n : nat) : list byte := replicate n zero.

Definition nlist_64 (n_strx n_type n_sect n_desc n_value : Z) : list byte :=
  u32 n_strx ++ u8 n_type ++ u8 n_sect ++ u16 n_desc ++ u64 n_value.

Definition dysymtab_command (cmd ilocalsym nlocalsym iextdefsym nextdefsym
    iundefsym nundefsym nindirectsyms : Z) : list byte :=
  u32 cmd ++ u32 80 ++ u32 ilocalsym ++ u32 nlocalsym
  ++ u32 iextdefsym ++ u32 nextdefsym ++ u32 iundefsym ++ u32 nundefsym
  ++ u32 0 ++ u32 0 ++ u32 0 ++ u32 0 ++ u32 0 ++ u32 0
  (* indirectsymoff, nindirectsyms *)
  ++ u32 0x460 ++ u32 nindirectsyms ++ u32 0 ++ u32 0 ++ u32 0 ++ u32 0.

Definition image_commands (nsyms : Z) (dysymtab : list byte) : list byte :=
  (* 0x00 mach_header_64 *)
  u32 0xfeedfacf ++ u32 0x0100000c ++ u32 0 ++ u32 6 ++ u32 7 ++ u32 0x110
    ++ u32 0 ++ u32 0
  (* 0x20 dyld_info_command: bind_off 0x478, bind_size 5 *)
  ++ u32 0x80000022 ++ u32 48 ++ u32 0 ++ u32 0 ++ u32 0x478 ++ u32 5
    ++ u32 0 ++ u32 0 ++ u32 0 ++ u32 0 ++ u32 0 ++ u32 0
  (* 0x50 symtab_command: symoff, nsyms, stroff, strsize *)
  ++ u32 0x2 ++ u32 24 ++ u32 0x400 ++ u32 nsyms ++ u32 0x440 ++ u32 22
  (* 0x68 dysymtab_command, 80 bytes *)
  ++ dysymtab
  (* 0xb8 linkedit_data_command, LC_DYLD_EXPORTS_TRIE *)
  ++ u32 0x80000033 ++ u32 16 ++ u32 0x470 ++ u32 8
  (* 0xc8 linkedit_data_command, LC_FUNCTION_STARTS *)
  ++ u32 0x26 ++ u32 16 ++ u32 0x480 ++ u32 4
  (* 0xd8 linkedit_data_command, LC_DATA_IN_CODE, empty *)
  ++ u32 0x29 ++ u32 16 ++ u32 0 ++ u32 0
  (* 0xe8 segment_command_64 __LINKEDIT: vmaddr, vmsize, fileoff, filesize *)
  ++ u32 0x19 ++ u32 72 ++ bytes "__LINKEDIT" ++ zeros 6
    ++ u64 (VMBASE + 0x400) ++ u64 0x100 ++ u64 0x400 ++ u64 0x100
    ++ u32 1 ++ u32 1 ++ u32 0 ++ u32 0
  (* 0x130 room up to __text at 0x200 *)
  ++ zeros 208.

(** The old LINKEDIT, with at most four symbols and four indirect entries. *)
Definition image_linkedit (symbols indirect : list byte) : list byte :=
  (* 0x400 the symbols *)
  symbols ++ zeros (64 - length symbols)
  (* 0x440 the strings *)
  ++ zeros 1 ++ bytes "<redacted>" ++ zeros 1 ++ bytes "_foo" ++ zeros 1
    ++ bytes "_bar" ++ zeros 1 ++ zeros 10
  (* 0x460 the indirect symbol table *)
  ++ indirect ++ zeros (16 - length indirect)
  (* 0x470 the exports trie *)
  ++ u8 0 ++ u8 1 ++ bytes "_foo" ++ u8 0 ++ u8 0
  (* 0x478 the binding opcodes *)
  ++ u8 0x11 ++ u8 0x40 ++ u8 0x5f ++ u8 0x90 ++ u8 0 ++ zeros 3
  (* 0x480 the function starts *)
  ++ u8 0x90 ++ u8 0x4 ++ u8 0x10 ++ u8 0 ++ zeros 124.

Definition redacted_local : list byte := nlist_64 1 0x0e 1 0 (VMBASE + 0x210).
Definition foo_exported : list byte := nlist_64 12 0x0f 1 0 (VMBASE + 0x220).
Definition bar_imported : list byte := nlist_64 17 0x01 0 0x100 0.

Definition image_old_linkedit : list byte :=
  image_linkedit (redacted_local ++ foo_exported ++ bar_imported)
    (u32 2 ++ u32 0 ++ u32 INDIRECT_SYMBOL_LOCAL).

Definition image_mem : mem :=
  region FILE (image_commands 3 (dysymtab_command 0xb 0 1 1 1 2 1 3))
  ∪ region (FILE + 0x400) image_old_linkedit.

(** The second scenario of the spec: [_foo] exported is the old symbol 0,
    [_bar] imported the old symbol 1, there is no local symbol, and the
    indirect symbol table holds the index of [_bar] and a zero. *)
Definition scenario2_mem : mem :=
  region FILE (image_commands 2 (dysymtab_command 0xb 0 0 0 1 1 1 2))
  ∪ region (FILE + 0x400)
      (image_linkedit (foo_exported ++ bar_imported) (u32 1 ++ u32 0)).

Definition image_mCtx : MachoContext :=
  {| getLoadCommand_dyld_info := FILE + 0x20;
     getLoadCommand_symtab := FILE + 0x50;
     getLoadCommand_dysymtab := FILE + 0x68;
     getLoadCommand_DYLD_EXPORTS_TRIE := FILE + 0xb8;
     getLoadCommand_FUNCTION_STARTS := FILE + 0xc8;
     getLoadCommand_DATA_IN_CODE := FILE + 0xd8;
     header := FILE;
     getSection_TEXT_text_addr := Some (VMBASE + 0x200);
     getSegment_LINKEDIT := Some (FILE + 0xe8);
     getSegment_TEXT_vmaddr := VMBASE;
     convertAddr := λ addr, (addr - VMBASE, FILE);
     convertAddrP := λ addr, FILE + (addr - VMBASE) |}.

(** A cache that has no symbols file. *)
Definition image_dCtx : DyldContext :=
  {| sharedRegionStart := VMBASE;
     headerContainsMember_symbolFileUUID := true;
     getSymbolsCache := None |}.

(** The optimizer of [optimizeLinkedit] for a context, before its first
    pass. *)
Definition optimizer_of {P : Pointer} (mCtx : MachoContext) (dCtx : DyldContext)
    (m : mem) : option LinkeditOptimizer.t :=
  tracker ← LinkeditTracker.new mCtx m;
  match tracker with
  | inl _ => None
  | inr linkeditTracker => LinkeditOptimizer.new mCtx dCtx m false linkeditTracker
  end.

(** The same image without its [LC_DYSYMTAB] (the 80 bytes at [0x68] are a
    command that no lookup finds), and without its [LC_SYMTAB]. *)
Definition image_mem_no_dysymtab : mem :=
  region FILE (image_commands 3 (dysymtab_command 0x7f 0 1 1 1 2 1 3))
  ∪ region (FILE + 0x400) image_old_linkedit.

Definition image_mCtx_no_dysymtab : MachoContext :=
  {| getLoadCommand_dyld_info := FILE + 0x20;
     getLoadCommand_symtab := FILE + 0x50;
     getLoadCommand_dysymtab := nullptr;
     getLoadCommand_DYLD_EXPORTS_TRIE := FILE + 0xb8;
     getLoadCommand_FUNCTION_STARTS := FILE + 0xc8;
     getLoadCommand_DATA_IN_CODE := FILE + 0xd8;
     header := FILE;
     getSection_TEXT_text_addr := Some (VMBASE + 0x200);
     getSegment_LINKEDIT := Some (FILE + 0xe8);
     getSegment_TEXT_vmaddr := VMBASE;
     convertAddr := λ addr, (addr - VMBASE, FILE);
     convertAddrP := λ addr, FILE + (addr - VMBASE) |}.

Definition image_mCtx_no_symtab : MachoContext :=
  {| getLoadCommand_dyld_info := FILE + 0x20;
     getLoadCommand_symtab := nullptr;
     getLoadCommand_dysymtab := nullptr;
     getLoadCommand_DYLD_EXPORTS_TRIE := FILE + 0xb8;
     getLoadCommand_FUNCTION_STARTS := FILE + 0xc8;
     getLoadCommand_DATA_IN_CODE := FILE + 0xd8;
     header := FILE;
     getSection_TEXT_text_addr := Some (VMBASE + 0x200);
     getSegment_LINKEDIT := Some (FILE + 0xe8);
     getSegment_TEXT_vmaddr := VMBASE;
     convertAddr := λ addr, (addr - VMBASE, FILE);
     convertAddrP := λ addr, FILE + (addr - VMBASE) |}.

(** [n] consecutive [uint32_t] at [a]. *)
Definition load32s (m : mem) (a : Z) (n : nat) : option (list Z) :=
  mapM (λ i, load32 m (a + 4 * i)) (seqZ 0 (Z.of_nat n)).

(** The indirect symbol table of an image in the memory [m] once
    [optimizeLinkedit] has run: the [n] entries at the new [indirectsymoff]. *)
Definition new_indirect_table (m : mem) (n : nat) : option (list Z) :=
  r ← optimizeLinkedit (P := Pointer64) image_mCtx image_dCtx m [] false;
  match r with
  | inl _ => None
  | inr optimizer =>
      let m := LinkeditOptimizer.ram optimizer in
      indirectsymoff ← load32 m (FILE + 0x68 + Loader.indirectsymoff);
      load32s m (FILE + indirectsymoff) n
  end.

(** The fields [ilocalsym] and [nlocalsym] of the image, the symbol count
    and the cursor after [copyLocalSymbols], the passes of [optimizeLinkedit]
    before it having run; and the same before [copyLocalSymbols]. *)
Definition image_before_locals : option (LinkeditOptimizer.t * mem * Z) :=
  optimizer ← optimizer_of (P := Pointer64) image_mCtx image_dCtx image_mem;
  '(optimizer, newLinkedit, offset) ← LinkeditOptimizer.copyBindingInfo optimizer (calloc 0x100) 0;
  '(optimizer, newLinkedit, offset) ← LinkeditOptimizer.copyWeakBindingInfo optimizer newLinkedit offset;
  '(optimizer, newLinkedit, offset) ← LinkeditOptimizer.copyLazyBindingInfo optimizer newLinkedit offset;
  '(optimizer, newLinkedit, offset) ← LinkeditOptimizer.startSymbolEntries optimizer newLinkedit offset;
  LinkeditOptimizer.searchRedactedSymbol (P := Pointer64) optimizer newLinkedit offset.

Definition locals_view (r : option (LinkeditOptimizer.t * mem * Z))
  : option (Z * Z * Z * Z) :=
  '(optimizer, _, offset) ← r;
  ilocalsym ← load32 (LinkeditOptimizer.ram optimizer) (FILE + 0x68 + Loader.ilocalsym);
  nlocalsym ← load32 (LinkeditOptimizer.ram optimizer) (FILE + 0x68 + Loader.nlocalsym);
  Some (ilocalsym, nlocalsym, LinkeditOptimizer._symbolsCount optimizer, offset).

Definition image_after_locals : option (LinkeditOptimizer.t * mem * Z) :=
  '(optimizer, newLinkedit, offset) ← image_before_locals;
  LinkeditOptimizer.copyLocalSymbols (P := Pointer64) optimizer newLinkedit offset.

(** The optimizer of the image as its constructor leaves it, with the start
    of the symbol entries at 8 (after the binding opcodes), and the buffer of
    [optimizeLinkedit]. *)
Definition image_tracker : LinkeditTracker.t :=
  LinkeditTracker.mk FILE (FILE + 0x20) 0x1e0 (FILE + 0x400) (FILE + 0x500) [].

Definition image_optimizer : LinkeditOptimizer.t :=
  LinkeditOptimizer.mk image_mCtx image_dCtx image_mem false image_tracker
    StringPool_new 0 FILE 0x400 (FILE + 0x400)
    (FILE + 0x20) (FILE + 0x50) (FILE + 0x68) (FILE + 0xb8) 8 0 ∅.

Definition image_newLinkedit : mem := calloc 0x100.

(** The optimizer of the image when its symbols have been copied: the
    placeholder, [_foo] and [_bar] are the new symbols 0, 1 and 2, and the
    remapping table holds the old indices 1 and 2. *)
Definition image_optimizer_symbols_copied : LinkeditOptimizer.t :=
  LinkeditOptimizer.mk image_mCtx image_dCtx image_mem true image_tracker
    (addString (addString (addString StringPool_new "<redacted>").2 "_foo").2 "_bar").2
    3 FILE 0x400 (FILE + 0x400)
    (FILE + 0x20) (FILE + 0x50) (FILE + 0x68) (FILE + 0xb8) 8 1
    {[ 1 := 1; 2 := 2 ]}.

(** The optimizer of the image after the probe: the placeholder is symbol
    0, the cursor is at 24.  In [image_optimizer_probed_foo] the dysymtab
    command gives the one symbol at index 1, [_foo], as the local symbols. *)
Definition image_optimizer_probed : LinkeditOptimizer.t :=
  LinkeditOptimizer.mk image_mCtx image_dCtx image_mem true image_tracker
    (addString StringPool_new "<redacted>").2
    1 FILE 0x400 (FILE + 0x400)
    (FILE + 0x20) (FILE + 0x50) (FILE + 0x68) (FILE + 0xb8) 8 1 ∅.

Definition image_mem_local_foo : mem :=
  region FILE (image_commands 3 (dysymtab_command 0xb 1 1 1 1 2 1 3))
  ∪ region (FILE + 0x400) image_old_linkedit.

Definition image_optimizer_probed_foo : LinkeditOptimizer.t :=
  LinkeditOptimizer.mk image_mCtx image_dCtx image_mem_local_foo true image_tracker
    (addString StringPool_new "<redacted>").2
    1 FILE 0x400 (FILE + 0x400)
    (FILE + 0x20) (FILE + 0x50) (FILE + 0x68) (FILE + 0xb8) 8 1 ∅.

(** How many locals the two halves of [copyLocalSymbols] copy. *)
Definition locals_copied {P : Pointer} (self : LinkeditOptimizer.t)
    (newLinkedit : mem) (offset : Z) : option (Z * Z) :=
  '(public, self, newLinkedit, offset) ←
    LinkeditOptimizer._copyPublicLocalSymbols self newLinkedit offset;
  '(redacted, _, _, _) ←
    LinkeditOptimizer._copyRedactedLocalSymbols self newLinkedit offset;
  Some (public, redacted).

(** The pool of the constructor with [_foo] and [_bar] added, and a
    destination of 16 bytes that are not zero. *)
Definition foo_bar_pool : StringPool :=
  (addString (addString StringPool_new "_foo").2 "_bar").2.

Definition dirty_buffer : mem := region 0 (garbage 16).

(** The symbol loops write to the buffer and to the pool only: the memory
    of the process and the dysymtab pointer are as before. *)
Definition same_commands (s s' : LinkeditOptimizer.t) : Prop :=
  LinkeditOptimizer.ram s' = LinkeditOptimizer.ram s
  /\ LinkeditOptimizer._dySymTab s' = LinkeditOptimizer._dySymTab s.

(** The nlist at the start of the symbol entries of the image once
    [optimizeLinkedit] has run. *)
Definition image_new_first_symbol : option (list byte) :=
  r ← optimizeLinkedit (P := Pointer64) image_mCtx image_dCtx image_mem [] false;
  match r with
  | inl _ => None
  | inr optimizer =>
      let m := LinkeditOptimizer.ram optimizer in
      symoff ← load32 m (FILE + 0x50 + Loader.symoff);
      load_bytes m (FILE + symoff) 16
  end.

(** The exports trie of the image once [optimizeLinkedit] has run: the field
    [dataoff] of its command, the 8 bytes of the file at that offset, the
    offset fields of the regions that the tracker holds, and the [filesize]
    of the LINKEDIT. *)
Definition image_new_export_info : option (Z * list byte * list Z * Z) :=
  r ← optimizeLinkedit (P := Pointer64) image_mCtx image_dCtx image_mem [] false;
  match r with
  | inl _ => None
  | inr optimizer =>
      let m := LinkeditOptimizer.ram optimizer in
      dataoff ← load32 m (FILE + 0xb8 + Loader.dataoff);
      trie ← load_bytes m (FILE + dataoff) 8;
      filesize ← load64 m (FILE + 0xe8 + 48);
      Some (dataoff, trie,
            LinkeditData.offset
              <$> LinkeditTracker.trackingData
                    (LinkeditOptimizer._linkeditTracker optimizer),
            filesize)
  end.

(** A memory for the insertions whose sizes do not fit in 32 bits: the
    header has [ncmds = 2] and [sizeofcmds = 0x28], the load commands are
    one of 16 bytes at [0x120] and one of 24 bytes at [0x130], the LINKEDIT
    has 32 bytes at [0x1000], and the new load command at [0x2000] gives
    itself a [cmdsize] of [0xfffffff0]. *)
Definition wrap_mem : mem :=
  region 0x100 (u32 0 ++ u32 0 ++ u32 0 ++ u32 0 ++ u32 2 ++ u32 0x28 ++ u32 0 ++ u32 0)
  ∪ region 0x120 (u32 0x1b ++ u32 16 ++ u32 0 ++ u32 0
                  ++ u32 0x26 ++ u32 24 ++ u32 0 ++ u32 0 ++ u32 0 ++ u32 0
                  ++ replicate 216 zero)
  ∪ region 0x1000 (garbage 32)
  ∪ region 0x2000 (u32 0x1b ++ u32 0xfffffff0 ++ u32 0 ++ u32 0)
  ∪ region 0x3000 (bytes "ABCDEFGHIJKLMNOP").

(** A buffer of 256 bytes that are not zero. *)
Definition image_dirty_newLinkedit : mem := region 0 (garbage 0x100).

(** ** Notions used to state the behaviour of the tracker *)

(** The order of the registry. *)
Definition data_le (a b : LinkeditData.t) : Prop :=
  LinkeditData.data a <= LinkeditData.data b.

(** Where [insertLinkeditData] puts the new region. *)
Definition shiftStart_of (self : LinkeditTracker.t) (after : option LinkeditData.t) : Z :=
  match after with
  | Some after => LinkeditData.data after + LinkeditData.dataSize after
  | None => LinkeditTracker._linkeditStart self
  end.

(** A tracked region after an insertion of [shiftDelta] bytes at
    [shiftStart]. *)
Definition shifted (shiftStart shiftDelta : Z) (t : LinkeditData.t) : LinkeditData.t :=
  if decide (LinkeditData.data t >= shiftStart)
  then LinkeditData (LinkeditData.offset t) (LinkeditData.data t + shiftDelta)
         (LinkeditData.dataSize t)
  else t.

(** Two regions whose offset fields do not share a byte. *)
Definition fields_apart (a b : LinkeditData.t) : Prop :=
  LinkeditData.offset a + 4 <= LinkeditData.offset b
  \/ LinkeditData.offset b + 4 <= LinkeditData.offset a.

(** A tracker over a LINKEDIT of 32 bytes at [0x1000] that tracks its first
    16 bytes, with the offset field at [0x130]. *)
Definition tracker_one : LinkeditTracker.t :=
  LinkeditTracker.mk 0x100 0x120 0x100 0x1000 (0x1000 + 32)
    [LinkeditData 0x130 0x1000 16].

(** Whether an insertion was made. *)
Definition inserted (r : option (bool * LinkeditTracker.t * mem)) : option unit :=
  '(b, _, _) ← r; if b : bool then Some () else None.

(** A header with two load commands, of 16 and of 24 bytes; the second holds
    the offset field of the region that [tracker_field] tracks; a new load
    command of 16 bytes at [0x2000]. *)
Definition commands_mem : mem :=
  region 0x100 (u32 0 ++ u32 0 ++ u32 0 ++ u32 0 ++ u32 2 ++ u32 0x28 ++ u32 0 ++ u32 0)
  ∪ region 0x120 (u32 0x19 ++ u32 0x10 ++ u32 0 ++ u32 0)
  ∪ region 0x130 (u32 0x1d ++ u32 0x18 ++ u32 0x77 ++ u32 16 ++ u32 0 ++ u32 0)
  ∪ region 0x148 (zeros 216)
  ∪ region 0x2000 (u32 0x1b ++ u32 16 ++ u32 0x55 ++ u32 0x66).

Definition tracker_field : LinkeditTracker.t :=
  LinkeditTracker.mk 0x100 0x120 0x100 0x1000 (0x1000 + 32)
    [LinkeditData 0x138 0x1000 16].

(** A string without a NUL among its characters, as every string that was
    read with [c_str] is. *)
Definition nul_free (s : string) : Prop := zero ∉ list_ascii_of_string s.

(** ** Notions used to state the behaviour of the copy passes *)

(** What a pass has done when it has copied the [size] bytes at [src] to the
    cursor: the bytes are in the buffer at [offset], nothing else of the
    buffer has changed, the cursor is behind the bytes and their padding,
    the offset field [field] holds the file offset of the copy, no other
    byte of the memory has changed, and the object differs by the memory
    and the region tracked. *)
Definition region_copied (self : LinkeditOptimizer.t) (newLinkedit : mem)
    (offset field src size : Z)
    (self' : LinkeditOptimizer.t) (newLinkedit' : mem) (offset' : Z) : Prop :=
  (forall i, 0 <= i < size ->
     newLinkedit' !! (offset + i) = LinkeditOptimizer.ram self !! (src + i))
  /\ (forall x, x < offset \/ offset + size <= x ->
        newLinkedit' !! x = newLinkedit !! x)
  /\ offset' = wrap32 (offset + alignR size 8)
  /\ load32 (LinkeditOptimizer.ram self') field
     = Some (wrap32 (LinkeditOptimizer._linkeditOffset self + offset))
  /\ (forall x, x < field \/ field + 4 <= x ->
        LinkeditOptimizer.ram self' !! x = LinkeditOptimizer.ram self !! x)
  /\ self' = LinkeditOptimizer.set_ram
               (LinkeditOptimizer.track self field
                  (LinkeditOptimizer._linkeditStart self + offset) (alignR size 8))
               (LinkeditOptimizer.ram self').

(** The three passes over the [dyld_info_command], and the two over a
    [linkedit_data_command], with the fields they read. *)
Inductive dyld_info_region := Binding | WeakBinding | LazyBinding.

Definition dyld_info_pass (k : dyld_info_region)
  : LinkeditOptimizer.t -> mem -> Z -> option (LinkeditOptimizer.t * mem * Z) :=
  match k with
  | Binding => LinkeditOptimizer.copyBindingInfo
  | WeakBinding => LinkeditOptimizer.copyWeakBindingInfo
  | LazyBinding => LinkeditOptimizer.copyLazyBindingInfo
  end.

Definition dyld_info_off (k : dyld_info_region) : Z :=
  match k with
  | Binding => Loader.bind_off
  | WeakBinding => Loader.weak_bind_off
  | LazyBinding => Loader.lazy_bind_off
  end.

Definition dyld_info_size (k : dyld_info_region) : Z :=
  match k with
  | Binding => Loader.bind_size
  | WeakBinding => Loader.weak_bind_size
  | LazyBinding => Loader.lazy_bind_size
  end.

Inductive linkedit_data_region := FunctionStarts | DataInCode.

Definition linkedit_data_pass (k : linkedit_data_region)
  : LinkeditOptimizer.t -> mem -> Z -> option (LinkeditOptimizer.t * mem * Z) :=
  match k with
  | FunctionStarts => LinkeditOptimizer.copyFunctionStarts
  | DataInCode => LinkeditOptimizer.copyDataInCode
  end.

Definition linkedit_data_command (k : linkedit_data_region) (mCtx : MachoContext) : Z :=
  match k with
  | FunctionStarts => getLoadCommand_FUNCTION_STARTS mCtx
  | DataInCode => getLoadCommand_DATA_IN_CODE mCtx
  end.

(** The new symbol entry at [newEntry] of the buffer is the entry at [entry]
    of the memory, with the offset that its name has in the pool for
    [n_strx]; the name is read in the string table at [strings]. *)
Definition entry_copied {P : Pointer} (ram : mem) (strings entry : Z)
    (pool : StringPool) (newLinkedit : mem) (newEntry : Z) : Prop :=
  exists n_strx name o,
    load32 ram (entry + Loader.n_strx) = Some n_strx
    /\ c_str ram (strings + n_strx) = Some name
    /\ _pool pool !! name = Some o
    /\ load32 newLinkedit (newEntry + Loader.n_strx) = Some o
    /\ forall i, 4 <= i < sizeof_nlist ->
         newLinkedit !! (newEntry + i) = ram !! (entry + i).

(** The passes over the exported and the imported symbols, with the fields
    of the [dysymtab_command] they read and write. *)
Inductive symbol_group := Exported | Imported.

Definition symbols_pass {P : Pointer} (g : symbol_group)
  : LinkeditOptimizer.t -> mem -> Z -> option (LinkeditOptimizer.t * mem * Z) :=
  match g with
  | Exported => LinkeditOptimizer.copyExportedSymbols
  | Imported => LinkeditOptimizer.copyImportedSymbols
  end.

Definition symbols_index (g : symbol_group) : Z :=
  match g with Exported => Loader.iextdefsym | Imported => Loader.iundefsym end.

Definition symbols_count (g : symbol_group) : Z :=
  match g with Exported => Loader.nextdefsym | Imported => Loader.nundefsym end.

(** How many symbols these passes copy of a group that starts at the index
    [i] and has [n] symbols.  Their loop goes from [symsStart] up to
    [symsEnd], the [uint32_t] sum of [i] and [n]: when the sum does not fit
    in 32 bits, [symsEnd] is below [symsStart] and the loop does not run
    (lemma [symbols_loop_length]). *)
Definition symbols_copied (i n : Z) : Z :=
  if decide (i + n < 2 ^ 32) then n else 0.

(** The image with a group of imported symbols that starts at the index
    [0xffffffff] and counts two symbols, and its optimizer after the probe,
    the cursor at 24. *)
Definition image_mem_wrapped : mem :=
  region FILE (image_commands 3 (dysymtab_command 0xb 0 1 1 1 0xffffffff 2 3))
  ∪ region (FILE + 0x400) image_old_linkedit.

Definition image_optimizer_wrapped : LinkeditOptimizer.t :=
  LinkeditOptimizer.mk image_mCtx image_dCtx image_mem_wrapped true image_tracker
    (addString StringPool_new "<redacted>").2
    1 FILE 0x400 (FILE + 0x400)
    (FILE + 0x20) (FILE + 0x50) (FILE + 0x68) (FILE + 0xb8) 8 1 ∅.

(** The names of the [n] symbol entries from [entry] on, read in the string
    table at [strings]. *)
Fixpoint symbol_names {P : Pointer} (ram : mem) (strings entry : Z) (n : nat)
  : option (list string) :=
  match n with
  | O => Some []
  | S n' =>
      n_strx ← load32 ram (entry + Loader.n_strx);
      name ← c_str ram (strings + n_strx);
      names ← symbol_names ram strings (entry + sizeof_nlist) n';
      Some (name :: names)
  end.

(** The pool after the strings of a list were added in its order. *)
Definition add_strings (sp : StringPool) (names : list string) : StringPool :=
  foldl (λ sp s, (addString sp s).2) sp names.

(** ** The entries of the symbols file

    The entry type that [_findLocalSymbolEntries] searches depends on the
    cache: what the image is looked up by, how [dylibOffset] is read, the
    size of an entry and the offsets of its fields. *)
Definition macho_offset (self : LinkeditOptimizer.t) : Z :=
  if headerContainsMember_symbolFileUUID (LinkeditOptimizer.dCtx self)
  then wrap64 (getSegment_TEXT_vmaddr (LinkeditOptimizer.mCtx self)
               - sharedRegionStart (LinkeditOptimizer.dCtx self))
  else wrap32 (convertAddr (LinkeditOptimizer.mCtx self)
                 (getSegment_TEXT_vmaddr (LinkeditOptimizer.mCtx self))).1.

Definition entry_dylibOffset (self : LinkeditOptimizer.t) (entry : Z) : option Z :=
  if headerContainsMember_symbolFileUUID (LinkeditOptimizer.dCtx self)
  then load64 (LinkeditOptimizer.ram self) entry
  else load32 (LinkeditOptimizer.ram self) entry.

Definition entry_stride (self : LinkeditOptimizer.t) : Z :=
  if headerContainsMember_symbolFileUUID (LinkeditOptimizer.dCtx self)
  then Loader.sizeof_entry64 else Loader.sizeof_entry.

Definition entry_nlistStartIndex (self : LinkeditOptimizer.t) : Z :=
  if headerContainsMember_symbolFileUUID (LinkeditOptimizer.dCtx self)
  then Loader.entry64_nlistStartIndex else Loader.entry_nlistStartIndex.

Definition entry_nlistCount (self : LinkeditOptimizer.t) : Z :=
  if headerContainsMember_symbolFileUUID (LinkeditOptimizer.dCtx self)
  then Loader.entry64_nlistCount else Loader.entry_nlistCount.

(** A symbols file at [SYMS] whose local symbols info, at [0x100], has two
    entries: one of another image with the symbol [_other], and one of the
    image at [VMBASE] with the symbol [_priv]. *)
Definition SYMS : Z := 0x20000.

Definition symbols_file : list byte :=
  (* 0x00 dyld_cache_local_symbols_info: nlistOffset, nlistCount,
     stringsOffset, stringsSize, entriesOffset, entriesCount *)
  u32 0x40 ++ u32 2 ++ u32 0x60 ++ u32 0x10 ++ u32 0x18 ++ u32 2
  (* 0x18 two dyld_cache_local_symbols_entry_64 *)
  ++ u64 0x5000 ++ u32 0 ++ u32 1
  ++ u64 0 ++ u32 1 ++ u32 1
  ++ zeros 8
  (* 0x40 the nlists *)
  ++ nlist_64 1 0x0e 1 0 (VMBASE + 0x5210)
  ++ nlist_64 8 0x0e 1 0 (VMBASE + 0x230)
  (* 0x60 the strings *)
  ++ zeros 1 ++ bytes "_other" ++ zeros 1 ++ bytes "_priv" ++ zeros 3.

Definition symbols_mem : mem := image_mem ∪ region (SYMS + 0x100) symbols_file.

Definition symbols_dCtx : DyldContext :=
  {| sharedRegionStart := VMBASE;
     headerContainsMember_symbolFileUUID := true;
     getSymbolsCache := Some {| file := SYMS; localSymbolsOffset := 0x100 |} |}.

(** The optimizer of the image in such a cache, after the probe. *)
Definition symbols_optimizer : LinkeditOptimizer.t :=
  LinkeditOptimizer.mk image_mCtx symbols_dCtx symbols_mem true image_tracker
    (addString StringPool_new "<redacted>").2
    1 FILE 0x400 (FILE + 0x400)
    (FILE + 0x20) (FILE + 0x50) (FILE + 0x68) (FILE + 0xb8) 8 1 ∅.

(** The [n] entries of an indirect symbol table from the index [i] on. *)
Fixpoint indirect_entries (m : mem) (indirectSymStart : Z) (i : Z) (n : nat)
  : option (list Z) :=
  match n with
  | O => Some []
  | S n' =>
      symbolIndex ← load32 m (indirectSymStart + i * 4);
      rest ← indirect_entries m indirectSymStart (i + 1) n';
      Some (symbolIndex :: rest)
  end.

(** ** The passes as one family *)

(** The state that the passes rely on: the pool is one built from the
    constructor's, and the two counters are [uint32_t] values. *)
Definition well_formed (self : LinkeditOptimizer.t) : Prop :=
  reachable (LinkeditOptimizer._stringsPool self)
  /\ 0 <= LinkeditOptimizer._symbolsCount self < 2 ^ 32
  /\ 0 <= LinkeditOptimizer._redactedSymbolsCount self < 2 ^ 32.

Inductive pass :=
| CopyBindingInfo | CopyWeakBindingInfo | CopyLazyBindingInfo | CopyExportInfo
| StartSymbolEntries | SearchRedactedSymbol | CopyLocalSymbols
| CopyExportedSymbols | CopyImportedSymbols | EndSymbolEntries
| CopyFunctionStarts | CopyDataInCode | CopyIndirectSymbolTable | CopyStringPool.

Definition run_pass {P : Pointer} (p : pass)
  : LinkeditOptimizer.t -> mem -> Z -> option (LinkeditOptimizer.t * mem * Z) :=
  match p with
  | CopyBindingInfo => LinkeditOptimizer.copyBindingInfo
  | CopyWeakBindingInfo => LinkeditOptimizer.copyWeakBindingInfo
  | CopyLazyBindingInfo => LinkeditOptimizer.copyLazyBindingInfo
  | CopyExportInfo => LinkeditOptimizer.copyExportInfo
  | StartSymbolEntries => LinkeditOptimizer.startSymbolEntries
  | SearchRedactedSymbol => LinkeditOptimizer.searchRedactedSymbol
  | CopyLocalSymbols => LinkeditOptimizer.copyLocalSymbols
  | CopyExportedSymbols => LinkeditOptimizer.copyExportedSymbols
  | CopyImportedSymbols => LinkeditOptimizer.copyImportedSymbols
  | EndSymbolEntries => LinkeditOptimizer.endSymbolEntries
  | CopyFunctionStarts => LinkeditOptimizer.copyFunctionStarts
  | CopyDataInCode => LinkeditOptimizer.copyDataInCode
  | CopyIndirectSymbolTable => LinkeditOptimizer.copyIndirectSymbolTable
  | CopyStringPool => LinkeditOptimizer.copyStringPool
  end.

(** The passes that [optimizeLinkedit] runs, in its order: all of them but
    [copyExportInfo]. *)
Definition pipeline : list pass :=
  [CopyBindingInfo; CopyWeakBindingInfo; CopyLazyBindingInfo;
   StartSymbolEntries; SearchRedactedSymbol; CopyLocalSymbols;
   CopyExportedSymbols; CopyImportedSymbols; EndSymbolEntries;
   CopyFunctionStarts; CopyDataInCode; CopyIndirectSymbolTable;
   CopyStringPool].

(** Passes run one after the other on the same optimizer, buffer and
    cursor. *)
Fixpoint run_passes {P : Pointer} (ps : list pass) (self : LinkeditOptimizer.t)
    (newLinkedit : mem) (offset : Z)
  : option (LinkeditOptimizer.t * mem * Z) :=
  match ps with
  | [] => Some (self, newLinkedit, offset)
  | p :: ps =>
      '(self, newLinkedit, offset) ← run_pass p self newLinkedit offset;
      run_passes ps self newLinkedit offset
  end.

(** The cursor that the passes of [optimizeLinkedit] leave: the passes of
    [pipeline] run from the cursor [0], on the optimizer that the
    constructor makes and on the buffer, the [vmsize] zero bytes of the
    allocation with [slack] behind them. *)
Definition final_cursor {P : Pointer} (mCtx : MachoContext) (dCtx : DyldContext)
    (m : mem) (slack : list byte) (hasRedactedIndirect : bool) : option Z :=
  tracker ← LinkeditTracker.new mCtx m;
  match tracker with
  | inl _ => None
  | inr linkeditTracker =>
      linkeditSeg ← getSegment_LINKEDIT mCtx;
      vmsize ← LinkeditOptimizer.loadP m (linkeditSeg + segment_vmsize);
      optimizer ← LinkeditOptimizer.new mCtx dCtx m hasRedactedIndirect
                    linkeditTracker;
      '(_, _, offset) ←
        run_passes pipeline optimizer (calloc vmsize ∪ region vmsize slack) 0;
      Some offset
  end.

(** The image with a LINKEDIT segment that gives itself [0x70] bytes, eight
    fewer than the passes write. *)
Definition image_mem_0x70 : mem :=
  region (FILE + 0xe8 + 32) (u64 0x70) ∪ image_mem.

(** What a step keeps: a well-formed state stays so, the pool only grows,
    and the Mach-O context is the same. *)
Definition keeps (self self' : LinkeditOptimizer.t) : Prop :=
  (well_formed self -> well_formed self')
  /\ extends (LinkeditOptimizer._stringsPool self)
       (LinkeditOptimizer._stringsPool self')
  /\ LinkeditOptimizer.mCtx self' = LinkeditOptimizer.mCtx self.

(** ** The regions of the tracker *)

(** [a] ends where [b] starts, or before. *)
Definition region_before (a b : LinkeditData.t) : Prop :=
  LinkeditData.data a + LinkeditData.dataSize a <= LinkeditData.data b.

(** The regions of a tracker lie one after the other, none overlaps another,
    and each lies within the LINKEDIT. *)
Definition regions_ok (self : LinkeditTracker.t) : Prop :=
  StronglySorted region_before (LinkeditTracker.trackingData self)
  /\ Forall (λ t, LinkeditTracker._linkeditStart self <= LinkeditData.data t
                 /\ 0 <= LinkeditData.dataSize t
                 /\ LinkeditData.data t + LinkeditData.dataSize t
                    <= LinkeditTracker._linkeditEnd self)
       (LinkeditTracker.trackingData self).

(** What a step keeps of the registry: its order, and every region that it
    tracks; at most one region is added; the bounds of the LINKEDIT that the
    tracker holds are the same. *)
Definition registry_kept (self self' : LinkeditOptimizer.t) : Prop :=
  let tracker := LinkeditOptimizer._linkeditTracker self in
  let tracker' := LinkeditOptimizer._linkeditTracker self' in
  (Sorted data_le (LinkeditTracker.trackingData tracker) ->
   Sorted data_le (LinkeditTracker.trackingData tracker'))
  /\ (forall t, t ∈ LinkeditTracker.trackingData tracker ->
        t ∈ LinkeditTracker.trackingData tracker')
  /\ (length (LinkeditTracker.trackingData tracker')
      <= S (length (LinkeditTracker.trackingData tracker)))%nat
  /\ LinkeditTracker._linkeditStart tracker' = LinkeditTracker._linkeditStart tracker
  /\ LinkeditTracker._linkeditEnd tracker' = LinkeditTracker._linkeditEnd tracker.
(** * Properties *)

(** ** Machine integers and bytes *)

Lemma wrap32_range z : 0 <= wrap32 z < 2 ^ 32.
Proof. unfold wrap32. apply Z.mod_pos_bound. lia. Qed.

Lemma wrap32_small z : 0 <= z < 2 ^ 32 -> wrap32 z = z.
Proof. unfold wrap32. intros. by apply Z.mod_small. Qed.

Lemma wrap32_idemp z : wrap32 (wrap32 z) = wrap32 z.
Proof. apply wrap32_small, wrap32_range. Qed.

Lemma wrap32_add_l a b : wrap32 (wrap32 a + b) = wrap32 (a + b).
Proof. unfold wrap32. by rewrite Zplus_mod_idemp_l. Qed.

Lemma wrap32_add_r a b : wrap32 (a + wrap32 b) = wrap32 (a + b).
Proof. unfold wrap32. by rewrite Zplus_mod_idemp_r. Qed.

Lemma Z_of_byte_range b : 0 <= Z_of_byte b < 256.
Proof.
  unfold Z_of_byte. pose proof (N_ascii_bounded b). lia.
Qed.

Lemma Z_of_byte_of_Z z : Z_of_byte (byte_of_Z z) = z mod 256.
Proof.
  unfold Z_of_byte, byte_of_Z.
  pose proof (Z.mod_pos_bound z 256 ltac:(lia)).
  rewrite N_ascii_embedding by lia. lia.
Qed.

Lemma byte_of_Z_of_byte b : byte_of_Z (Z_of_byte b) = b.
Proof.
  unfold byte_of_Z. pose proof (Z_of_byte_range b).
  rewrite Z.mod_small by done. unfold Z_of_byte.
  rewrite N2Z.id. apply ascii_N_embedding.
Qed.

(** *** Memory lemmas *)

Lemma load_bytes_length m a n bs : load_bytes m a n = Some bs -> length bs = n.
Proof.
  revert a bs. induction n as [|n IH]; intros a bs H; simpl in H.
  - by inversion H.
  - destruct (m !! a) as [b|]; simpl in H; [|done].
    destruct (load_bytes m (a + 1) n) as [bs'|] eqn:E; simpl in H; [|done].
    inversion H; subst. simpl. f_equal. eauto.
Qed.

Lemma load_bytes_lookup m a n bs (i : nat) :
  load_bytes m a n = Some bs -> (i < n)%nat -> m !! (a + Z.of_nat i) = bs !! i.
Proof.
  revert a bs i. induction n as [|n IH]; intros a bs i H Hi; [lia|].
  simpl in H. destruct (m !! a) as [b|] eqn:Ea; simpl in H; [|done].
  destruct (load_bytes m (a + 1) n) as [bs'|] eqn:E; simpl in H; [|done].
  inversion H; subst. destruct i as [|i].
  - by rewrite Z.add_0_r.
  - simpl. rewrite <- (IH (a + 1) bs' i E) by lia. f_equal. lia.
Qed.

Lemma load_bytes_ext m1 m2 a n :
  (forall x, a <= x < a + Z.of_nat n -> m1 !! x = m2 !! x) ->
  load_bytes m1 a n = load_bytes m2 a n.
Proof.
  revert a. induction n as [|n IH]; intros a H; [done|].
  simpl. rewrite (H a) by lia. rewrite (IH (a + 1)); [done|].
  intros x Hx. apply H. lia.
Qed.

Lemma store_bytes_other m a bs m' x :
  store_bytes m a bs = Some m' ->
  x < a \/ a + Z.of_nat (length bs) <= x ->
  m' !! x = m !! x.
Proof.
  revert m a. induction bs as [|b bs IH]; intros m a H Hx; simpl in H.
  - by inversion H.
  - destruct (m !! a) eqn:Ea; [|done].
    rewrite (IH _ _ H) by (simpl in Hx; lia).
    apply lookup_insert_ne. simpl in Hx. lia.
Qed.

Lemma store_bytes_lookup m a bs m' (i : nat) :
  store_bytes m a bs = Some m' -> (i < length bs)%nat ->
  m' !! (a + Z.of_nat i) = bs !! i.
Proof.
  revert m a i. induction bs as [|b bs IH]; intros m a i H Hi; simpl in *; [lia|].
  destruct (m !! a) eqn:Ea; [|done]. destruct i as [|i].
  - rewrite Z.add_0_r. rewrite (store_bytes_other _ _ _ _ a H) by lia.
    simpl. apply lookup_insert_eq.
  - simpl. rewrite <- (IH _ (a + 1) i H) by lia. f_equal. lia.
Qed.

Lemma store_bytes_mapped m a bs m' x :
  store_bytes m a bs = Some m' -> is_Some (m' !! x) <-> is_Some (m !! x).
Proof.
  revert m a. induction bs as [|b bs IH]; intros m a H; simpl in H.
  - by inversion H.
  - destruct (m !! a) eqn:Ea; [|done].
    rewrite (IH _ _ H). destruct (decide (a = x)) as [->|Hne].
    + rewrite lookup_insert_eq, Ea. split; eauto.
    + by rewrite lookup_insert_ne.
Qed.

Lemma load_bytes_Some m a n :
  (forall x, a <= x < a + Z.of_nat n -> is_Some (m !! x)) ->
  is_Some (load_bytes m a n).
Proof.
  revert a. induction n as [|n IH]; intros a H; simpl; [eauto|].
  destruct (H a ltac:(lia)) as [b ->]. simpl.
  destruct (IH (a + 1)) as [bs ->]; [intros; apply H; lia|]. simpl. eauto.
Qed.

Lemma load_bytes_store_bytes m a bs m' :
  store_bytes m a bs = Some m' -> load_bytes m' a (length bs) = Some bs.
Proof.
  intros H.
  destruct (load_bytes_Some m' a (length bs)) as [bs' Hbs'].
  { intros x Hx. replace x with (a + Z.of_nat (Z.to_nat (x - a))) by lia.
    rewrite (store_bytes_lookup _ _ _ _ _ H) by lia.
    apply lookup_lt_is_Some_2. lia. }
  rewrite Hbs'. f_equal. apply list_eq. intros i.
  destruct (decide (i < length bs)%nat) as [Hi|Hi].
  - rewrite <- (load_bytes_lookup _ _ _ _ _ Hbs' Hi).
    apply (store_bytes_lookup _ _ _ _ _ H Hi).
  - rewrite !lookup_ge_None_2; [done|lia|].
    apply load_bytes_length in Hbs'. lia.
Qed.

Lemma load_bytes_store_bytes_other m a bs m' a' n :
  store_bytes m a bs = Some m' ->
  a' + Z.of_nat n <= a \/ a + Z.of_nat (length bs) <= a' ->
  load_bytes m' a' n = load_bytes m a' n.
Proof.
  intros H Hd. apply load_bytes_ext. intros x Hx.
  apply (store_bytes_other _ _ _ _ _ H). lia.
Qed.

Lemma le_encode_length n v : length (le_encode n v) = n.
Proof. revert v. induction n; intros; simpl; auto. Qed.

Lemma le_decode_encode n v : le_decode (le_encode n v) = v mod 256 ^ Z.of_nat n.
Proof.
  revert v. induction n as [|n IH]; intros v.
  - simpl. by rewrite Z.mod_1_r.
  - cbn [le_encode le_decode]. rewrite IH, Z_of_byte_of_Z.
    rewrite Nat2Z.inj_succ, Z.pow_succ_r by lia.
    rewrite Z.rem_mul_r by lia. done.
Qed.

Lemma le_decode_range bs : 0 <= le_decode bs < 256 ^ Z.of_nat (length bs).
Proof.
  induction bs as [|b bs IH].
  - simpl. lia.
  - cbn [le_decode length]. pose proof (Z_of_byte_range b).
    rewrite Nat2Z.inj_succ, Z.pow_succ_r by lia. lia.
Qed.

Lemma load32_range m a v : load32 m a = Some v -> 0 <= v < 2 ^ 32.
Proof.
  unfold load32. intros H.
  destruct (load_bytes m a 4) as [bs|] eqn:E; simpl in H; [|done].
  inversion H; subst. pose proof (le_decode_range bs).
  apply load_bytes_length in E. rewrite E in *. done.
Qed.

Lemma load32_store32 m a v m' :
  store32 m a v = Some m' -> load32 m' a = Some (wrap32 v).
Proof.
  unfold store32, load32. intros H.
  apply load_bytes_store_bytes in H. rewrite le_encode_length in H.
  rewrite H. simpl. f_equal. apply (le_decode_encode 4).
Qed.

Lemma load32_store32_other m a v m' a' :
  store32 m a v = Some m' -> a' + 4 <= a \/ a + 4 <= a' ->
  load32 m' a' = load32 m a'.
Proof.
  unfold store32, load32. intros H Hd.
  rewrite (load_bytes_store_bytes_other _ _ _ _ _ _ H); [done|].
  rewrite le_encode_length. lia.
Qed.


(** ** StringPool *)

Lemma StringPool_new_eq :
  StringPool_new = {| _pool := {[ EmptyString := 0 ]}; _stringsLength := 1 |}.
Proof. reflexivity. Qed.

Lemma addString_present sp s off :
  _pool sp !! s = Some off -> addString sp s = (off, sp).
Proof. unfold addString. by intros ->. Qed.

Lemma addString_lookup sp s :
  _pool (addString sp s).2 !! s = Some (addString sp s).1.
Proof.
  unfold addString. destruct (_pool sp !! s) eqn:E; simpl; [done|].
  apply lookup_insert_eq.
Qed.

Lemma addString_idemp sp s :
  addString (addString sp s).2 s = ((addString sp s).1, (addString sp s).2).
Proof. apply addString_present, addString_lookup. Qed.

(** An offset, once given, is kept. *)
Lemma addString_keeps sp s s' off :
  _pool sp !! s' = Some off -> _pool (addString sp s).2 !! s' = Some off.
Proof.
  intros H. unfold addString. destruct (_pool sp !! s) eqn:E; simpl; [done|].
  rewrite lookup_insert_ne; [done|]. intros ->. congruence.
Qed.

Lemma reachable_empty_string sp :
  reachable sp -> _pool sp !! EmptyString = Some 0.
Proof.
  induction 1 as [|sp s _ IH]; [done|]. by apply addString_keeps.
Qed.

Lemma extends_keeps sp sp' s off :
  extends sp sp' -> _pool sp !! s = Some off -> _pool sp' !! s = Some off.
Proof. induction 1; intros Hl; [done|]. by apply addString_keeps, IHextends. Qed.

(** C8.  [addString] gives a string that is already in the pool the offset
    it has there and leaves the pool as it is; so a string that was added
    before gets, after any number of other additions, the offset of its
    first addition, and the pool (map and length) is not changed by adding
    it again.  The pool of the constructor holds the empty string alone, at
    offset 0 and of length 1 (its NUL), and adding the empty string to any
    pool built from it gives 0. *)
Theorem addString_dedup (sp : StringPool) (s : string) :
  (forall off, _pool sp !! s = Some off -> addString sp s = (off, sp))
  /\ (forall sp', extends (addString sp s).2 sp' ->
        addString sp' s = ((addString sp s).1, sp'))
  /\ _pool StringPool_new = {[ EmptyString := 0 ]}
  /\ _stringsLength StringPool_new = 1
  /\ (reachable sp -> addString sp EmptyString = (0, sp)).
Proof.
  split; [intros off; apply addString_present|].
  split.
  { intros sp' Hext. apply addString_present.
    apply (extends_keeps _ _ _ _ Hext), addString_lookup. }
  split; [done|]. split; [done|].
  intros H. by apply addString_present, reachable_empty_string.
Qed.

(** [_foo] is added, then [_bar], then [_foo] again. *)
Lemma addString_dedup_witness :
  addString (addString StringPool_new "_foo").2 "_foo"
    = (1, (addString StringPool_new "_foo").2)
  /\ addString foo_bar_pool "_foo" = (1, foo_bar_pool)
  /\ addString (addString StringPool_new "_foo").2 EmptyString
    = (0, (addString StringPool_new "_foo").2).
Proof.
  destruct (addString_dedup (addString StringPool_new "_foo").2 "_foo")
    as (H1 & _ & _ & _ & H5).
  destruct (addString_dedup StringPool_new "_foo") as (_ & H2 & _).
  split; [|split].
  - apply H1. reflexivity.
  - apply (H2 foo_bar_pool). apply extends_add, extends_refl.
  - apply H5. apply reachable_add, reachable_new.
Defined.

(** ** LinkeditTracker *)

Lemma insertLoadCommand_no_space self m after lc sizeofcmds cmdsize :
  load32 m (LinkeditTracker._header self + Loader.sizeofcmds) = Some sizeofcmds ->
  load32 m (lc + Loader.cmdsize) = Some cmdsize ->
  wrap32 (sizeofcmds + cmdsize) > LinkeditTracker._headerSpaceAvailable self ->
  LinkeditTracker.insertLoadCommand self m after lc = Some (false, self, m).
Proof.
  intros Hs Hc Hgt. unfold LinkeditTracker.insertLoadCommand.
  rewrite Hs. simpl. rewrite Hc. simpl. by rewrite decide_True.
Qed.

Lemma insertLinkeditData_no_space self m after data :
  LinkeditTracker.lastDataEnd self
    + LinkeditTracker.shiftDelta_of (LinkeditData.dataSize data)
    > LinkeditTracker._linkeditEnd self ->
  LinkeditTracker.insertLinkeditData self m after data = Some (false, self, m).
Proof.
  intros Hgt. unfold LinkeditTracker.insertLinkeditData. by rewrite decide_True.
Qed.

(** Both insertions answer [false] and leave the tracker and the memory as
    they were when their test finds no room: the test of [insertLoadCommand]
    is on the [uint32_t] sum of [sizeofcmds] and [cmdsize], which is the
    plain sum whenever that fits in 32 bits; the test of [insertLinkeditData]
    is on the shift that [shiftDelta_of] gives. *)
Lemma insert_refused_unchanged (self : LinkeditTracker.t) (m : mem) :
  (forall after lc sizeofcmds cmdsize,
     load32 m (LinkeditTracker._header self + Loader.sizeofcmds) = Some sizeofcmds ->
     load32 m (lc + Loader.cmdsize) = Some cmdsize ->
     (wrap32 (sizeofcmds + cmdsize) > LinkeditTracker._headerSpaceAvailable self
      \/ (sizeofcmds + cmdsize < 2 ^ 32
          /\ sizeofcmds + cmdsize > LinkeditTracker._headerSpaceAvailable self)) ->
     LinkeditTracker.insertLoadCommand self m after lc = Some (false, self, m))
  /\ (forall after data,
        LinkeditTracker.lastDataEnd self
          + LinkeditTracker.shiftDelta_of (LinkeditData.dataSize data)
          > LinkeditTracker._linkeditEnd self ->
        LinkeditTracker.insertLinkeditData self m after data = Some (false, self, m)).
Proof.
  split.
  - intros after lc sizeofcmds cmdsize Hs Hc Hgt.
    apply (insertLoadCommand_no_space _ _ _ _ _ _ Hs Hc).
    destruct Hgt as [Hgt|[Hlt Hgt]]; [done|].
    pose proof (load32_range _ _ _ Hs). pose proof (load32_range _ _ _ Hc).
    rewrite wrap32_small; lia.
  - intros after data. apply insertLinkeditData_no_space.
Qed.

(** The scenario of the spec: [sizeofcmds] is [header_space - 8], the new
    command has 16 bytes; and a payload of 13 bytes for a LINKEDIT of 8. *)
Lemma insert_refused_scenario :
  LinkeditTracker.insertLoadCommand (empty_tracker 32) tracker_mem 0x120 0x2000
    = Some (false, empty_tracker 32, tracker_mem)
  /\ LinkeditTracker.insertLinkeditData (empty_tracker 8) tracker_mem None
       (LinkeditData 0x130 0x3000 13)
    = Some (false, empty_tracker 8, tracker_mem).
Proof.
  destruct (insert_refused_unchanged (empty_tracker 32) tracker_mem) as [H1 _].
  destruct (insert_refused_unchanged (empty_tracker 8) tracker_mem) as [_ H2].
  split.
  - apply (H1 0x120 0x2000 0xf8 16); [reflexivity|reflexivity|].
    right. split; reflexivity.
  - apply H2. reflexivity.
Qed.

(** An insertion whose test finds room does not answer [false]: it goes on
    to move and to copy.  The test of [insertLoadCommand] finds room
    whenever the [uint32_t] sum is within the space, whatever the plain sum
    is; the one of [insertLinkeditData] whenever the end of the last region
    plus the [uint32_t] shift is within the LINKEDIT. *)
Lemma insertLoadCommand_not_refused self m after lc sizeofcmds cmdsize b self' m' :
  load32 m (LinkeditTracker._header self + Loader.sizeofcmds) = Some sizeofcmds ->
  load32 m (lc + Loader.cmdsize) = Some cmdsize ->
  wrap32 (sizeofcmds + cmdsize) <= LinkeditTracker._headerSpaceAvailable self ->
  LinkeditTracker.insertLoadCommand self m after lc = Some (b, self', m') ->
  b = true.
Proof.
  intros Hs Hc Hle H. unfold LinkeditTracker.insertLoadCommand in H.
  rewrite Hs in H. simpl in H. rewrite Hc in H. simpl in H.
  rewrite decide_False in H by lia.
  repeat match type of H with
  | mbind _ ?x = Some _ => destruct x; simpl in H; [|discriminate H]
  end.
  by injection H as <- _ _.
Qed.

Lemma insertLinkeditData_not_refused self m after data b self' m' :
  LinkeditTracker.lastDataEnd self
    + LinkeditTracker.shiftDelta_of (LinkeditData.dataSize data)
    <= LinkeditTracker._linkeditEnd self ->
  LinkeditTracker.insertLinkeditData self m after data = Some (b, self', m') ->
  b = true.
Proof.
  intros Hle H. unfold LinkeditTracker.insertLinkeditData in H.
  rewrite decide_False in H by lia.
  repeat match type of H with
  | mbind _ ?x = Some _ => destruct x as [[]|] || destruct x;
                           simpl in H; [|discriminate H]
  end.
  by injection H as <- _ _.
Qed.

(** C5.  The two tests for room are made in [uint32_t], and a size near
    [2 ^ 32] passes them.  The header has [sizeofcmds = 0x28] and room for
    [0x100] bytes of load commands; a new command whose [cmdsize] is
    [0xfffffff0] makes the sum [0x100000018], far above the room, and the
    [uint32_t] sum [0x18]: [insertLoadCommand] does not answer [false], it
    moves the commands behind [after] by [0xfffffff0] bytes, to where no
    memory is, and faults.  A payload of [0xfffffff8] bytes has the padded
    size [2 ^ 32], above the 32 bytes of the LINKEDIT, and the [uint32_t]
    shift [0]: [insertLinkeditData] does not answer [false], it sets to zero
    the 8 bytes in front of the LINKEDIT, where no memory is, and faults. *)
Theorem insert_room_tests_wrap :
  load32 wrap_mem (LinkeditTracker._header (empty_tracker 32) + Loader.sizeofcmds)
    = Some 0x28
  /\ load32 wrap_mem (0x2000 + Loader.cmdsize) = Some 0xfffffff0
  /\ 0x28 + 0xfffffff0 > LinkeditTracker._headerSpaceAvailable (empty_tracker 32)
  /\ wrap32 (0x28 + 0xfffffff0) = 0x18
  /\ LinkeditTracker.insertLoadCommand (empty_tracker 32) wrap_mem 0x120 0x2000
     = None
  /\ LinkeditTracker.lastDataEnd (empty_tracker 32) + (0xfffffff8 + 8)
     > LinkeditTracker._linkeditEnd (empty_tracker 32)
  /\ LinkeditTracker.shiftDelta_of 0xfffffff8 = 0
  /\ LinkeditTracker.insertLinkeditData (empty_tracker 32) wrap_mem None
       (LinkeditData 0x130 0x3000 0xfffffff8)
     = None.
Proof. repeat split; vm_compute; reflexivity. Qed.

(** The shift of [insertLinkeditData] is the multiple of 8 next above the
    payload size: the round-up when the size is not a multiple of 8, and 8
    more than the size when it is one. *)
Lemma shiftDelta_of_spec dataSize :
  0 <= dataSize -> dataSize + 8 < 2 ^ 32 ->
  LinkeditTracker.shiftDelta_of dataSize = 8 * (dataSize / 8) + 8.
Proof.
  intros H0 H1. unfold LinkeditTracker.shiftDelta_of.
  pose proof (Z.mod_pos_bound dataSize 8 ltac:(lia)).
  pose proof (Z.div_mod dataSize 8 ltac:(lia)).
  rewrite wrap32_small; lia.
Qed.

Lemma shiftDelta_of_aligned dataSize :
  0 <= dataSize -> dataSize + 8 < 2 ^ 32 -> dataSize mod 8 = 0 ->
  LinkeditTracker.shiftDelta_of dataSize = dataSize + 8.
Proof.
  intros H0 H1 H8. rewrite shiftDelta_of_spec by done.
  pose proof (Z.div_mod dataSize 8 ltac:(lia)). lia.
Qed.

Lemma shiftDelta_of_unaligned dataSize :
  0 <= dataSize -> dataSize + 8 < 2 ^ 32 -> dataSize mod 8 ≠ 0 ->
  LinkeditTracker.shiftDelta_of dataSize = alignR dataSize 8.
Proof.
  intros H0 H1 H8. rewrite shiftDelta_of_spec by done. unfold alignR.
  pose proof (Z.mod_pos_bound dataSize 8 ltac:(lia)).
  pose proof (Z.div_mod dataSize 8 ltac:(lia)).
  rewrite (Z.mod_small (8 - dataSize mod 8)) by lia.
  rewrite wrap32_small; lia.
Qed.

(** The scenario of the spec: 13 bytes go into an empty tracker over a
    LINKEDIT of 32 bytes; 16 bytes are reserved, the bytes 13 to 15 are
    zero, and an insertion after this region starts at offset 16. *)
Lemma insertLinkeditData_13 :
  tracker_view
    (LinkeditTracker.insertLinkeditData (empty_tracker 32) tracker_mem None
       (LinkeditData 0x130 0x3000 13)) 0x1000 16
  = Some (true, [LinkeditData 0x130 0x1000 16], bytes "ABCDEFGHIJKLM" ++ zeros 3)
  /\ tracker_view
       ('(_, t, m) ← LinkeditTracker.insertLinkeditData (empty_tracker 32)
                       tracker_mem None (LinkeditData 0x130 0x3000 13);
        LinkeditTracker.insertLinkeditData t m
          (Some (LinkeditData 0x130 0x1000 16)) (LinkeditData 0x134 0x3000 3))
       0x1010 8
     = Some (true, [LinkeditData 0x130 0x1000 16; LinkeditData 0x134 0x1010 8],
             bytes "ABC" ++ zeros 5).
Proof. split; vm_compute; reflexivity. Qed.

(** C3.  A payload whose size is a multiple of 8 does not reserve its own
    size: for 16 bytes the shift is 24.  In an empty tracker over a LINKEDIT
    of 32 bytes the region is tracked with 24 bytes, bytes 16 to 23 being
    the padding, and over a LINKEDIT of 16 bytes the insertion is refused
    although the payload fits. *)
Theorem insertLinkeditData_aligned_payload :
  LinkeditTracker.shiftDelta_of 16 = 24
  /\ tracker_view
       (LinkeditTracker.insertLinkeditData (empty_tracker 32) tracker_mem None
          (LinkeditData 0x130 0x3000 16)) 0x1000 24
     = Some (true, [LinkeditData 0x130 0x1000 24],
             bytes "ABCDEFGHIJKLMNOP" ++ zeros 8)
  /\ LinkeditTracker.insertLinkeditData (empty_tracker 16) tracker_mem None
       (LinkeditData 0x130 0x3000 16)
     = Some (false, empty_tracker 16, tracker_mem).
Proof.
  split; [reflexivity|]. split; [vm_compute; reflexivity|].
  apply insertLinkeditData_no_space. reflexivity.
Qed.

(** ** The passes on the example image *)

(** C1.  The indirect symbol table of the image is [2], [0] and
    [INDIRECT_SYMBOL_LOCAL]; after [optimizeLinkedit] it is [2], [0], [0]:
    the entry [INDIRECT_SYMBOL_LOCAL] is not kept, it is overwritten with
    what the remapping table gives for it.  In the second scenario of the
    spec the table is [1], [0] and becomes [2], [1]: the zero entry is not
    kept either, it gets the new index of the old symbol 0. *)
Theorem copyIndirectSymbolTable_overwrites_special_entries :
  load32s image_mem (FILE + 0x460) 3 = Some [2; 0; INDIRECT_SYMBOL_LOCAL]
  /\ new_indirect_table image_mem 3 = Some [2; 0; 0]
  /\ load32s scenario2_mem (FILE + 0x460) 2 = Some [1; 0]
  /\ new_indirect_table scenario2_mem 2 = Some [2; 1].
Proof. repeat split; vm_compute; reflexivity. Qed.

(** C2.  The exports trie of the image is at the file offset [0x470], as
    the field [dataoff] of its command says.  [optimizeLinkedit] runs and
    has no pass for it: the command is never read, the field still holds
    [0x470], the tracker holds the fields of the five regions that were
    written (binding info, symbol entries, function starts, indirect symbol
    table, string pool) and not this one, and the rebuilt LINKEDIT, of
    [0x78] bytes, has the end of the string pool at [0x470] where the trie
    was: the trie is nowhere in it. *)
Theorem optimizeLinkedit_leaves_export_info :
  load32 image_mem (FILE + 0xb8 + Loader.dataoff) = Some 0x470
  /\ load_bytes image_mem (FILE + 0x470) 8
     = Some (u8 0 ++ u8 1 ++ bytes "_foo" ++ u8 0 ++ u8 0)
  /\ image_new_export_info
     = Some (0x470, zeros 1 ++ bytes "_bar" ++ zeros 3,
             [FILE + 0x20 + Loader.bind_off; FILE + 0x50 + Loader.symoff;
              FILE + 0xc8 + Loader.dataoff; FILE + 0x68 + Loader.indirectsymoff;
              FILE + 0x50 + Loader.stroff],
             0x78).
Proof. repeat split; vm_compute; reflexivity. Qed.

(** ** Passes whose load command is missing *)

Lemma load32_unmapped m a : m !! a = None -> load32 m a = None.
Proof. intros H. unfold load32. simpl. by rewrite H. Qed.

Lemma store32_unmapped m a v : m !! a = None -> store32 m a v = None.
Proof. intros H. unfold store32. simpl. by rewrite H. Qed.

(** The passes that test their command return at once, with nothing read
    and nothing written. *)
Lemma copyBindingInfo_skip self newLinkedit offset :
  LinkeditOptimizer._dyldInfo self = nullptr ->
  LinkeditOptimizer.copyBindingInfo self newLinkedit offset
  = Some (self, newLinkedit, offset).
Proof. intros H. unfold LinkeditOptimizer.copyBindingInfo. by rewrite decide_True. Qed.

Lemma copyIndirectSymbolTable_skip self newLinkedit offset :
  LinkeditOptimizer._dySymTab self = nullptr ->
  LinkeditOptimizer.copyIndirectSymbolTable self newLinkedit offset
  = Some (self, newLinkedit, offset).
Proof.
  intros H. unfold LinkeditOptimizer.copyIndirectSymbolTable. by rewrite decide_True.
Qed.

Lemma endSymbolEntries_skip {P : Pointer} self newLinkedit offset :
  LinkeditOptimizer._symTab self = nullptr ->
  LinkeditOptimizer.endSymbolEntries self newLinkedit offset
  = Some (self, newLinkedit, offset).
Proof. intros H. unfold LinkeditOptimizer.endSymbolEntries. by rewrite decide_True. Qed.

(** [searchRedactedSymbol] has no such test: without a dysymtab command it
    reads [indirectsymoff] through the null pointer. *)
Lemma searchRedactedSymbol_null {P : Pointer} self newLinkedit offset :
  LinkeditOptimizer._dySymTab self = nullptr ->
  LinkeditOptimizer.ram self !! (nullptr + Loader.indirectsymoff) = None ->
  LinkeditOptimizer.searchRedactedSymbol self newLinkedit offset = None.
Proof.
  intros H Hm. unfold LinkeditOptimizer.searchRedactedSymbol.
  rewrite H. by rewrite (load32_unmapped _ _ Hm).
Qed.

(** Nor has [copyStringPool]: without a symtab command it writes the pool
    and then stores [stroff] through the null pointer. *)
Lemma copyStringPool_null self newLinkedit offset :
  LinkeditOptimizer._symTab self = nullptr ->
  LinkeditOptimizer.ram self !! (nullptr + Loader.stroff) = None ->
  LinkeditOptimizer.copyStringPool self newLinkedit offset = None.
Proof.
  intros H Hm. unfold LinkeditOptimizer.copyStringPool.
  destruct (writeStrings _ _ _) as [[size nl]|]; simpl; [|done].
  rewrite H. by rewrite (store32_unmapped _ _ _ Hm).
Qed.

Lemma is_Some_unit {A} (x : option A) : (x ≫= λ _, Some ()) = Some () -> is_Some x.
Proof. destruct x; [eauto|done]. Qed.

(** C4.  On the image without its dysymtab command the optimizer is built,
    and [searchRedactedSymbol] faults instead of returning; so does the whole
    of [optimizeLinkedit].  On the image without its symtab command
    [copyStringPool] faults. *)
Theorem passes_without_their_command_fault :
  is_Some (optimizer_of (P := Pointer64) image_mCtx_no_dysymtab image_dCtx
             image_mem_no_dysymtab)
  /\ (optimizer ← optimizer_of (P := Pointer64) image_mCtx_no_dysymtab image_dCtx
                    image_mem_no_dysymtab;
      LinkeditOptimizer.searchRedactedSymbol (P := Pointer64) optimizer
        (calloc 0x100) 0) = None
  /\ optimizeLinkedit (P := Pointer64) image_mCtx_no_dysymtab image_dCtx
       image_mem_no_dysymtab [] false = None
  /\ is_Some (optimizer_of (P := Pointer64) image_mCtx_no_symtab image_dCtx
                image_mem_no_dysymtab)
  /\ (optimizer ← optimizer_of (P := Pointer64) image_mCtx_no_symtab image_dCtx
                    image_mem_no_dysymtab;
      LinkeditOptimizer.copyStringPool optimizer (calloc 0x100) 0) = None.
Proof.
  split; [apply is_Some_unit; vm_compute; reflexivity|].
  split; [vm_compute; reflexivity|].
  split; [vm_compute; reflexivity|].
  split; [apply is_Some_unit; vm_compute; reflexivity|].
  vm_compute; reflexivity.
Qed.

(** ** The indirect symbol table *)

Lemma map_subscript_unrecorded (remap0 remap : gmap Z Z) e :
  (forall k, remap0 !! k = None -> remap !! k = None \/ remap !! k = Some 0) ->
  (forall k, remap0 !! k = None ->
     (map_subscript remap e).2 !! k = None \/ (map_subscript remap e).2 !! k = Some 0)
  /\ (remap0 !! e = None -> (map_subscript remap e).1 = 0).
Proof.
  intros H. unfold map_subscript. split.
  - intros k Hk. destruct (remap !! e) eqn:E; simpl; [by apply H|].
    destruct (decide (e = k)) as [->|Hne].
    + right. apply lookup_insert_eq.
    + rewrite lookup_insert_ne by done. by apply H.
  - intros He. destruct (H e He) as [E|E]; by rewrite E.
Qed.

(** The loop writes [0] for every entry that the table did not hold at the
    start, and leaves the buffer below [newEntries + 4 * entryIndex] as it
    was. *)
Lemma copyIndirect_loop_unrecorded m entries newEntries (remap0 : gmap Z Z) n :
  forall entryIndex (remap : gmap Z Z) (newLinkedit : mem) remap' newLinkedit',
    LinkeditOptimizer.copyIndirect_loop m n entries newEntries entryIndex remap
      newLinkedit = Some (remap', newLinkedit') ->
    (forall k, remap0 !! k = None -> remap !! k = None \/ remap !! k = Some 0) ->
    (forall a, a + 4 <= newEntries + 4 * entryIndex ->
       load32 newLinkedit' a = load32 newLinkedit a)
    /\ (forall i e, entryIndex <= i < entryIndex + Z.of_nat n ->
          load32 m (entries + 4 * i) = Some e ->
          remap0 !! e = None ->
          load32 newLinkedit' (newEntries + 4 * i) = Some 0).
Proof.
  induction n as [|n IH]; intros entryIndex remap nl remap' nl' Hrun Hinv.
  - simpl in Hrun. inversion Hrun; subst. split; [done|]. intros; lia.
  - cbn [LinkeditOptimizer.copyIndirect_loop] in Hrun.
    destruct (load32 m (entries + 4 * entryIndex)) as [e0|] eqn:He0;
      simpl in Hrun; [|done].
    match type of Hrun with
    | (?first ≫= _) = _ => destruct first as [nl1|] eqn:Hnl1
    end; simpl in Hrun; [|done].
    destruct (map_subscript_unrecorded remap0 remap e0 Hinv) as [Hinv' Hv].
    destruct (map_subscript remap e0) as [v remap1] eqn:Hsub. simpl in *.
    destruct (store32 nl1 (newEntries + 4 * entryIndex) v) as [nl2|] eqn:Hnl2;
      simpl in Hrun; [|done].
    destruct (IH _ _ _ _ _ Hrun Hinv') as [Hframe Hzero].
    assert (Hnl1' : forall a, a + 4 <= newEntries + 4 * entryIndex ->
              load32 nl1 a = load32 nl a).
    { intros a Ha. destruct (decide _) in Hnl1; [|by inversion Hnl1].
      apply (load32_store32_other _ _ _ _ _ Hnl1). lia. }
    split.
    + intros a Ha. rewrite Hframe by lia.
      rewrite (load32_store32_other _ _ _ _ _ Hnl2) by lia. by apply Hnl1'.
    + intros i e Hi He Hnone.
      destruct (decide (i = entryIndex)) as [->|Hne].
      * rewrite Hframe by lia. rewrite (load32_store32 _ _ _ _ Hnl2).
        rewrite He0 in He. inversion He; subst. by rewrite (Hv Hnone).
      * apply (Hzero i e); [lia|done|done].
Qed.

(** What the loop leaves in the remapping table: every entry that it met is
    a key, no key is lost, and a key that the table did not hold at the start
    has the value [0]. *)
Lemma map_subscript_inserts (remap : gmap Z Z) e :
  is_Some ((map_subscript remap e).2 !! e)
  /\ (forall k, is_Some (remap !! k) -> is_Some ((map_subscript remap e).2 !! k)).
Proof.
  unfold map_subscript. destruct (remap !! e) as [v|] eqn:E; simpl.
  - split; [by rewrite E|done].
  - split; [rewrite lookup_insert_eq; eauto|].
    intros k Hk. destruct (decide (e = k)) as [->|Hne].
    + rewrite lookup_insert_eq. eauto.
    + by rewrite lookup_insert_ne.
Qed.

Lemma copyIndirect_loop_table m entries newEntries (remap0 : gmap Z Z) n :
  forall entryIndex (remap : gmap Z Z) (newLinkedit : mem) remap' newLinkedit',
    LinkeditOptimizer.copyIndirect_loop m n entries newEntries entryIndex remap
      newLinkedit = Some (remap', newLinkedit') ->
    (forall k, remap0 !! k = None -> remap !! k = None \/ remap !! k = Some 0) ->
    (forall k, remap0 !! k = None -> remap' !! k = None \/ remap' !! k = Some 0)
    /\ (forall k, is_Some (remap !! k) -> is_Some (remap' !! k))
    /\ (forall i e, entryIndex <= i < entryIndex + Z.of_nat n ->
          load32 m (entries + 4 * i) = Some e -> is_Some (remap' !! e)).
Proof.
  induction n as [|n IH]; intros entryIndex remap nl remap' nl' Hrun Hinv.
  - simpl in Hrun. inversion Hrun; subst. split; [done|]. split; [done|].
    intros; lia.
  - cbn [LinkeditOptimizer.copyIndirect_loop] in Hrun.
    destruct (load32 m (entries + 4 * entryIndex)) as [e0|] eqn:He0;
      simpl in Hrun; [|done].
    match type of Hrun with
    | (?first ≫= _) = _ => destruct first as [nl1|] eqn:Hnl1
    end; simpl in Hrun; [|done].
    destruct (map_subscript_unrecorded remap0 remap e0 Hinv) as [Hinv' _].
    destruct (map_subscript_inserts remap e0) as [Hkey Hmono].
    destruct (map_subscript remap e0) as [v remap1] eqn:Hsub. simpl in *.
    destruct (store32 nl1 (newEntries + 4 * entryIndex) v) as [nl2|] eqn:Hnl2;
      simpl in Hrun; [|done].
    destruct (IH _ _ _ _ _ Hrun Hinv') as (Hfin & Hmono' & Hkeys).
    split; [done|]. split; [by auto|].
    intros i e Hi He. destruct (decide (i = entryIndex)) as [->|Hne].
    + rewrite He0 in He. injection He as <-. by apply Hmono'.
    + apply (Hkeys i e); [lia|done].
Qed.

(** C10.  When [copyIndirectSymbolTable] runs on an image that has a
    dysymtab command, every entry [e] of the old table that is not a key of
    the remapping table when the pass starts is one afterwards, with the
    value [0] (the lookup has made the mapping), and [0] is what the new
    table holds in its place, whatever the buffer held there. *)
Theorem copyIndirectSymbolTable_unrecorded_is_zero
    (self : LinkeditOptimizer.t) (newLinkedit : mem) (offset : Z)
    (self' : LinkeditOptimizer.t) (newLinkedit' : mem) (offset' : Z)
    (indirectsymoff nindirectsyms i e : Z) :
  LinkeditOptimizer._dySymTab self ≠ nullptr ->
  load32 (LinkeditOptimizer.ram self)
    (LinkeditOptimizer._dySymTab self + Loader.indirectsymoff) = Some indirectsymoff ->
  load32 (LinkeditOptimizer.ram self)
    (LinkeditOptimizer._dySymTab self + Loader.nindirectsyms) = Some nindirectsyms ->
  0 <= i < nindirectsyms ->
  load32 (LinkeditOptimizer.ram self)
    (LinkeditOptimizer._linkeditFile self + indirectsymoff + 4 * i) = Some e ->
  LinkeditOptimizer._newSymbolIndicies self !! e = None ->
  LinkeditOptimizer.copyIndirectSymbolTable self newLinkedit offset
    = Some (self', newLinkedit', offset') ->
  load32 newLinkedit' (offset + 4 * i) = Some 0
  /\ LinkeditOptimizer._newSymbolIndicies self' !! e = Some 0.
Proof.
  intros Hdy Hoff Hn Hi He Hnone Hrun.
  unfold LinkeditOptimizer.copyIndirectSymbolTable in Hrun.
  rewrite decide_False in Hrun by done.
  rewrite Hoff in Hrun. simpl in Hrun. rewrite Hn in Hrun. simpl in Hrun.
  destruct (LinkeditOptimizer.copyIndirect_loop _ _ _ _ _ _ _)
    as [[remap' nl']|] eqn:Hloop; simpl in Hrun; [|done].
  destruct (store32 _ _ _) as [ram'|] in Hrun; simpl in Hrun; [|done].
  inversion Hrun; subst. simpl. split.
  - destruct (copyIndirect_loop_unrecorded _ _ _
                (LinkeditOptimizer._newSymbolIndicies self) _ _ _ _ _ _ Hloop)
      as [_ Hzero]; [by left|].
    apply (Hzero i e); [lia|done|done].
  - destruct (copyIndirect_loop_table _ _ _
                (LinkeditOptimizer._newSymbolIndicies self) _ _ _ _ _ _ Hloop)
      as (Hfin & _ & Hkeys); [by left|].
    destruct (Hkeys i e ltac:(lia) He) as [v Hv].
    destruct (Hfin e Hnone) as [Hf|Hf]; [congruence|done].
Qed.

Lemma image_indirect_runs :
  (LinkeditOptimizer.copyIndirectSymbolTable image_optimizer_symbols_copied
     image_newLinkedit 80 ≫= λ _, Some ()) = Some ().
Proof. vm_compute. reflexivity. Qed.

Lemma image_indirect_dirty_runs :
  (LinkeditOptimizer.copyIndirectSymbolTable image_optimizer_symbols_copied
     image_dirty_newLinkedit 80 ≫= λ _, Some ()) = Some ().
Proof. vm_compute. reflexivity. Qed.

(** The third entry of the image, [INDIRECT_SYMBOL_LOCAL], is no key of the
    table when the pass starts.  In a buffer whose bytes are all [0xff], the
    third word of the new table is [0] after the pass, and the table holds
    [0] for [INDIRECT_SYMBOL_LOCAL]. *)
Lemma copyIndirectSymbolTable_unrecorded_is_zero_witness :
  load32 image_dirty_newLinkedit (80 + 4 * 2) = Some 0xffffffff
  /\ LinkeditOptimizer._newSymbolIndicies image_optimizer_symbols_copied
       !! INDIRECT_SYMBOL_LOCAL = None
  /\ match LinkeditOptimizer.copyIndirectSymbolTable image_optimizer_symbols_copied
             image_dirty_newLinkedit 80 with
     | Some (self', newLinkedit', _) =>
         load32 newLinkedit' (80 + 4 * 2) = Some 0
         /\ LinkeditOptimizer._newSymbolIndicies self' !! INDIRECT_SYMBOL_LOCAL
            = Some 0
     | None => False
     end.
Proof.
  split; [vm_compute; reflexivity|]. split; [vm_compute; reflexivity|].
  destruct (LinkeditOptimizer.copyIndirectSymbolTable _ _ _)
    as [[[self' newLinkedit'] offset']|] eqn:E.
  - apply (copyIndirectSymbolTable_unrecorded_is_zero
             image_optimizer_symbols_copied image_dirty_newLinkedit 80
             self' newLinkedit' offset' 0x460 3 2 INDIRECT_SYMBOL_LOCAL);
      [vm_compute; discriminate|vm_compute; reflexivity|vm_compute; reflexivity
      |lia|vm_compute; reflexivity|vm_compute; reflexivity|exact E].
  - pose proof image_indirect_dirty_runs as Hruns. rewrite E in Hruns.
    discriminate.
Defined.

(** ** The redacted-indirect probe *)


Lemma store32_other m a v m' x :
  store32 m a v = Some m' -> x < a \/ a + 4 <= x -> m' !! x = m !! x.
Proof.
  unfold store32. intros H Hx. apply (store_bytes_other _ _ _ _ _ H).
  rewrite le_encode_length. lia.
Qed.


Lemma load32_ext m1 m2 a :
  (forall x, a <= x < a + 4 -> m1 !! x = m2 !! x) -> load32 m1 a = load32 m2 a.
Proof. intros H. unfold load32. by rewrite (load_bytes_ext m1 m2 a 4). Qed.


Lemma reachable_range sp :
  reachable sp ->
  0 <= _stringsLength sp < 2 ^ 32
  /\ (forall s o, _pool sp !! s = Some o -> 0 <= o < 2 ^ 32).
Proof.
  induction 1 as [|sp s _ [IHl IHp]].
  - split; [done|]. intros s o. rewrite StringPool_new_eq. simpl.
    intros [_ <-]%lookup_singleton_Some. done.
  - unfold addString. destruct (_pool sp !! s) eqn:E; simpl; [done|].
    split; [apply wrap32_range|].
    intros s' o. destruct (decide (s = s')) as [->|Hne].
    + rewrite lookup_insert_eq. intros [= <-]. done.
    + rewrite lookup_insert_ne by done. apply IHp.
Qed.



Lemma image_search_runs :
  (LinkeditOptimizer.searchRedactedSymbol (P := Pointer64) image_optimizer
     image_newLinkedit 8 ≫= λ _, Some ()) = Some ().
Proof. vm_compute. reflexivity. Qed.

Lemma calloc_lookup n a : 0 <= a < n -> calloc n !! a = Some zero.
Proof.
  intros Ha. unfold calloc. apply elem_of_list_to_map_1.
  - rewrite <- list_fmap_compose. simpl. rewrite list_fmap_id. apply NoDup_seqZ.
  - apply list_elem_of_fmap. exists a. split; [done|]. apply elem_of_seqZ. lia.
Qed.


(** ** The local symbols *)

Lemma same_commands_refl s : same_commands s s.
Proof. done. Qed.

Lemma same_commands_trans s1 s2 s3 :
  same_commands s1 s2 -> same_commands s2 s3 -> same_commands s1 s3.
Proof. unfold same_commands. intros [-> ->] [-> ->]. done. Qed.

Lemma copy_nlist_same {P : Pointer} self nl newEntry entry str self' nl' :
  LinkeditOptimizer.copy_nlist self nl newEntry entry str = Some (self', nl') ->
  same_commands self self'.
Proof.
  unfold LinkeditOptimizer.copy_nlist. intros H.
  destruct (memcpy _ _ _ _ _) as [nl1|]; simpl in H; [|done].
  destruct (addString _ _) as [strx pool].
  destruct (store32 _ _ _) as [nl2|]; simpl in H; [|done].
  by inversion H.
Qed.

Lemma copyPublicLocalSymbols_loop_same {P : Pointer} n :
  forall strings entry self nl head count self' nl' count',
    LinkeditOptimizer.copyPublicLocalSymbols_loop n strings entry self nl head count
      = Some (self', nl', count') ->
    same_commands self self'.
Proof.
  induction n as [|n IH]; intros strings entry self nl head count self' nl' count' H.
  - simpl in H. inversion H; subst. apply same_commands_refl.
  - cbn [LinkeditOptimizer.copyPublicLocalSymbols_loop] in H.
    destruct (load32 _ _) as [n_strx|]; simpl in H; [|done].
    destruct (c_str _ _) as [str|]; simpl in H; [|done].
    destruct (decide _) in H; [by eapply IH|].
    destruct (LinkeditOptimizer.copy_nlist _ _ _ _ _) as [[s1 nl1]|] eqn:Hc;
      simpl in H; [|done].
    apply copy_nlist_same in Hc. apply IH in H.
    eapply same_commands_trans; [exact Hc|]. exact H.
Qed.

Lemma copyRedactedLocalSymbols_loop_same {P : Pointer} n :
  forall strings entry self nl head count self' nl' count',
    LinkeditOptimizer.copyRedactedLocalSymbols_loop n strings entry self nl head count
      = Some (self', nl', count') ->
    same_commands self self'.
Proof.
  induction n as [|n IH]; intros strings entry self nl head count self' nl' count' H.
  - simpl in H. inversion H; subst. apply same_commands_refl.
  - cbn [LinkeditOptimizer.copyRedactedLocalSymbols_loop] in H.
    destruct (load32 _ _) as [n_strx|]; simpl in H; [|done].
    destruct (c_str _ _) as [str|]; simpl in H; [|done].
    destruct (LinkeditOptimizer.copy_nlist _ _ _ _ _) as [[s1 nl1]|] eqn:Hc;
      simpl in H; [|done].
    apply copy_nlist_same in Hc. apply IH in H.
    eapply same_commands_trans; [exact Hc|]. exact H.
Qed.

(** One step through a run that returned: the first computation of a bind
    returned too, and a test went one way or the other. *)
Ltac run_step H :=
  lazymatch type of H with
  | mbind _ ?x = Some _ =>
      let E := fresh "E" in
      destruct x eqn:E; simpl in H; [|discriminate H]
  | (if decide ?c then _ else _) = Some _ =>
      destruct (decide c); simpl in H
  | (let '(_, _) := ?p in _) = Some _ =>
      destruct p; simpl in H
  | (match ?p with (_, _) => _ end) = Some _ =>
      destruct p; simpl in H
  end.

Lemma _copyPublicLocalSymbols_same {P : Pointer} self nl offset n self' nl' offset' :
  LinkeditOptimizer._copyPublicLocalSymbols self nl offset
    = Some (n, self', nl', offset') ->
  same_commands self self'.
Proof.
  unfold LinkeditOptimizer._copyPublicLocalSymbols. intros H.
  run_step H; [inversion H; subst; apply same_commands_refl|].
  run_step H.
  run_step H; [inversion H; subst; apply same_commands_refl|].
  do 4 run_step H. do 2 run_step H.
  inversion H; subst. by eapply copyPublicLocalSymbols_loop_same.
Qed.

Lemma _copyRedactedLocalSymbols_same {P : Pointer} self nl offset n self' nl' offset' :
  LinkeditOptimizer._copyRedactedLocalSymbols self nl offset
    = Some (n, self', nl', offset') ->
  same_commands self self'.
Proof.
  unfold LinkeditOptimizer._copyRedactedLocalSymbols. intros H.
  destruct (getSymbolsCache _) as [symbolsCache|];
    [|inversion H; subst; apply same_commands_refl].
  run_step H; [inversion H; subst; apply same_commands_refl|].
  do 2 run_step H. do 2 run_step H. do 2 run_step H.
  inversion H; subst. by eapply copyRedactedLocalSymbols_loop_same.
Qed.

(** C7, as amended.  On an image with a dysymtab command, let the public
    locals copied be [public] and the recovered redacted locals [redacted].
    If their sum is not zero, [copyLocalSymbols] leaves in [ilocalsym] the
    symbol count it started with and in [nlocalsym] the sum.  If the sum is
    zero, the pass writes nothing to the load commands: the memory of the
    process is as before, [ilocalsym] and [nlocalsym] with it. *)
Theorem copyLocalSymbols_fields {P : Pointer}
    (self : LinkeditOptimizer.t) (newLinkedit : mem) (offset : Z)
    (public redacted : Z) (self1 self2 self' : LinkeditOptimizer.t)
    (newLinkedit1 newLinkedit2 newLinkedit' : mem) (offset1 offset2 offset' : Z) :
  LinkeditOptimizer._dySymTab self ≠ nullptr ->
  0 <= LinkeditOptimizer._symbolsCount self < 2 ^ 32 ->
  LinkeditOptimizer._copyPublicLocalSymbols self newLinkedit offset
    = Some (public, self1, newLinkedit1, offset1) ->
  LinkeditOptimizer._copyRedactedLocalSymbols self1 newLinkedit1 offset1
    = Some (redacted, self2, newLinkedit2, offset2) ->
  LinkeditOptimizer.copyLocalSymbols self newLinkedit offset
    = Some (self', newLinkedit', offset') ->
  (wrap32 (public + redacted) ≠ 0 ->
     load32 (LinkeditOptimizer.ram self')
       (LinkeditOptimizer._dySymTab self + Loader.ilocalsym)
     = Some (LinkeditOptimizer._symbolsCount self)
     /\ load32 (LinkeditOptimizer.ram self')
          (LinkeditOptimizer._dySymTab self + Loader.nlocalsym)
        = Some (wrap32 (public + redacted)))
  /\ (wrap32 (public + redacted) = 0 ->
      LinkeditOptimizer.ram self' = LinkeditOptimizer.ram self).
Proof.
  intros Hdy Hsc Hpub Hred Hrun.
  unfold LinkeditOptimizer.copyLocalSymbols in Hrun.
  rewrite Hpub in Hrun. simpl in Hrun. rewrite Hred in Hrun. simpl in Hrun.
  destruct (_copyPublicLocalSymbols_same _ _ _ _ _ _ _ Hpub) as [Hram1 Hdy1].
  destruct (_copyRedactedLocalSymbols_same _ _ _ _ _ _ _ Hred) as [Hram2 Hdy2].
  rewrite Hdy2, Hdy1 in Hrun.
  destruct (decide (wrap32 (public + redacted) ≠ 0 /\ _)) as [[Hnz _]|Hz].
  - destruct (store32 _ _ _) as [ram1|] eqn:Hs1; simpl in Hrun; [|done].
    destruct (store32 ram1 _ _) as [ram2|] eqn:Hs2; simpl in Hrun; [|done].
    inversion Hrun; subst self' newLinkedit' offset'; clear Hrun. simpl.
    split; [|done]. intros _. split.
    + rewrite (load32_store32_other _ _ _ _ _ Hs2)
        by (unfold Loader.ilocalsym, Loader.nlocalsym; lia).
      rewrite (load32_store32 _ _ _ _ Hs1). by rewrite wrap32_small.
    + rewrite (load32_store32 _ _ _ _ Hs2). by rewrite wrap32_idemp.
  - inversion Hrun; subst self' newLinkedit' offset'; clear Hrun.
    split; [intros Hnz; exfalso; apply Hz; done|].
    intros _. by rewrite Hram2, Hram1.
Qed.

Lemma image_locals_foo_copied :
  locals_copied (P := Pointer64) image_optimizer_probed_foo image_newLinkedit 24
  = Some (1, 0).
Proof. vm_compute. reflexivity. Qed.

Lemma image_locals_foo_runs :
  (LinkeditOptimizer.copyLocalSymbols (P := Pointer64) image_optimizer_probed_foo
     image_newLinkedit 24 ≫= λ _, Some ()) = Some ().
Proof. vm_compute. reflexivity. Qed.

(** [_foo] taken as the one local symbol: it becomes the new symbol 1, after
    the placeholder. *)
Lemma copyLocalSymbols_fields_witness :
  match LinkeditOptimizer.copyLocalSymbols (P := Pointer64)
          image_optimizer_probed_foo image_newLinkedit 24 with
  | Some (self', _, _) =>
      load32 (LinkeditOptimizer.ram self') (FILE + 0x68 + Loader.ilocalsym) = Some 1
      /\ load32 (LinkeditOptimizer.ram self') (FILE + 0x68 + Loader.nlocalsym) = Some 1
  | None => False
  end.
Proof.
  pose proof image_locals_foo_copied as Hc. unfold locals_copied in Hc.
  destruct (LinkeditOptimizer.copyLocalSymbols _ _ _)
    as [[[self' newLinkedit'] offset']|] eqn:E.
  - destruct (LinkeditOptimizer._copyPublicLocalSymbols _ _ _)
      as [[[[public self1] newLinkedit1] offset1]|] eqn:E1; [|discriminate Hc].
    simpl in Hc.
    destruct (LinkeditOptimizer._copyRedactedLocalSymbols _ _ _)
      as [[[[redacted self2] newLinkedit2] offset2]|] eqn:E2; [|discriminate Hc].
    simpl in Hc. inversion Hc; subst public redacted.
    destruct (copyLocalSymbols_fields (P := Pointer64)
                image_optimizer_probed_foo image_newLinkedit 24 1 0
                self1 self2 self' newLinkedit1 newLinkedit2 newLinkedit'
                offset1 offset2 offset') as [Hnz _];
      [vm_compute; discriminate|vm_compute; split; [discriminate|reflexivity]
      |exact E1|exact E2|exact E|].
    apply Hnz. vm_compute; discriminate.
  - pose proof image_locals_foo_runs as Hruns. rewrite E in Hruns. discriminate.
Defined.

(** C7 as it is stated fails on the image: its one local symbol is
    ["<redacted>"] and the cache has no symbols file, so the pass copies no
    local (the symbol count and the cursor do not move); [ilocalsym] is still
    0, not the symbol count 1 that the pass started with, and [nlocalsym] is
    still 1, not 0. *)
Lemma copyLocalSymbols_no_locals_counterexample :
  exists ilocalsym nlocalsym count offset,
    locals_view image_before_locals = Some (0, 1, count, offset)
    /\ locals_view image_after_locals = Some (ilocalsym, nlocalsym, count, offset)
    /\ ~ (ilocalsym = count /\ nlocalsym = 0).
Proof.
  exists 0, 1, 1, 24.
  split; [vm_compute; reflexivity|]. split; [vm_compute; reflexivity|].
  intros [? _]. discriminate.
Qed.

(** ** Writing the pool *)

Lemma strlen_chars s : Z.of_nat (length (list_ascii_of_string s)) = strlen s.
Proof. unfold strlen. f_equal. induction s; simpl; congruence. Qed.

Lemma strlen_nonneg s : 0 <= strlen s.
Proof. unfold strlen. lia. Qed.

(** The loop writes inside the characters of the strings only. *)
Lemma write_all_frame dest strings :
  forall m m' a,
    write_all m dest strings = Some m' ->
    (forall o s, (o, s) ∈ strings -> ~ (dest + o <= a < dest + o + strlen s)) ->
    m' !! a = m !! a.
Proof.
  induction strings as [|[o s] rest IH]; intros m m' a Hrun Hout.
  - simpl in Hrun. by inversion Hrun.
  - cbn [write_all] in Hrun.
    destruct (store_bytes m (dest + o) (list_ascii_of_string s)) as [m1|] eqn:Hs;
      simpl in Hrun; [|done].
    rewrite (IH _ _ _ Hrun).
    + apply (store_bytes_other _ _ _ _ _ Hs). rewrite strlen_chars.
      specialize (Hout o s ltac:(left)). lia.
    + intros o' s' Hin. apply Hout. by right.
Qed.

(** With strings that do not overlap, every string is in the memory
    afterwards. *)
Lemma write_all_chars dest strings :
  forall m m',
    write_all m dest strings = Some m' ->
    NoDup strings ->
    (forall x y, x ∈ strings -> y ∈ strings -> x ≠ y ->
       x.1 + strlen x.2 <= y.1 \/ y.1 + strlen y.2 <= x.1) ->
    forall o s, (o, s) ∈ strings ->
      load_bytes m' (dest + o) (String.length s) = Some (list_ascii_of_string s).
Proof.
  induction strings as [|[o1 s1] rest IH]; intros m m' Hrun Hnd Hdis o s Hin.
  - by apply elem_of_nil in Hin.
  - cbn [write_all] in Hrun.
    destruct (store_bytes m (dest + o1) (list_ascii_of_string s1)) as [m1|] eqn:Hs;
      simpl in Hrun; [|done].
    apply NoDup_cons in Hnd as [Hnotin Hnd].
    apply elem_of_cons in Hin as [[= -> ->]|Hin].
    + pose proof (load_bytes_store_bytes _ _ _ _ Hs) as Hl.
      replace (length (list_ascii_of_string s1)) with (String.length s1) in Hl
        by (pose proof (strlen_chars s1); unfold strlen in *; lia).
      rewrite <- Hl. apply load_bytes_ext. intros x Hx.
      apply (write_all_frame _ _ _ _ _ Hrun). intros o' s' Hin'.
      destruct (Hdis (o1, s1) (o', s')) as [Hd|Hd];
        [by left|by right|intros [= -> ->]; done| |];
        simpl in Hd; unfold strlen in *; lia.
    + apply (IH _ _ Hrun Hnd); [|done].
      intros x y Hx Hy. apply Hdis; by right.
Qed.

#[global] Instance strings_le_total : Total strings_le.
Proof.
  intros [o1 s1] [o2 s2]. unfold strings_le. simpl.
  destruct (Z.lt_trichotomy o1 o2) as [?|[->|?]]; [by left; left| |by right; left].
  destruct (String.leb_total s1 s2); [left|right]; by right.
Qed.

(** The sorted vector holds the pairs of the map. *)
Lemma elem_of_sorted_entries sp o s :
  (o, s) ∈ merge_sort strings_le (pool_entries sp) <-> _pool sp !! s = Some o.
Proof.
  rewrite merge_sort_Permutation. unfold pool_entries.
  rewrite list_elem_of_fmap. split.
  - intros ([s' o'] & [= -> ->] & Hin). by apply elem_of_map_to_list.
  - intros H. exists (s, o). split; [done|]. by apply elem_of_map_to_list.
Qed.

Lemma NoDup_sorted_entries sp : NoDup (merge_sort strings_le (pool_entries sp)).
Proof.
  rewrite merge_sort_Permutation. unfold pool_entries.
  apply NoDup_fmap_2; [|apply NoDup_map_to_list].
  intros [s1 o1] [s2 o2] [= -> ->]. done.
Qed.

(** The last pair of a sorted vector has the greatest offset. *)
Lemma sorted_last_greatest (l : list (Z * string)) :
  Sorted strings_le l ->
  forall x, last l = Some x -> forall y, y ∈ l -> y.1 <= x.1.
Proof.
  induction 1 as [|a l Hs IH Hhd]; intros x Hlast y Hy.
  - by apply elem_of_nil in Hy.
  - destruct l as [|b l].
    + simpl in Hlast. inversion Hlast; subst.
      apply list_elem_of_singleton in Hy as ->. lia.
    + rewrite last_cons_cons in Hlast.
      apply elem_of_cons in Hy as [->|Hy]; [|by apply IH].
      apply HdRel_inv in Hhd.
      assert (a.1 <= b.1) by (destruct Hhd as [?|[? _]]; lia).
      assert (b.1 <= x.1) by (apply IH; [done|by left]). lia.
Qed.

Lemma pool_bytes_insert (pool : gmap string Z) s o L :
  pool !! s = None ->
  pool_bytes (mkStringPool (<[s := o]> pool) L)
  = pool_bytes (mkStringPool pool 0) + (strlen s + 1).
Proof.
  intros Hnone. unfold pool_bytes. simpl.
  rewrite map_fold_insert_L; [done| |done]. intros. lia.
Qed.

Lemma pool_bytes_length_irrel pool L1 L2 :
  pool_bytes (mkStringPool pool L1) = pool_bytes (mkStringPool pool L2).
Proof. done. Qed.

(** A pool built from the constructor's has this layout as long as its
    bytes are fewer than [2 ^ 32]. *)
Lemma reachable_inv sp : reachable sp -> pool_bytes sp < 2 ^ 32 -> pool_inv sp.
Proof.
  induction 1 as [|sp s Hr IH]; intros Hlt.
  - rewrite StringPool_new_eq. unfold pool_inv. simpl.
    split; [|split; [|split]].
    + intros s o [<- <-]%lookup_singleton_Some. done.
    + intros s1 o1 s2 o2 [<- <-]%lookup_singleton_Some
        [<- <-]%lookup_singleton_Some. done.
    + exists EmptyString, 0. split; [apply lookup_singleton_eq|done].
    + unfold pool_bytes. simpl. by rewrite map_fold_singleton.
  - revert Hlt. unfold addString.
    destruct (_pool sp !! s) eqn:Hnone; simpl; [exact IH|].
    destruct sp as [pool L]. simpl in *.
    rewrite (pool_bytes_insert _ _ _ _ Hnone).
    rewrite (pool_bytes_length_irrel pool 0 L).
    pose proof (strlen_nonneg s) as Hs. intros Hlt.
    destruct IH as (Hb & Hd & (s0 & o0 & Hs0 & Hend) & Hbytes); [lia|].
    simpl in *.
    pose proof (Hb _ _ Hs0) as [Ho0 _]. pose proof (strlen_nonneg s0).
    assert (wrap32 (L + wrap32 (wrap32 (strlen s) + 1)) = L + strlen s + 1) as ->.
    { rewrite (wrap32_small (strlen s)) by lia.
      rewrite (wrap32_small (strlen s + 1)) by lia.
      rewrite wrap32_small; lia. }
    unfold pool_inv. simpl. split; [|split; [|split]].
    + intros s' o'. destruct (decide (s = s')) as [->|Hne].
      * rewrite lookup_insert_eq. intros [= <-]. lia.
      * rewrite lookup_insert_ne by done. intros Hl.
        destruct (Hb _ _ Hl). lia.
    + intros s1 o1 s2 o2.
      destruct (decide (s1 = s)) as [->|Hne1];
        destruct (decide (s2 = s)) as [->|Hne2];
        rewrite ?lookup_insert_eq, ?lookup_insert_ne by done.
      * done.
      * intros [= <-] Hl _. destruct (Hb _ _ Hl). lia.
      * intros Hl [= <-] _. destruct (Hb _ _ Hl). lia.
      * apply Hd.
    + exists s, L. split; [apply lookup_insert_eq|lia].
    + rewrite (pool_bytes_insert _ _ _ _ Hnone).
      rewrite (pool_bytes_length_irrel pool 0 L). lia.
Qed.

(** The length that [writeStrings] returns is [_stringsLength]. *)
Lemma writeStrings_length sp m dest len m' :
  pool_inv sp -> _stringsLength sp < 2 ^ 32 ->
  writeStrings sp m dest = Some (len, m') ->
  len = _stringsLength sp.
Proof.
  intros (Hb & Hd & (s0 & o0 & Hs0 & Hend) & _) Hlt Hrun.
  unfold writeStrings in Hrun.
  destruct (write_all _ _ _) as [m1|]; simpl in Hrun; [|done].
  destruct (last _) as [[o s]|] eqn:Hlast; simpl in Hrun; [|done].
  inversion Hrun; subst len m'; clear Hrun.
  pose proof (last_Some_elem_of _ _ Hlast) as Hin.
  apply elem_of_sorted_entries in Hin.
  pose proof (sorted_last_greatest _ (Sorted_merge_sort _ _) _ Hlast (o0, s0)) as Hge.
  simpl in Hge. specialize (Hge ltac:(by apply elem_of_sorted_entries)).
  pose proof (Hb _ _ Hin) as [? ?]. pose proof (Hb _ _ Hs0) as [? ?].
  pose proof (strlen_nonneg s). pose proof (strlen_nonneg s0).
  assert (o + strlen s + 1 = _stringsLength sp) as Heq.
  { destruct (decide (s = s0)) as [->|Hne]; [congruence|].
    destruct (Hd _ _ _ _ Hin Hs0 Hne); lia. }
  rewrite wrap32_add_r, wrap32_add_l. rewrite wrap32_small; lia.
Qed.

(** C9.  [writeStrings] leaves every byte of the destination that is not
    one of the characters of a pooled string as it was.  For a pool built
    from the constructor's, of fewer than [2 ^ 32] bytes: the length
    returned is the sum over the strings of their length plus one; every
    string is in the destination at its offset; and the byte after it, where
    its terminator belongs, is as it was before the call, so that it is NUL
    only if the destination had a NUL there. *)
Theorem writeStrings_writes_characters_only
    (sp : StringPool) (m : mem) (dest len : Z) (m' : mem) :
  writeStrings sp m dest = Some (len, m') ->
  (forall a,
     (forall s o, _pool sp !! s = Some o ->
        ~ (dest + o <= a < dest + o + strlen s)) ->
     m' !! a = m !! a)
  /\ (reachable sp -> pool_bytes sp < 2 ^ 32 ->
      len = pool_bytes sp
      /\ forall s o, _pool sp !! s = Some o ->
           load_bytes m' (dest + o) (String.length s)
             = Some (list_ascii_of_string s)
           /\ m' !! (dest + o + strlen s) = m !! (dest + o + strlen s)).
Proof.
  intros Hrun.
  assert (exists m1, write_all m dest (merge_sort strings_le (pool_entries sp))
                     = Some m1 /\ m1 = m') as (m1 & Hw & ->).
  { unfold writeStrings in Hrun.
    destruct (write_all _ _ _) as [m1|]; simpl in Hrun; [|done].
    destruct (last _) as [[o s]|]; simpl in Hrun; [|done].
    inversion Hrun; subst. eauto. }
  assert (Hframe : forall a,
     (forall s o, _pool sp !! s = Some o ->
        ~ (dest + o <= a < dest + o + strlen s)) ->
     m' !! a = m !! a).
  { intros a Hout. apply (write_all_frame _ _ _ _ _ Hw).
    intros o s Hin. apply Hout. by apply elem_of_sorted_entries. }
  split; [exact Hframe|].
  intros Hreach Hlt.
  pose proof (reachable_inv _ Hreach Hlt) as Hinv.
  pose proof Hinv as (Hb & Hd & _ & Hbytes).
  split.
  { rewrite <- Hbytes. eapply writeStrings_length; [done|lia|done]. }
  intros s o Hin. split.
  - apply (write_all_chars _ _ _ _ Hw (NoDup_sorted_entries sp));
      [|by apply elem_of_sorted_entries].
    intros [o1 s1] [o2 s2] H1%elem_of_sorted_entries H2%elem_of_sorted_entries Hne.
    simpl. destruct (decide (s1 = s2)) as [->|Hs]; [congruence|].
    destruct (Hd _ _ _ _ H1 H2 Hs); lia.
  - apply Hframe. intros s' o' Hin'.
    destruct (decide (s = s')) as [->|Hs].
    + replace o' with o by congruence. lia.
    + pose proof (strlen_nonneg s). pose proof (strlen_nonneg s').
      destruct (Hd _ _ _ _ Hin Hin' Hs); lia.
Qed.

Lemma foo_bar_pool_written :
  (writeStrings foo_bar_pool dirty_buffer 2 ≫= λ _, Some ()) = Some ().
Proof. vm_compute. reflexivity. Qed.

(** Written at 2 in a buffer that is not zero: the length is 11, [_foo] is
    at 3, and the byte after it is not a terminator. *)
Lemma writeStrings_writes_characters_only_witness :
  match writeStrings foo_bar_pool dirty_buffer 2 with
  | Some (len, m') =>
      len = 11
      /\ load_bytes m' 3 4 = Some (bytes "_foo")
      /\ m' !! 7 = Some "255"%char
  | None => False
  end.
Proof.
  destruct (writeStrings foo_bar_pool dirty_buffer 2) as [[len m']|] eqn:E.
  - destruct (writeStrings_writes_characters_only _ _ _ _ _ E) as [_ H].
    destruct H as [Hlen Hs];
      [apply reachable_add, reachable_add, reachable_new|vm_compute; reflexivity|].
    destruct (Hs "_foo"%string 1) as [Hchars Hterm]; [vm_compute; reflexivity|].
    split; [rewrite Hlen; vm_compute; reflexivity|].
    split; [exact Hchars|].
    change (2 + 1 + strlen "_foo") with 7 in Hterm. rewrite Hterm.
    vm_compute. reflexivity.
  - pose proof foo_bar_pool_written as Hruns. rewrite E in Hruns. discriminate.
Defined.

(** In the buffer of [optimizeLinkedit], which [calloc] has set to zero, the
    same call leaves the strings with their terminators. *)
Lemma writeStrings_in_zeroed_buffer :
  ('(len, m') ← writeStrings foo_bar_pool (calloc 16) 2;
   bs ← load_bytes m' 2 11; Some (len, bs))
  = Some (11, zeros 1 ++ bytes "_foo" ++ zeros 1 ++ bytes "_bar" ++ zeros 1).
Proof. vm_compute. reflexivity. Qed.

(** ** Reading a C string *)

(** [c_str] fails only where the scan meets an address that is not mapped:
    its fuel cannot run out before that. *)
Lemma c_str_go_None fuel (m : mem) p :
  c_str_go fuel m p = None ->
  (exists k, 0 <= k < Z.of_nat fuel /\ m !! (p + k) = None)
  \/ (forall k, 0 <= k < Z.of_nat fuel -> is_Some (m !! (p + k))).
Proof.
  revert p. induction fuel as [|fuel IH]; intros p H.
  - right. intros k Hk. lia.
  - cbn [c_str_go] in H. destruct (m !! p) as [c|] eqn:Hc; simpl in H.
    + destruct (decide (c = zero)); [done|].
      destruct (c_str_go fuel m (p + 1)) eqn:Hgo; [done|].
      destruct (IH _ Hgo) as [(k & Hk & Hnone)|Hall].
      * left. exists (k + 1). split; [lia|]. rewrite <- Hnone. f_equal. lia.
      * right. intros k Hk. destruct (decide (k = 0)) as [->|].
        -- rewrite Z.add_0_r, Hc. eauto.
        -- replace (p + k) with (p + 1 + (k - 1)) by lia. apply Hall. lia.
    + left. exists 0. split; [lia|]. by rewrite Z.add_0_r.
Qed.

Lemma c_str_None (m : mem) p :
  c_str m p = None -> exists k, 0 <= k /\ m !! (p + k) = None.
Proof.
  intros H. destruct (c_str_go_None _ _ _ H) as [(k & Hk & Hnone)|Hall].
  - exists k. split; [lia|done].
  - exfalso.
    assert (list_to_set (seqZ p (Z.of_nat (S (size m)))) ⊆ dom m) as Hsub.
    { intros x Hx. apply elem_of_list_to_set, elem_of_seqZ in Hx.
      apply elem_of_dom. replace x with (p + (x - p)) by lia. apply Hall. lia. }
    apply subseteq_size in Hsub.
    rewrite size_list_to_set in Hsub by apply NoDup_seqZ.
    rewrite length_seqZ, size_dom in Hsub. lia.
Qed.

(** ** The offset fields *)

(** The passes that copy a region leave in its offset field the file offset
    of the LINKEDIT plus the cursor at which they wrote. *)
Lemma copyBindingInfo_off self nl offset self' nl' offset' size :
  LinkeditOptimizer._dyldInfo self ≠ nullptr ->
  load32 (LinkeditOptimizer.ram self)
    (LinkeditOptimizer._dyldInfo self + Loader.bind_size) = Some size ->
  size ≠ 0 ->
  LinkeditOptimizer.copyBindingInfo self nl offset = Some (self', nl', offset') ->
  load32 (LinkeditOptimizer.ram self')
    (LinkeditOptimizer._dyldInfo self + Loader.bind_off)
  = Some (wrap32 (LinkeditOptimizer._linkeditOffset self + offset)).
Proof.
  intros Hd Hsize Hnz H. unfold LinkeditOptimizer.copyBindingInfo in H.
  rewrite decide_False in H by done. rewrite Hsize in H. simpl in H.
  rewrite decide_True in H by done. do 3 run_step H.
  inversion H; subst. simpl. rewrite (load32_store32 _ _ _ _ E1).
  by rewrite wrap32_idemp.
Qed.

Lemma copyWeakBindingInfo_off self nl offset self' nl' offset' size :
  LinkeditOptimizer._dyldInfo self ≠ nullptr ->
  load32 (LinkeditOptimizer.ram self)
    (LinkeditOptimizer._dyldInfo self + Loader.weak_bind_size) = Some size ->
  size ≠ 0 ->
  LinkeditOptimizer.copyWeakBindingInfo self nl offset = Some (self', nl', offset') ->
  load32 (LinkeditOptimizer.ram self')
    (LinkeditOptimizer._dyldInfo self + Loader.weak_bind_off)
  = Some (wrap32 (LinkeditOptimizer._linkeditOffset self + offset)).
Proof.
  intros Hd Hsize Hnz H. unfold LinkeditOptimizer.copyWeakBindingInfo in H.
  rewrite decide_False in H by done. rewrite Hsize in H. simpl in H.
  rewrite decide_True in H by done. do 3 run_step H.
  inversion H; subst. simpl. rewrite (load32_store32 _ _ _ _ E1).
  by rewrite wrap32_idemp.
Qed.

Lemma copyLazyBindingInfo_off self nl offset self' nl' offset' size :
  LinkeditOptimizer._dyldInfo self ≠ nullptr ->
  load32 (LinkeditOptimizer.ram self)
    (LinkeditOptimizer._dyldInfo self + Loader.lazy_bind_size) = Some size ->
  size ≠ 0 ->
  LinkeditOptimizer.copyLazyBindingInfo self nl offset = Some (self', nl', offset') ->
  load32 (LinkeditOptimizer.ram self')
    (LinkeditOptimizer._dyldInfo self + Loader.lazy_bind_off)
  = Some (wrap32 (LinkeditOptimizer._linkeditOffset self + offset)).
Proof.
  intros Hd Hsize Hnz H. unfold LinkeditOptimizer.copyLazyBindingInfo in H.
  rewrite decide_False in H by done. rewrite Hsize in H. simpl in H.
  rewrite decide_True in H by done. do 3 run_step H.
  inversion H; subst. simpl. rewrite (load32_store32 _ _ _ _ E1).
  by rewrite wrap32_idemp.
Qed.

Lemma copyFunctionStarts_off self nl offset self' nl' offset' size :
  getLoadCommand_FUNCTION_STARTS (LinkeditOptimizer.mCtx self) ≠ nullptr ->
  load32 (LinkeditOptimizer.ram self)
    (getLoadCommand_FUNCTION_STARTS (LinkeditOptimizer.mCtx self) + Loader.datasize)
  = Some size ->
  size ≠ 0 ->
  LinkeditOptimizer.copyFunctionStarts self nl offset = Some (self', nl', offset') ->
  load32 (LinkeditOptimizer.ram self')
    (getLoadCommand_FUNCTION_STARTS (LinkeditOptimizer.mCtx self) + Loader.dataoff)
  = Some (wrap32 (LinkeditOptimizer._linkeditOffset self + offset)).
Proof.
  intros Hd Hsize Hnz H. unfold LinkeditOptimizer.copyFunctionStarts in H.
  rewrite decide_False in H by done. rewrite Hsize in H. simpl in H.
  rewrite decide_True in H by done. do 3 run_step H.
  inversion H; subst. simpl. rewrite (load32_store32 _ _ _ _ E1).
  by rewrite wrap32_idemp.
Qed.

Lemma copyDataInCode_off self nl offset self' nl' offset' size :
  getLoadCommand_DATA_IN_CODE (LinkeditOptimizer.mCtx self) ≠ nullptr ->
  load32 (LinkeditOptimizer.ram self)
    (getLoadCommand_DATA_IN_CODE (LinkeditOptimizer.mCtx self) + Loader.datasize)
  = Some size ->
  size ≠ 0 ->
  LinkeditOptimizer.copyDataInCode self nl offset = Some (self', nl', offset') ->
  load32 (LinkeditOptimizer.ram self')
    (getLoadCommand_DATA_IN_CODE (LinkeditOptimizer.mCtx self) + Loader.dataoff)
  = Some (wrap32 (LinkeditOptimizer._linkeditOffset self + offset)).
Proof.
  intros Hd Hsize Hnz H. unfold LinkeditOptimizer.copyDataInCode in H.
  rewrite decide_False in H by done. rewrite Hsize in H. simpl in H.
  rewrite decide_True in H by done. do 3 run_step H.
  inversion H; subst. simpl. rewrite (load32_store32 _ _ _ _ E1).
  by rewrite wrap32_idemp.
Qed.

Lemma copyIndirectSymbolTable_off self nl offset self' nl' offset' :
  LinkeditOptimizer._dySymTab self ≠ nullptr ->
  LinkeditOptimizer.copyIndirectSymbolTable self nl offset = Some (self', nl', offset') ->
  load32 (LinkeditOptimizer.ram self')
    (LinkeditOptimizer._dySymTab self + Loader.indirectsymoff)
  = Some (wrap32 (LinkeditOptimizer._linkeditOffset self + offset)).
Proof.
  intros Hd H. unfold LinkeditOptimizer.copyIndirectSymbolTable in H.
  rewrite decide_False in H by done. do 3 run_step H. run_step H. run_step H.
  inversion H; subst. simpl. rewrite (load32_store32 _ _ _ _ E2).
  by rewrite wrap32_idemp.
Qed.

Lemma copyStringPool_off self nl offset self' nl' offset' :
  LinkeditOptimizer.copyStringPool self nl offset = Some (self', nl', offset') ->
  load32 (LinkeditOptimizer.ram self')
    (LinkeditOptimizer._symTab self + Loader.stroff)
  = Some (wrap32 (LinkeditOptimizer._linkeditOffset self + offset)).
Proof.
  intros H. unfold LinkeditOptimizer.copyStringPool in H.
  do 2 run_step H. do 2 run_step H.
  inversion H; subst. simpl.
  rewrite (load32_store32_other _ _ _ _ _ E1)
    by (unfold Loader.stroff, Loader.strsize; lia).
  rewrite (load32_store32 _ _ _ _ E0). by rewrite wrap32_idemp.
Qed.

(** [copyExportInfo] has a result only for a call that finds nothing to
    copy, and such a call leaves everything as it was. *)
Lemma copyExportInfo_nothing self nl offset r :
  LinkeditOptimizer.copyExportInfo self nl offset = Some r ->
  r = (self, nl, offset).
Proof.
  unfold LinkeditOptimizer.copyExportInfo. intros H.
  destruct (decide (_ /\ _)); [by injection H as <-|].
  match type of H with
  | mbind _ ?x = Some _ =>
      destruct x as [[[data dataSize] dataFieldOff]|]; simpl in H;
      [|discriminate H]
  end.
  destruct (decide (dataSize ≠ 0)); [|by injection H as <-].
  run_step H. discriminate H.
Qed.

(** On the image, [optimizeLinkedit] puts the placeholder first among the
    symbols. *)
Lemma image_placeholder_first :
  image_new_first_symbol = Some (nlist_64 1 1 0 0 0).
Proof. vm_compute. reflexivity. Qed.

(** ** The passes return when the memory they touch is mapped *)

Lemma store_bytes_Some m a bs :
  (forall x, a <= x < a + Z.of_nat (length bs) -> is_Some (m !! x)) ->
  is_Some (store_bytes m a bs).
Proof.
  revert m a. induction bs as [|b bs IH]; intros m a H; simpl; [eauto|].
  destruct (H a) as [c Hc]; [simpl; lia|]. rewrite Hc.
  apply IH. intros x Hx. destruct (decide (a = x)) as [->|Hne].
  - rewrite lookup_insert_eq. eauto.
  - rewrite lookup_insert_ne by done. apply H. simpl. lia.
Qed.

Lemma load32_Some m a :
  (forall x, a <= x < a + 4 -> is_Some (m !! x)) -> is_Some (load32 m a).
Proof.
  intros H. unfold load32.
  destruct (load_bytes_Some m a 4) as [bs ->]; [intros; apply H; lia|].
  simpl. eauto.
Qed.

Lemma store32_Some m a v :
  (forall x, a <= x < a + 4 -> is_Some (m !! x)) -> is_Some (store32 m a v).
Proof.
  intros H. unfold store32. apply store_bytes_Some.
  rewrite le_encode_length. intros; apply H; lia.
Qed.

Lemma store32_mapped m a v m' x :
  store32 m a v = Some m' -> is_Some (m' !! x) <-> is_Some (m !! x).
Proof. apply store_bytes_mapped. Qed.

(** The loop of [copyIndirectSymbolTable] returns when the old table lies
    in mapped memory and the buffer has room for the new one. *)
Lemma copyIndirect_loop_runs m entries newEntries n :
  forall entryIndex (remap : gmap Z Z) (newLinkedit : mem),
    (forall x, entries + 4 * entryIndex <= x
               < entries + 4 * (entryIndex + Z.of_nat n) -> is_Some (m !! x)) ->
    (forall x, newEntries + 4 * entryIndex <= x
               < newEntries + 4 * (entryIndex + Z.of_nat n) ->
       is_Some (newLinkedit !! x)) ->
    is_Some (LinkeditOptimizer.copyIndirect_loop m n entries newEntries entryIndex
               remap newLinkedit).
Proof.
  induction n as [|n IH]; intros entryIndex remap nl Hold Hnew; [simpl; eauto|].
  cbn [LinkeditOptimizer.copyIndirect_loop].
  destruct (load32_Some m (entries + 4 * entryIndex)) as [e ->];
    [intros; apply Hold; lia|]. simpl.
  assert (exists nl1,
            (if decide (e = INDIRECT_SYMBOL_ABS \/ e = INDIRECT_SYMBOL_LOCAL \/ e = 0)
             then store32 nl (newEntries + 4 * entryIndex) e else Some nl) = Some nl1
            /\ forall x, is_Some (nl1 !! x) <-> is_Some (nl !! x))
    as (nl1 & -> & Hm1).
  { destruct (decide _); [|by eauto].
    destruct (store32_Some nl (newEntries + 4 * entryIndex) e) as [nl1 Hs];
      [intros; apply Hnew; lia|].
    exists nl1. split; [done|]. intros x. by apply (store32_mapped _ _ _ _ _ Hs). }
  simpl. destruct (map_subscript remap e) as [v remap1].
  destruct (store32_Some nl1 (newEntries + 4 * entryIndex) v) as [nl2 Hs2];
    [intros; apply Hm1, Hnew; lia|].
  rewrite Hs2. simpl. apply IH.
  - intros x Hx. apply Hold. lia.
  - intros x Hx. apply (store32_mapped _ _ _ _ _ Hs2), Hm1, Hnew. lia.
Qed.

Lemma copyIndirectSymbolTable_runs self newLinkedit offset
    indirectsymoff nindirectsyms :
  load32 (LinkeditOptimizer.ram self)
    (LinkeditOptimizer._dySymTab self + Loader.indirectsymoff) = Some indirectsymoff ->
  load32 (LinkeditOptimizer.ram self)
    (LinkeditOptimizer._dySymTab self + Loader.nindirectsyms) = Some nindirectsyms ->
  (forall x, LinkeditOptimizer._linkeditFile self + indirectsymoff <= x
             < LinkeditOptimizer._linkeditFile self + indirectsymoff
               + 4 * nindirectsyms ->
     is_Some (LinkeditOptimizer.ram self !! x)) ->
  (forall x, offset <= x < offset + 4 * nindirectsyms ->
     is_Some (newLinkedit !! x)) ->
  is_Some (LinkeditOptimizer.copyIndirectSymbolTable self newLinkedit offset).
Proof.
  intros Hoff Hn Hold Hnew. unfold LinkeditOptimizer.copyIndirectSymbolTable.
  destruct (decide _); [eauto|].
  rewrite Hoff. simpl. rewrite Hn. simpl.
  pose proof (load32_range _ _ _ Hn) as Hr.
  destruct (copyIndirect_loop_runs (LinkeditOptimizer.ram self)
              (LinkeditOptimizer._linkeditFile self + indirectsymoff) offset
              (Z.to_nat nindirectsyms) 0 (LinkeditOptimizer._newSymbolIndicies self)
              newLinkedit) as [[remap' nl'] ->].
  - intros x Hx. apply Hold. lia.
  - intros x Hx. apply Hnew. lia.
  - simpl.
    destruct (store32_Some (LinkeditOptimizer.ram self)
                (LinkeditOptimizer._dySymTab self + Loader.indirectsymoff)
                (wrap32 (LinkeditOptimizer._linkeditOffset self + offset)))
      as [ram' ->]; [|simpl; eauto].
    intros x Hx. unfold load32 in Hoff.
    destruct (load_bytes _ _ 4) as [bs|] eqn:Hb; [|done].
    replace x with (LinkeditOptimizer._dySymTab self + Loader.indirectsymoff
                    + Z.of_nat (Z.to_nat (x - (LinkeditOptimizer._dySymTab self
                                                 + Loader.indirectsymoff)))) by lia.
    rewrite (load_bytes_lookup _ _ _ _ _ Hb) by lia.
    apply lookup_lt_is_Some_2. apply load_bytes_length in Hb. lia.
Qed.

(** [writeStrings] returns for a pool built from the constructor's when the
    destination has room for its strings. *)
Lemma write_all_runs dest strings :
  forall m,
    (forall o s x, (o, s) ∈ strings -> dest + o <= x < dest + o + strlen s ->
       is_Some (m !! x)) ->
    is_Some (write_all m dest strings).
Proof.
  induction strings as [|[o s] rest IH]; intros m H; [simpl; eauto|].
  cbn [write_all].
  destruct (store_bytes_Some m (dest + o) (list_ascii_of_string s)) as [m1 Hs].
  { intros x Hx. rewrite strlen_chars in Hx. apply (H o s); [by left|done]. }
  rewrite Hs. simpl. apply IH. intros o' s' x Hin Hx.
  apply (store_bytes_mapped _ _ _ _ _ Hs). apply (H o' s'); [by right|done].
Qed.

Lemma writeStrings_runs sp m dest :
  reachable sp ->
  (forall s o x, _pool sp !! s = Some o -> dest + o <= x < dest + o + strlen s ->
     is_Some (m !! x)) ->
  is_Some (writeStrings sp m dest).
Proof.
  intros Hreach Hmapped. unfold writeStrings.
  destruct (write_all_runs dest (merge_sort strings_le (pool_entries sp)) m)
    as [m' ->].
  { intros o s x Hin. apply Hmapped. by apply elem_of_sorted_entries. }
  simpl. destruct (last _) as [[o s]|] eqn:Hlast; [simpl; eauto|].
  apply last_None in Hlast.
  pose proof (reachable_empty_string _ Hreach) as Hin.
  apply elem_of_sorted_entries in Hin. rewrite Hlast in Hin.
  by apply elem_of_nil in Hin.
Qed.

(** [searchRedactedSymbol] returns when the dysymtab command and the old
    table are mapped and the buffer has room for the five bytes written. *)
Lemma count_redacted_runs m indirectSymStart n :
  forall i count,
    (forall x, indirectSymStart + i * 4 <= x
               < indirectSymStart + (i + Z.of_nat n) * 4 -> is_Some (m !! x)) ->
    is_Some (LinkeditOptimizer.count_redacted m indirectSymStart n i count).
Proof.
  induction n as [|n IH]; intros i count H; [simpl; eauto|].
  cbn [LinkeditOptimizer.count_redacted].
  destruct (load32_Some m (indirectSymStart + i * 4)) as [v ->];
    [intros; apply H; lia|].
  simpl. apply IH. intros x Hx. apply H. lia.
Qed.

Lemma searchRedactedSymbol_runs {P : Pointer} self newLinkedit offset
    indirectsymoff nindirectsyms :
  load32 (LinkeditOptimizer.ram self)
    (LinkeditOptimizer._dySymTab self + Loader.indirectsymoff) = Some indirectsymoff ->
  load32 (LinkeditOptimizer.ram self)
    (LinkeditOptimizer._dySymTab self + Loader.nindirectsyms) = Some nindirectsyms ->
  (forall x, LinkeditOptimizer._linkeditFile self + indirectsymoff <= x
             < LinkeditOptimizer._linkeditFile self + indirectsymoff
               + 4 * nindirectsyms ->
     is_Some (LinkeditOptimizer.ram self !! x)) ->
  (forall x, offset <= x < offset + 5 -> is_Some (newLinkedit !! x)) ->
  is_Some (LinkeditOptimizer.searchRedactedSymbol self newLinkedit offset).
Proof.
  intros Hoff Hn Hold Hnew. unfold LinkeditOptimizer.searchRedactedSymbol.
  rewrite Hoff. simpl. rewrite Hn. simpl.
  pose proof (load32_range _ _ _ Hn) as Hr.
  destruct (count_redacted_runs (LinkeditOptimizer.ram self)
              (LinkeditOptimizer._linkeditFile self + indirectsymoff)
              (Z.to_nat nindirectsyms) 0
              (LinkeditOptimizer._redactedSymbolsCount self)) as [count ->].
  { intros x Hx. apply Hold. lia. }
  simpl. destruct (decide _); [|eauto].
  destruct (addString _ _) as [strIndex pool].
  destruct (store32_Some newLinkedit (offset + Loader.n_strx) strIndex) as [nl1 Hs1].
  { intros x Hx. apply Hnew. unfold Loader.n_strx in *. lia. }
  rewrite Hs1. simpl.
  destruct (store_bytes_Some nl1 (offset + Loader.n_type) (le_encode 1 1)) as [nl2 Hs2].
  { intros x Hx. apply (store32_mapped _ _ _ _ _ Hs1), Hnew.
    unfold Loader.n_type in *. simpl in Hx. lia. }
  unfold store8. rewrite Hs2. simpl. eauto.
Qed.

(** * Further properties of the code *)

(** ** Copies between memories *)

Lemma load_bytes_shift (m1 m2 : mem) a b n :
  (forall i, 0 <= i < Z.of_nat n -> m1 !! (a + i) = m2 !! (b + i)) ->
  load_bytes m1 a n = load_bytes m2 b n.
Proof.
  revert a b. induction n as [|n IH]; intros a b H; [done|].
  simpl. rewrite <- (Z.add_0_r a), <- (Z.add_0_r b), (H 0) by lia.
  rewrite !Z.add_0_r. rewrite (IH (a + 1) (b + 1)); [done|].
  intros i Hi. rewrite <- !Z.add_assoc. apply H. lia.
Qed.

Lemma load_bytes_Some_lookup (m : mem) a n bs i :
  load_bytes m a n = Some bs -> 0 <= i < Z.of_nat n ->
  is_Some (m !! (a + i)).
Proof.
  intros H Hi. replace i with (Z.of_nat (Z.to_nat i)) by lia.
  rewrite (load_bytes_lookup _ _ _ _ _ H) by lia.
  apply lookup_lt_is_Some_2. apply load_bytes_length in H. lia.
Qed.

(** [memcpy(dst, src, n)] that returns: [n] is not negative, the [n] bytes
    at [dst] are those that were at [src], and the rest of the destination
    is as before. *)
Lemma memcpy_spec (d : mem) dst (s : mem) src n d' :
  memcpy d dst s src n = Some d' ->
  0 <= n
  /\ (forall i, 0 <= i < n -> d' !! (dst + i) = s !! (src + i))
  /\ (forall x, x < dst \/ dst + n <= x -> d' !! x = d !! x)
  /\ (forall x, is_Some (d' !! x) <-> is_Some (d !! x)).
Proof.
  unfold memcpy. intros H. destruct (decide (n < 0)); [done|].
  destruct (load_bytes s src (Z.to_nat n)) as [bs|] eqn:Hl; simpl in H; [|done].
  pose proof (load_bytes_length _ _ _ _ Hl) as Hlen.
  split; [lia|]. split; [|split].
  - intros i Hi. replace i with (Z.of_nat (Z.to_nat i)) by lia.
    rewrite (store_bytes_lookup _ _ _ _ _ H) by lia.
    symmetry. apply (load_bytes_lookup _ _ _ _ _ Hl). lia.
  - intros x Hx. apply (store_bytes_other _ _ _ _ _ H). lia.
  - intros x. apply (store_bytes_mapped _ _ _ _ _ H).
Qed.

Lemma memset_spec (m : mem) dst c n m' :
  memset m dst c n = Some m' ->
  0 <= n
  /\ (forall i, 0 <= i < n -> m' !! (dst + i) = Some (byte_of_Z c))
  /\ (forall x, x < dst \/ dst + n <= x -> m' !! x = m !! x).
Proof.
  unfold memset. intros H. destruct (decide (n < 0)); [done|].
  split; [lia|]. split.
  - intros i Hi. replace i with (Z.of_nat (Z.to_nat i)) by lia.
    rewrite (store_bytes_lookup _ _ _ _ _ H) by (rewrite length_replicate; lia).
    apply lookup_replicate_2. lia.
  - intros x Hx. apply (store_bytes_other _ _ _ _ _ H).
    rewrite length_replicate. lia.
Qed.

(** ** The registry of the tracker *)

Lemma HdRel_lower_bound_insert a l d :
  HdRel data_le a l -> data_le a d ->
  HdRel data_le a (LinkeditTracker.lower_bound_insert l d).
Proof.
  intros Hl Hd. destruct l as [|b l]; simpl; [by constructor|].
  destruct (decide _); constructor; [by inversion Hl|done].
Qed.

Lemma lower_bound_insert_Sorted l d :
  Sorted data_le l -> Sorted data_le (LinkeditTracker.lower_bound_insert l d).
Proof.
  induction 1 as [|a l Hs IH Hhd]; simpl; [by repeat constructor|].
  destruct (decide _) as [Hlt|Hge].
  - constructor; [done|]. apply HdRel_lower_bound_insert; [done|].
    unfold data_le. lia.
  - constructor; [by constructor|]. constructor. unfold data_le. lia.
Qed.

Lemma lower_bound_insert_Permutation l d :
  LinkeditTracker.lower_bound_insert l d ≡ₚ d :: l.
Proof.
  induction l as [|a l IH]; simpl; [done|].
  destruct (decide _); [|done]. rewrite IH. apply Permutation_swap.
Qed.

(** X1.  [trackData] keeps the registry in the order of the [data] pointers
    when it was in that order, and adds the region and nothing else; the new
    region goes behind the regions with a smaller [data] pointer and before
    the regions with the same one. *)
Theorem trackData_sorted (self : LinkeditTracker.t) (d : LinkeditData.t) :
  Sorted data_le (LinkeditTracker.trackingData self) ->
  Sorted data_le (LinkeditTracker.trackingData (LinkeditTracker.trackData self d))
  /\ LinkeditTracker.trackingData (LinkeditTracker.trackData self d)
     ≡ₚ d :: LinkeditTracker.trackingData self
  /\ exists before after,
       LinkeditTracker.trackingData self = before ++ after
       /\ LinkeditTracker.trackingData (LinkeditTracker.trackData self d)
          = before ++ d :: after
       /\ Forall (λ a, LinkeditData.data a < LinkeditData.data d) before
       /\ Forall (λ a, LinkeditData.data d <= LinkeditData.data a) after.
Proof.
  intros Hs. unfold LinkeditTracker.trackData. simpl.
  split; [by apply lower_bound_insert_Sorted|].
  split; [apply lower_bound_insert_Permutation|].
  induction Hs as [|a l Hs IH Hhd]; simpl.
  - exists [], []. repeat split; constructor.
  - destruct (decide _) as [Hlt|Hge].
    + destruct IH as (before & after & -> & -> & Hb & Ha).
      exists (a :: before), after. repeat split; [by constructor|done].
    + exists [], (a :: l). repeat split; [constructor|].
      constructor; [lia|].
      assert (Forall (data_le a) l) as Hall.
      { assert (StronglySorted data_le (a :: l)) as Hss.
        { apply Sorted_StronglySorted; [intros x y z; unfold data_le; lia|].
          by constructor. }
        by inversion Hss. }
      eapply Forall_impl; [exact Hall|]. unfold data_le. intros; simpl in *. lia.
Qed.



Lemma shiftDelta_of_bounds (dataSize : Z) :
  0 <= dataSize -> dataSize + 8 < 2 ^ 32 ->
  dataSize < LinkeditTracker.shiftDelta_of dataSize <= dataSize + 8.
Proof.
  intros H0 H1. rewrite shiftDelta_of_spec by done.
  pose proof (Z.div_mod dataSize 8 ltac:(lia)).
  pose proof (Z.mod_pos_bound dataSize 8 ltac:(lia)). lia.
Qed.

(** X2.  The number of bytes that [insertLinkeditData] reserves is a multiple
    of 8 for every payload size; for a size below [2 ^ 32 - 8] it is above
    the size, by 8 at most, so that a zero byte always follows the
    payload. *)
Theorem shiftDelta_of_multiple_of_8 (dataSize : Z) :
  LinkeditTracker.shiftDelta_of dataSize mod 8 = 0
  /\ (0 <= dataSize -> dataSize + 8 < 2 ^ 32 ->
      dataSize < LinkeditTracker.shiftDelta_of dataSize <= dataSize + 8).
Proof.
  split; [|apply shiftDelta_of_bounds].
  unfold LinkeditTracker.shiftDelta_of, wrap32.
  pose proof (Z.div_mod dataSize 8 ltac:(lia)) as Hd.
  replace (dataSize + (8 - dataSize mod 8)) with (8 * (dataSize / 8 + 1)) by lia.
  change (2 ^ 32) with (8 * 2 ^ 29).
  rewrite Zmult_mod_distr_l. by rewrite Z.mul_comm, Z.mod_mul.
Qed.

Lemma shiftDelta_of_multiple_of_8_witness :
  13 < LinkeditTracker.shiftDelta_of 13 <= 13 + 8.
Proof.
  destruct (shiftDelta_of_multiple_of_8 13) as [_ H]. apply H; [lia|reflexivity].
Defined.

(** The loop "Update tracking data": what it does to the registry and to
    the memory. *)
Lemma shift_tracked_spec shiftStart shiftDelta l :
  forall (m : mem) l' m',
    LinkeditTracker.shift_tracked m shiftStart shiftDelta l = Some (l', m') ->
    l' = shifted shiftStart shiftDelta <$> l
    /\ (forall x,
          (forall t, t ∈ l -> LinkeditData.data t >= shiftStart ->
             ~ (LinkeditData.offset t <= x < LinkeditData.offset t + 4)) ->
          m' !! x = m !! x)
    /\ (ForallOrdPairs fields_apart l ->
        forall t v, t ∈ l -> load32 m (LinkeditData.offset t) = Some v ->
          load32 m' (LinkeditData.offset t)
          = Some (if decide (LinkeditData.data t >= shiftStart)
                  then wrap32 (v + shiftDelta) else v)).
Proof.
  induction l as [|t0 rest IH]; intros m l' m' Hrun.
  - simpl in Hrun. inversion Hrun; subst. split; [done|]. split; [done|].
    intros _ t v Ht. by apply elem_of_nil in Ht.
  - cbn [LinkeditTracker.shift_tracked] in Hrun.
    assert (exists m1 rest',
              LinkeditTracker.shift_tracked m1 shiftStart shiftDelta rest
              = Some (rest', m')
              /\ l' = shifted shiftStart shiftDelta t0 :: rest'
              /\ (forall x, (LinkeditData.data t0 >= shiftStart ->
                             ~ (LinkeditData.offset t0 <= x
                                < LinkeditData.offset t0 + 4)) ->
                    m1 !! x = m !! x)
              /\ (forall v, load32 m (LinkeditData.offset t0) = Some v ->
                    load32 m1 (LinkeditData.offset t0)
                    = Some (if decide (LinkeditData.data t0 >= shiftStart)
                            then wrap32 (v + shiftDelta) else v)))
      as (m1 & rest' & Hrest & -> & Hfr0 & Hv0).
    { unfold shifted. destruct (decide (LinkeditData.data t0 >= shiftStart)) as [Hge|Hlt].
      - destruct (load32 m (LinkeditData.offset t0)) as [v|] eqn:Hv;
          simpl in Hrun; [|done].
        destruct (store32 m _ _) as [m1|] eqn:Hs; simpl in Hrun; [|done].
        destruct (LinkeditTracker.shift_tracked m1 _ _ rest) as [[rest' m2]|] eqn:Hr;
          simpl in Hrun; [|done].
        inversion Hrun; subst. exists m1, rest'. split; [done|]. split; [done|].
        split.
        + intros x Hx. apply (store32_other _ _ _ _ _ Hs). specialize (Hx Hge). lia.
        + intros v' [= <-]. rewrite (load32_store32 _ _ _ _ Hs).
          by rewrite wrap32_idemp.
      - destruct (LinkeditTracker.shift_tracked m _ _ rest) as [[rest' m2]|] eqn:Hr;
          simpl in Hrun; [|done].
        inversion Hrun; subst. exists m, rest'. done. }
    destruct (IH _ _ _ Hrest) as (-> & Hfr & Hv).
    split; [done|]. split.
    + intros x Hx. rewrite Hfr.
      * apply Hfr0. intros Hge. apply Hx; [by left|done].
      * intros t Ht. apply Hx. by right.
    + intros Hap t v Ht Hl. inversion Hap as [|? ? Hhd Htl]; subst.
      apply elem_of_cons in Ht as [->|Ht].
      * rewrite (load32_ext m' m1); [by apply Hv0|].
        intros x Hx. apply Hfr. intros t Ht _.
        rewrite Forall_forall in Hhd.
        specialize (Hhd t Ht).
        unfold fields_apart in Hhd. lia.
      * apply (Hv Htl); [done|]. rewrite <- Hl. apply load32_ext.
        intros x Hx. apply Hfr0. intros _.
        rewrite Forall_forall in Hhd.
        specialize (Hhd t Ht).
        unfold fields_apart in Hhd. lia.
Qed.

(** The steps of an insertion that was made. *)
Lemma insertLinkeditData_steps self m after data self' m' :
  LinkeditTracker.insertLinkeditData self m after data = Some (true, self', m') ->
  let shiftStart := shiftStart_of self after in
  let shiftDelta := LinkeditTracker.shiftDelta_of (LinkeditData.dataSize data) in
  let lastDataEnd := LinkeditTracker.lastDataEnd self in
  lastDataEnd + shiftDelta <= LinkeditTracker._linkeditEnd self
  /\ exists m1 m2 m3 td,
       memmove m (shiftStart + shiftDelta) shiftStart (lastDataEnd - shiftStart)
       = Some m1
       /\ LinkeditTracker.shift_tracked m1 shiftStart shiftDelta
            (LinkeditTracker.trackingData self) = Some (td, m2)
       /\ memset m2 (shiftStart + shiftDelta - 8) 0 8 = Some m3
       /\ memcpy m3 shiftStart m3 (LinkeditData.data data)
            (LinkeditData.dataSize data) = Some m'
       /\ self' = LinkeditTracker.trackData
                    (LinkeditTracker.set_trackingData self td)
                    (LinkeditData (LinkeditData.offset data) shiftStart shiftDelta).
Proof.
  unfold LinkeditTracker.insertLinkeditData. intros H.
  destruct (decide _) as [?|Hroom] in H; [done|].
  fold (shiftStart_of self after) in H.
  destruct (memmove _ _ _ _) as [m1|] eqn:H1; simpl in H; [|done].
  destruct (LinkeditTracker.shift_tracked _ _ _ _) as [[td m2]|] eqn:H2;
    simpl in H; [|done].
  destruct (memset _ _ _ _) as [m3|] eqn:H3; simpl in H; [|done].
  destruct (memcpy m3 _ _ _ _) as [m4|] eqn:H4; simpl in H; [|done].
  inversion H; subst. simpl. split; [lia|]. by exists m1, m2, m3, td.
Qed.

Lemma shifted_Sorted shiftStart shiftDelta l :
  0 <= shiftDelta -> Sorted data_le l ->
  Sorted data_le (shifted shiftStart shiftDelta <$> l).
Proof.
  intros Hd. induction 1 as [|a l Hs IH Hhd]; simpl; [constructor|].
  constructor; [done|]. destruct Hhd as [|b l Hab]; simpl; constructor.
  unfold data_le, shifted in *.
  repeat destruct (decide _); simpl; lia.
Qed.

(** X3.  An insertion that is made leaves the registry in the order of the
    [data] pointers if it was in that order: it holds the regions it held,
    those at or after the place of insertion moved up by the shift, and the
    new region with the shift as its size; and the regions moved up still
    end within the LINKEDIT. *)
Theorem insertLinkeditData_registry
    (self : LinkeditTracker.t) (m : mem) (after : option LinkeditData.t)
    (data : LinkeditData.t) (self' : LinkeditTracker.t) (m' : mem) :
  LinkeditTracker.insertLinkeditData self m after data = Some (true, self', m') ->
  Sorted data_le (LinkeditTracker.trackingData self) ->
  Sorted data_le (LinkeditTracker.trackingData self')
  /\ LinkeditTracker.trackingData self'
     ≡ₚ LinkeditData (LinkeditData.offset data) (shiftStart_of self after)
          (LinkeditTracker.shiftDelta_of (LinkeditData.dataSize data))
        :: (shifted (shiftStart_of self after)
              (LinkeditTracker.shiftDelta_of (LinkeditData.dataSize data))
            <$> LinkeditTracker.trackingData self)
  /\ LinkeditTracker.lastDataEnd self
     + LinkeditTracker.shiftDelta_of (LinkeditData.dataSize data)
     <= LinkeditTracker._linkeditEnd self.
Proof.
  intros Hrun Hs.
  destruct (insertLinkeditData_steps _ _ _ _ _ _ Hrun)
    as (Hroom & m1 & m2 & m3 & td & _ & H2 & _ & _ & ->).
  destruct (shift_tracked_spec _ _ _ _ _ _ H2) as (-> & _).
  unfold LinkeditTracker.trackData. simpl.
  split; [|split; [apply lower_bound_insert_Permutation|done]].
  apply lower_bound_insert_Sorted, shifted_Sorted; [|done].
  apply wrap32_range.
Qed.



(** X4.  The memory after an insertion that is made, when the offset fields
    of the tracked regions lie outside the bytes that move: the bytes from
    the place of insertion to the end of the last region are found the
    shift further up; the bytes between the payload and the data moved up
    are zero; the payload is at the place of insertion, when it was read
    from bytes that the insertion does not write; all other bytes but
    the offset fields are as before. *)
Theorem insertLinkeditData_memory
    (self : LinkeditTracker.t) (m : mem) (after : option LinkeditData.t)
    (data : LinkeditData.t) (self' : LinkeditTracker.t) (m' : mem) :
  let shiftStart := shiftStart_of self after in
  let shiftDelta := LinkeditTracker.shiftDelta_of (LinkeditData.dataSize data) in
  let lastDataEnd := LinkeditTracker.lastDataEnd self in
  LinkeditTracker.insertLinkeditData self m after data = Some (true, self', m') ->
  0 <= LinkeditData.dataSize data -> LinkeditData.dataSize data + 8 < 2 ^ 32 ->
  (forall t, t ∈ LinkeditTracker.trackingData self ->
     LinkeditData.offset t + 4 <= shiftStart
     \/ lastDataEnd + shiftDelta <= LinkeditData.offset t) ->
  (forall i, 0 <= i < lastDataEnd - shiftStart ->
     m' !! (shiftStart + shiftDelta + i) = m !! (shiftStart + i))
  /\ (forall a, shiftStart + LinkeditData.dataSize data <= a < shiftStart + shiftDelta ->
        m' !! a = Some zero)
  /\ ((LinkeditData.data data + LinkeditData.dataSize data <= shiftStart
       \/ lastDataEnd + shiftDelta <= LinkeditData.data data) ->
      (forall t, t ∈ LinkeditTracker.trackingData self ->
         LinkeditData.offset t + 4 <= LinkeditData.data data
         \/ LinkeditData.data data + LinkeditData.dataSize data
            <= LinkeditData.offset t) ->
      forall i, 0 <= i < LinkeditData.dataSize data ->
        m' !! (shiftStart + i) = m !! (LinkeditData.data data + i))
  /\ (forall x, x < shiftStart \/ lastDataEnd + shiftDelta <= x ->
        (forall t, t ∈ LinkeditTracker.trackingData self ->
           ~ (LinkeditData.offset t <= x < LinkeditData.offset t + 4)) ->
        m' !! x = m !! x).
Proof.
  intros ss sd le Hrun H0 H1 Hfields.
  destruct (insertLinkeditData_steps _ _ _ _ _ _ Hrun)
    as (Hroom & m1 & m2 & m3 & td & Hm1 & Hm2 & Hm3 & Hm' & _).
  fold ss sd le in Hroom, Hm1, Hm2, Hm3, Hm'.
  destruct (shiftDelta_of_bounds _ H0 H1) as [Hsd1 Hsd2].
  fold sd in Hsd1, Hsd2.
  assert (Hsd8 : 8 <= sd).
  { unfold sd. rewrite shiftDelta_of_spec by done.
    pose proof (Z.div_pos (LinkeditData.dataSize data) 8 H0 ltac:(lia)). lia. }
  destruct (memcpy_spec _ _ _ _ _ _ Hm1) as (Hn & Hmv & Hmvf & _).
  destruct (shift_tracked_spec _ _ _ _ _ _ Hm2) as (_ & Hsf & _).
  destruct (memset_spec _ _ _ _ _ Hm3) as (_ & Hz & Hzf).
  destruct (memcpy_spec _ _ _ _ _ _ Hm') as (_ & Hcp & Hcpf & _).
  assert (Hout : forall x, x < ss \/ le + sd <= x ->
            (forall t, t ∈ LinkeditTracker.trackingData self ->
               ~ (LinkeditData.offset t <= x < LinkeditData.offset t + 4)) ->
            m3 !! x = m !! x).
  { intros x Hx Hnf. rewrite Hzf by lia. rewrite Hsf.
    - apply Hmvf. lia.
    - intros t Ht _. by apply Hnf. }
  split; [|split; [|split]].
  - intros i Hi. rewrite Hcpf by lia. rewrite Hzf by lia. rewrite Hsf.
    + apply Hmv. lia.
    + intros t Ht _. specialize (Hfields t Ht). lia.
  - intros a Ha. rewrite Hcpf by lia.
    replace a with (ss + sd - 8 + (a - (ss + sd - 8))) by lia.
    rewrite Hz by lia. reflexivity.
  - intros Hsrc Hsrcf i Hi. rewrite Hcp by done. apply Hout; [lia|].
    intros t Ht. specialize (Hsrcf t Ht). lia.
  - intros x Hx Hnf. rewrite Hcpf by lia. by apply Hout.
Qed.



(** X5.  After an insertion that is made, the offset field of every region
    tracked before follows its region: the field of a region at or after
    the place of insertion holds its old value plus the shift (as a 32-bit
    number), the field of a region before it holds its old value.  The
    fields are taken to lie outside the bytes that move, and apart from
    each other. *)
Theorem insertLinkeditData_offset_fields
    (self : LinkeditTracker.t) (m : mem) (after : option LinkeditData.t)
    (data : LinkeditData.t) (self' : LinkeditTracker.t) (m' : mem)
    (t : LinkeditData.t) (v : Z) :
  let shiftStart := shiftStart_of self after in
  let shiftDelta := LinkeditTracker.shiftDelta_of (LinkeditData.dataSize data) in
  let lastDataEnd := LinkeditTracker.lastDataEnd self in
  LinkeditTracker.insertLinkeditData self m after data = Some (true, self', m') ->
  0 <= LinkeditData.dataSize data -> LinkeditData.dataSize data + 8 < 2 ^ 32 ->
  (forall t, t ∈ LinkeditTracker.trackingData self ->
     LinkeditData.offset t + 4 <= shiftStart
     \/ lastDataEnd + shiftDelta <= LinkeditData.offset t) ->
  ForallOrdPairs fields_apart (LinkeditTracker.trackingData self) ->
  t ∈ LinkeditTracker.trackingData self ->
  load32 m (LinkeditData.offset t) = Some v ->
  load32 m' (LinkeditData.offset t)
  = Some (if decide (LinkeditData.data t >= shiftStart)
          then wrap32 (v + shiftDelta) else v).
Proof.
  intros ss sd le Hrun H0 H1 Hfields Hap Ht Hv.
  destruct (insertLinkeditData_steps _ _ _ _ _ _ Hrun)
    as (Hroom & m1 & m2 & m3 & td & Hm1 & Hm2 & Hm3 & Hm' & _).
  fold ss sd le in Hroom, Hm1, Hm2, Hm3, Hm'.
  destruct (shiftDelta_of_bounds _ H0 H1) as [Hsd1 Hsd2].
  fold sd in Hsd1, Hsd2.
  assert (Hsd8 : 8 <= sd).
  { unfold sd. rewrite shiftDelta_of_spec by done.
    pose proof (Z.div_pos (LinkeditData.dataSize data) 8 H0 ltac:(lia)). lia. }
  destruct (memcpy_spec _ _ _ _ _ _ Hm1) as (Hn & _ & Hmvf & _).
  destruct (shift_tracked_spec _ _ _ _ _ _ Hm2) as (_ & _ & Hsv).
  destruct (memset_spec _ _ _ _ _ Hm3) as (_ & _ & Hzf).
  destruct (memcpy_spec _ _ _ _ _ _ Hm') as (_ & _ & Hcpf & _).
  pose proof (Hfields t Ht) as Hft.
  rewrite (load32_ext m' m2).
  - apply (Hsv Hap); [done|]. rewrite <- Hv. apply load32_ext.
    intros x Hx. apply Hmvf. lia.
  - intros x Hx. rewrite Hcpf by lia. apply Hzf. lia.
Qed.



(** Instances of the properties of the tracker on [tracker_one]. *)
Lemma trackData_sorted_witness :
  Sorted data_le
    (LinkeditTracker.trackingData
       (LinkeditTracker.trackData tracker_one (LinkeditData 0x134 0x1010 8))).
Proof.
  apply (trackData_sorted tracker_one (LinkeditData 0x134 0x1010 8)).
  repeat constructor.
Defined.

Lemma tracker_one_inserted :
  inserted (LinkeditTracker.insertLinkeditData tracker_one tracker_mem None
              (LinkeditData 0x134 0x3000 3)) = Some ().
Proof. vm_compute. reflexivity. Qed.

Lemma insertLinkeditData_registry_witness :
  match LinkeditTracker.insertLinkeditData tracker_one tracker_mem None
          (LinkeditData 0x134 0x3000 3) with
  | Some (true, self', _) =>
      LinkeditTracker.trackingData self'
      ≡ₚ [LinkeditData 0x134 0x1000 8; LinkeditData 0x130 0x1008 16]
  | _ => False
  end.
Proof.
  pose proof tracker_one_inserted as Hruns.
  destruct (LinkeditTracker.insertLinkeditData _ _ _ _)
    as [[[[] self'] m']|] eqn:E; [|discriminate Hruns..].
  destruct (insertLinkeditData_registry tracker_one tracker_mem None
              (LinkeditData 0x134 0x3000 3) self' m' E) as (_ & Hp & _).
  - repeat constructor.
  - exact Hp.
Defined.

Lemma insertLinkeditData_memory_witness :
  match LinkeditTracker.insertLinkeditData tracker_one tracker_mem None
          (LinkeditData 0x134 0x3000 3) with
  | Some (true, _, m') =>
      m' !! 0x1003 = Some zero
      /\ m' !! (0x1000 + 8 + 15) = tracker_mem !! (0x1000 + 15)
  | _ => False
  end.
Proof.
  pose proof tracker_one_inserted as Hruns.
  destruct (LinkeditTracker.insertLinkeditData _ _ _ _)
    as [[[[] self'] m']|] eqn:E; [|discriminate Hruns..].
  destruct (insertLinkeditData_memory tracker_one tracker_mem None
              (LinkeditData 0x134 0x3000 3) self' m' E) as (Hmv & Hz & _).
  - simpl. lia.
  - reflexivity.
  - intros t Ht. apply list_elem_of_singleton in Ht as ->. vm_compute. left. intros Hc. discriminate Hc.
  - split.
    + apply Hz. vm_compute. split; [intros Hc; discriminate Hc|reflexivity].
    + apply (Hmv 15). vm_compute. split; [intros Hc; discriminate Hc|reflexivity].
Defined.

Lemma insertLinkeditData_offset_fields_witness :
  match LinkeditTracker.insertLinkeditData tracker_one tracker_mem None
          (LinkeditData 0x134 0x3000 3) with
  | Some (true, _, m') => load32 m' 0x130 = Some 8
  | _ => False
  end.
Proof.
  pose proof tracker_one_inserted as Hruns.
  destruct (LinkeditTracker.insertLinkeditData _ _ _ _)
    as [[[[] self'] m']|] eqn:E; [|discriminate Hruns..].
  apply (insertLinkeditData_offset_fields tracker_one tracker_mem None
           (LinkeditData 0x134 0x3000 3) self' m' (LinkeditData 0x130 0x1000 16) 0 E).
  - simpl. lia.
  - reflexivity.
  - intros t Ht. apply list_elem_of_singleton in Ht as ->. vm_compute. left. intros Hc. discriminate Hc.
  - repeat constructor.
  - apply list_elem_of_singleton. reflexivity.
  - vm_compute. reflexivity.
Defined.
Lemma load32_shift (m1 m2 : mem) a b :
  (forall i, 0 <= i < 4 -> m1 !! (a + i) = m2 !! (b + i)) ->
  load32 m1 a = load32 m2 b.
Proof.
  intros H. unfold load32. rewrite (load_bytes_shift m1 m2 a b 4); [done|].
  intros i Hi. apply H. lia.
Qed.

(** The steps of an insertion of a load command that was made. *)
Lemma insertLoadCommand_steps self m after lc self' m' :
  LinkeditTracker.insertLoadCommand self m after lc = Some (true, self', m') ->
  exists sizeofcmds cmdsize after_cmdsize m1 cmdsize1 m2 ncmds m3 sizeofcmds3
         cmdsize3,
    load32 m (LinkeditTracker._header self + Loader.sizeofcmds) = Some sizeofcmds
    /\ load32 m (lc + Loader.cmdsize) = Some cmdsize
    /\ wrap32 (sizeofcmds + cmdsize) <= LinkeditTracker._headerSpaceAvailable self
    /\ load32 m (after + Loader.cmdsize) = Some after_cmdsize
    /\ memmove m (after + after_cmdsize + cmdsize) (after + after_cmdsize)
         (LinkeditTracker._commandsStart self + sizeofcmds
          - (after + after_cmdsize)) = Some m1
    /\ load32 m1 (lc + Loader.cmdsize) = Some cmdsize1
    /\ memcpy m1 (after + after_cmdsize) m1 lc cmdsize1 = Some m2
    /\ load32 m2 (LinkeditTracker._header self + Loader.ncmds) = Some ncmds
    /\ store32 m2 (LinkeditTracker._header self + Loader.ncmds) (wrap32 (ncmds + 1))
       = Some m3
    /\ load32 m3 (LinkeditTracker._header self + Loader.sizeofcmds)
       = Some sizeofcmds3
    /\ load32 m3 (lc + Loader.cmdsize) = Some cmdsize3
    /\ store32 m3 (LinkeditTracker._header self + Loader.sizeofcmds)
         (wrap32 (sizeofcmds3 + cmdsize3)) = Some m'
    /\ self' = LinkeditTracker.set_trackingData self
                 (LinkeditTracker.shift_offsets (after + after_cmdsize) cmdsize
                    (LinkeditTracker.trackingData self)).
Proof.
  unfold LinkeditTracker.insertLoadCommand. intros H.
  destruct (load32 m (_ + Loader.sizeofcmds)) as [sizeofcmds|] eqn:H1;
    simpl in H; [|done].
  destruct (load32 m (lc + _)) as [cmdsize|] eqn:H2; simpl in H; [|done].
  destruct (decide _) as [?|Hroom] in H; [done|].
  destruct (load32 m (after + _)) as [after_cmdsize|] eqn:H3; simpl in H; [|done].
  destruct (memmove _ _ _ _) as [m1|] eqn:H4; simpl in H; [|done].
  destruct (load32 m1 _) as [cmdsize1|] eqn:H5; simpl in H; [|done].
  destruct (memcpy m1 _ _ _ _) as [m2|] eqn:H6; simpl in H; [|done].
  destruct (load32 m2 _) as [ncmds|] eqn:H7; simpl in H; [|done].
  destruct (store32 m2 _ _) as [m3|] eqn:H8; simpl in H; [|done].
  destruct (load32 m3 (_ + Loader.sizeofcmds)) as [sizeofcmds3|] eqn:H9;
    simpl in H; [|done].
  destruct (load32 m3 (lc + _)) as [cmdsize3|] eqn:H10; simpl in H; [|done].
  destruct (store32 m3 _ _) as [m4|] eqn:H11; simpl in H; [|done].
  inversion H; subst.
  exists sizeofcmds, cmdsize, after_cmdsize, m1, cmdsize1, m2, ncmds, m3,
    sizeofcmds3, cmdsize3.
  repeat (split; [first [done | lia]|]). done.
Qed.

(** X6.  An insertion of a load command that is made: the header counts one
    command more and [sizeofcmds] grows by the size of the command; the
    command is found behind [after]; the commands that followed [after] are
    found behind it, unchanged; no other byte changes.  The new command is
    taken to lie outside the header and the bytes that the insertion
    writes, and the commands to follow the header. *)
Theorem insertLoadCommand_inserts
    (self : LinkeditTracker.t) (m : mem) (after lc : Z)
    (self' : LinkeditTracker.t) (m' : mem)
    (ncmds sizeofcmds cmdsize after_cmdsize : Z) :
  let header := LinkeditTracker._header self in
  let shiftStart := after + after_cmdsize in
  let shiftEnd := LinkeditTracker._commandsStart self + sizeofcmds in
  load32 m (header + Loader.ncmds) = Some ncmds ->
  load32 m (header + Loader.sizeofcmds) = Some sizeofcmds ->
  load32 m (lc + Loader.cmdsize) = Some cmdsize ->
  load32 m (after + Loader.cmdsize) = Some after_cmdsize ->
  8 <= cmdsize ->
  header + 24 <= shiftStart ->
  lc + cmdsize <= header \/ header + 24 <= lc ->
  lc + cmdsize <= shiftStart \/ shiftEnd + cmdsize <= lc ->
  LinkeditTracker.insertLoadCommand self m after lc = Some (true, self', m') ->
  load32 m' (header + Loader.ncmds) = Some (wrap32 (ncmds + 1))
  /\ load32 m' (header + Loader.sizeofcmds) = Some (wrap32 (sizeofcmds + cmdsize))
  /\ wrap32 (sizeofcmds + cmdsize) <= LinkeditTracker._headerSpaceAvailable self
  /\ (forall i, 0 <= i < cmdsize -> m' !! (shiftStart + i) = m !! (lc + i))
  /\ (forall i, 0 <= i < shiftEnd - shiftStart ->
        m' !! (shiftStart + cmdsize + i) = m !! (shiftStart + i))
  /\ (forall x, x < header + 16 \/ header + 24 <= x ->
        x < shiftStart \/ shiftEnd + cmdsize <= x -> m' !! x = m !! x).
Proof.
  intros header ss se Hn Hs Hc Ha H8 Hhdr Hlch Hlc Hrun.
  destruct (insertLoadCommand_steps _ _ _ _ _ _ Hrun)
    as (sizeofcmds0 & cmdsize0 & after_cmdsize0 & m1 & cmdsize1 & m2 & ncmds2
        & m3 & sizeofcmds3 & cmdsize3 & E1 & E2 & Hroom & E3 & E4 & E5 & E6
        & E7 & E8 & E9 & E10 & E11 & _).
  fold header in E1, E7, E8, E9, E11.
  rewrite Hs in E1. rewrite Hc in E2. rewrite Ha in E3.
  injection E1 as <-. injection E2 as <-. injection E3 as <-.
  fold ss se in E4, E6.
  unfold Loader.ncmds, Loader.sizeofcmds, Loader.cmdsize in *.
  destruct (memcpy_spec _ _ _ _ _ _ E4) as (Hlen & Hmv & Hmvf & _).
  assert (cmdsize1 = cmdsize) as ->.
  { rewrite (load32_ext m1 m) in E5; [congruence|].
    intros x Hx. apply Hmvf. lia. }
  destruct (memcpy_spec _ _ _ _ _ _ E6) as (_ & Hcp & Hcpf & _).
  assert (ncmds2 = ncmds) as ->.
  { rewrite (load32_ext m2 m) in E7; [congruence|].
    intros x Hx. rewrite Hcpf by lia. apply Hmvf. lia. }
  assert (sizeofcmds3 = sizeofcmds) as ->.
  { rewrite (load32_store32_other _ _ _ _ _ E8) in E9 by lia.
    rewrite (load32_ext m2 m) in E9; [congruence|].
    intros x Hx. rewrite Hcpf by lia. apply Hmvf. lia. }
  assert (cmdsize3 = cmdsize) as ->.
  { rewrite (load32_store32_other _ _ _ _ _ E8) in E10 by lia.
    rewrite (load32_ext m2 m) in E10; [congruence|].
    intros x Hx. rewrite Hcpf by lia. apply Hmvf. lia. }
  split; [|split; [|split; [done|split; [|split]]]].
  - rewrite (load32_store32_other _ _ _ _ _ E11) by lia.
    rewrite (load32_store32 _ _ _ _ E8). by rewrite wrap32_idemp.
  - rewrite (load32_store32 _ _ _ _ E11). by rewrite wrap32_idemp.
  - intros i Hi.
    rewrite (store32_other _ _ _ _ _ E11) by lia.
    rewrite (store32_other _ _ _ _ _ E8) by lia.
    rewrite Hcp by done. apply Hmvf. lia.
  - intros i Hi.
    rewrite (store32_other _ _ _ _ _ E11) by lia.
    rewrite (store32_other _ _ _ _ _ E8) by lia.
    rewrite Hcpf by lia. apply Hmv. lia.
  - intros x Hx1 Hx2.
    rewrite (store32_other _ _ _ _ _ E11) by lia.
    rewrite (store32_other _ _ _ _ _ E8) by lia.
    rewrite Hcpf by lia. apply Hmvf. lia.
Qed.
(** X7.  After an insertion of a load command that is made, the registry
    tracks the same regions, and the pointer to the offset field of each
    still points at its field: the field of a region whose pointer lay in
    the commands, whether before or behind the place of insertion, is read
    through the new pointer with the value it had. *)
Theorem insertLoadCommand_tracked_fields
    (self : LinkeditTracker.t) (m : mem) (after lc : Z)
    (self' : LinkeditTracker.t) (m' : mem)
    (sizeofcmds cmdsize after_cmdsize : Z) :
  let header := LinkeditTracker._header self in
  let shiftStart := after + after_cmdsize in
  let shiftEnd := LinkeditTracker._commandsStart self + sizeofcmds in
  load32 m (header + Loader.sizeofcmds) = Some sizeofcmds ->
  load32 m (lc + Loader.cmdsize) = Some cmdsize ->
  load32 m (after + Loader.cmdsize) = Some after_cmdsize ->
  8 <= cmdsize ->
  header + 24 <= shiftStart ->
  lc + cmdsize <= header \/ header + 24 <= lc ->
  lc + cmdsize <= shiftStart \/ shiftEnd + cmdsize <= lc ->
  LinkeditTracker.insertLoadCommand self m after lc = Some (true, self', m') ->
  Forall2
    (λ t t',
       LinkeditData.data t' = LinkeditData.data t
       /\ LinkeditData.dataSize t' = LinkeditData.dataSize t
       /\ LinkeditData.offset t'
          = (if decide (LinkeditData.offset t >= shiftStart)
             then LinkeditData.offset t + cmdsize else LinkeditData.offset t)
       /\ (header + 24 <= LinkeditData.offset t ->
           LinkeditData.offset t + 4 <= shiftEnd ->
           LinkeditData.offset t + 4 <= shiftStart
           \/ shiftStart <= LinkeditData.offset t ->
           load32 m' (LinkeditData.offset t') = load32 m (LinkeditData.offset t)))
    (LinkeditTracker.trackingData self) (LinkeditTracker.trackingData self').
Proof.
  intros header ss se Hs Hc Ha H8 Hhdr Hlch Hlc Hrun.
  destruct (insertLoadCommand_steps _ _ _ _ _ _ Hrun)
    as (sizeofcmds0 & cmdsize0 & after_cmdsize0 & m1 & cmdsize1 & m2 & ncmds2
        & m3 & sizeofcmds3 & cmdsize3 & E1 & E2 & Hroom & E3 & E4 & E5 & E6
        & E7 & E8 & E9 & E10 & E11 & ->).
  fold header in E1, E7, E8, E9, E11.
  rewrite Hs in E1. rewrite Hc in E2. rewrite Ha in E3.
  injection E1 as <-. injection E2 as <-. injection E3 as <-.
  fold ss se in E4, E6.
  unfold Loader.ncmds, Loader.sizeofcmds, Loader.cmdsize in *.
  destruct (memcpy_spec _ _ _ _ _ _ E4) as (Hlen & Hmv & Hmvf & _).
  assert (cmdsize1 = cmdsize) as ->.
  { rewrite (load32_ext m1 m) in E5; [congruence|].
    intros x Hx. apply Hmvf. lia. }
  destruct (memcpy_spec _ _ _ _ _ _ E6) as (_ & Hcp & Hcpf & _).
  simpl. unfold LinkeditTracker.shift_offsets.
  apply Forall2_fmap_r. apply Forall_Forall2_diag. apply Forall_forall. intros t _.
  unfold compose. fold ss. destruct (decide (LinkeditData.offset t >= ss)) as [Hge|Hlt]; simpl.
  - repeat (split; [done|]). intros Ht1 Ht2 _.
    apply load32_shift. intros i Hi.
    rewrite (store32_other _ _ _ _ _ E11) by lia.
    rewrite (store32_other _ _ _ _ _ E8) by lia.
    rewrite Hcpf by lia.
    replace (LinkeditData.offset t + cmdsize + i)
      with (ss + cmdsize + (LinkeditData.offset t - ss + i)) by lia.
    rewrite Hmv by lia. f_equal. lia.
  - repeat (split; [done|]). intros Ht1 Ht2 Ht3.
    apply load32_ext. intros x Hx.
    rewrite (store32_other _ _ _ _ _ E11) by lia.
    rewrite (store32_other _ _ _ _ _ E8) by lia.
    rewrite Hcpf by lia. apply Hmvf. lia.
Qed.

Lemma tracker_field_inserted :
  inserted (LinkeditTracker.insertLoadCommand tracker_field commands_mem 0x120
              0x2000) = Some ().
Proof. vm_compute. reflexivity. Qed.

Lemma insertLoadCommand_inserts_witness :
  match LinkeditTracker.insertLoadCommand tracker_field commands_mem 0x120 0x2000 with
  | Some (true, _, m') =>
      load32 m' (0x100 + Loader.ncmds) = Some 3
      /\ load32 m' (0x100 + Loader.sizeofcmds) = Some 0x38
  | _ => False
  end.
Proof.
  pose proof tracker_field_inserted as Hruns.
  destruct (LinkeditTracker.insertLoadCommand _ _ _ _)
    as [[[[] self'] m']|] eqn:E; [|discriminate Hruns..].
  destruct (insertLoadCommand_inserts tracker_field commands_mem 0x120 0x2000
              self' m' 2 0x28 16 16) as (Hn & Hs & _).
  - vm_compute. reflexivity.
  - vm_compute. reflexivity.
  - vm_compute. reflexivity.
  - vm_compute. reflexivity.
  - lia.
  - simpl. lia.
  - simpl. lia.
  - simpl. lia.
  - exact E.
  - split; [exact Hn|exact Hs].
Defined.

Lemma insertLoadCommand_tracked_fields_witness :
  match LinkeditTracker.insertLoadCommand tracker_field commands_mem 0x120 0x2000 with
  | Some (true, self', m') =>
      exists t', LinkeditTracker.trackingData self' = [t']
                 /\ LinkeditData.offset t' = 0x148
                 /\ load32 m' (LinkeditData.offset t') = Some 0x77
  | _ => False
  end.
Proof.
  pose proof tracker_field_inserted as Hruns.
  destruct (LinkeditTracker.insertLoadCommand _ _ _ _)
    as [[[[] self'] m']|] eqn:E; [|discriminate Hruns..].
  pose proof (insertLoadCommand_tracked_fields tracker_field commands_mem 0x120
                0x2000 self' m' 0x28 16 16) as H.
  simpl in H.
  specialize (H ltac:(vm_compute; reflexivity) ltac:(vm_compute; reflexivity)
                ltac:(vm_compute; reflexivity) ltac:(lia) ltac:(lia) ltac:(lia)
                ltac:(lia) E).
  apply Forall2_cons_inv_l in H as (t' & l' & (_ & _ & Ho & Hv) & Hnil & Heq).
  apply Forall2_nil_inv_l in Hnil as ->.
  exists t'. split; [exact Heq|]. simpl in Ho, Hv. split; [exact Ho|].
  rewrite Hv by lia. vm_compute. reflexivity.
Defined.
(** ** Reading back what was written *)

Lemma c_str_go_Some (m : mem) s :
  forall fuel p,
    nul_free s ->
    load_bytes m p (String.length s) = Some (list_ascii_of_string s) ->
    m !! (p + strlen s) = Some zero ->
    (String.length s < fuel)%nat ->
    c_str_go fuel m p = Some s.
Proof.
  induction s as [|c s IH]; intros fuel p Hnf Hl Hz Hfuel.
  - destruct fuel as [|fuel]; [lia|]. cbn [c_str_go].
    unfold strlen in Hz. simpl in Hz. rewrite Z.add_0_r in Hz. rewrite Hz.
    reflexivity.
  - destruct fuel as [|fuel]; [simpl in Hfuel; lia|]. cbn [c_str_go].
    simpl in Hl. destruct (m !! p) as [c'|] eqn:Hc; simpl in Hl; [|done].
    destruct (load_bytes m (p + 1) (String.length s)) as [bs|] eqn:Hbs;
      simpl in Hl; [|done].
    injection Hl as -> ->.
    unfold nul_free in Hnf. simpl in Hnf. apply not_elem_of_cons in Hnf as [Hne Hnf].
    cbn [mbind option_bind]. destruct (decide (c = zero)) as [->|_]; [done|].
    rewrite (IH fuel (p + 1)); [done|done|done| |simpl in Hfuel; lia].
    rewrite <- Hz. f_equal. unfold strlen. simpl. lia.
Qed.

Lemma c_str_Some (m : mem) p s :
  nul_free s ->
  load_bytes m p (String.length s) = Some (list_ascii_of_string s) ->
  m !! (p + strlen s) = Some zero ->
  c_str m p = Some s.
Proof.
  intros Hnf Hl Hz. apply c_str_go_Some; [done..|].
  assert (list_to_set (seqZ p (Z.of_nat (S (String.length s)))) ⊆ dom m) as Hsub.
  { intros x Hx. apply elem_of_list_to_set, elem_of_seqZ in Hx.
    apply elem_of_dom. destruct (decide (x = p + strlen s)) as [->|Hne].
    - rewrite Hz. eauto.
    - replace x with (p + (x - p)) by lia.
      apply (load_bytes_Some_lookup _ _ _ _ _ Hl). unfold strlen in Hne. lia. }
  apply subseteq_size in Hsub.
  rewrite size_list_to_set in Hsub by apply NoDup_seqZ.
  rewrite length_seqZ, size_dom in Hsub. lia.
Qed.

Lemma write_all_read_back
    (sp : StringPool) (m : mem) (dest : Z) (m' : mem) (s : string) (o : Z) :
  reachable sp -> pool_bytes sp < 2 ^ 32 ->
  (forall a, dest <= a < dest + _stringsLength sp -> m !! a = Some zero) ->
  write_all m dest (merge_sort strings_le (pool_entries sp)) = Some m' ->
  _pool sp !! s = Some o -> nul_free s ->
  c_str m' (dest + o) = Some s.
Proof.
  intros Hr Hlt Hzero Hw Hs Hnf.
  destruct (reachable_inv _ Hr Hlt) as (Hb & Hd & _ & _).
  apply c_str_Some; [done| |].
  - apply (write_all_chars _ _ _ _ Hw); [apply NoDup_sorted_entries| |].
    + intros [o1 s1] [o2 s2] H1%elem_of_sorted_entries H2%elem_of_sorted_entries Hne.
      simpl. assert (s1 ≠ s2) as Hne' by congruence.
      destruct (Hd _ _ _ _ H1 H2 Hne'); lia.
    + by apply elem_of_sorted_entries.
  - rewrite (write_all_frame _ _ _ _ _ Hw).
    + apply Hzero. destruct (Hb _ _ Hs). pose proof (strlen_nonneg s). lia.
    + intros o' s' Hin%elem_of_sorted_entries.
      destruct (decide (s' = s)) as [->|Hne].
      * assert (o' = o) as -> by congruence. lia.
      * pose proof (strlen_nonneg s'). pose proof (strlen_nonneg s).
        destruct (Hd _ _ _ _ Hin Hs Hne); lia.
Qed.

(** X8.  The strings of a pool are read back from what [writeStrings] wrote
    into a zeroed destination: the C string at the offset that [addString]
    gave for a string is that string, for a string without a NUL in a pool
    built from the constructor's, of fewer than [2 ^ 32] bytes. *)
Theorem writeStrings_read_back
    (sp : StringPool) (m : mem) (dest len : Z) (m' : mem) (s : string) (o : Z) :
  reachable sp -> pool_bytes sp < 2 ^ 32 ->
  (forall a, dest <= a < dest + _stringsLength sp -> m !! a = Some zero) ->
  writeStrings sp m dest = Some (len, m') ->
  _pool sp !! s = Some o -> nul_free s ->
  c_str m' (dest + o) = Some s.
Proof.
  intros Hr Hlt Hzero Hrun Hs Hnf. unfold writeStrings in Hrun.
  destruct (write_all _ _ _) as [m1|] eqn:Hw; simpl in Hrun; [|done].
  destruct (last _) as [[o' s']|]; simpl in Hrun; [|done].
  injection Hrun as _ <-.
  by apply (write_all_read_back sp m dest m1 s o).
Qed.

Lemma foo_bar_pool_runs :
  (writeStrings foo_bar_pool (calloc 16) 2 ≫= λ _, Some ()) = Some ().
Proof. vm_compute. reflexivity. Qed.

Lemma writeStrings_read_back_witness :
  match writeStrings foo_bar_pool (calloc 16) 2 with
  | Some (_, m') => c_str m' (2 + 6) = Some "_bar"%string
  | None => False
  end.
Proof.
  pose proof foo_bar_pool_runs as Hruns.
  destruct (writeStrings foo_bar_pool (calloc 16) 2) as [[len m']|] eqn:E;
    [|discriminate Hruns].
  apply (writeStrings_read_back foo_bar_pool (calloc 16) 2 len m' "_bar" 6).
  - apply reachable_add, reachable_add, reachable_new.
  - vm_compute. reflexivity.
  - intros a Ha. apply calloc_lookup.
    replace (_stringsLength foo_bar_pool) with 11 in Ha by (vm_compute; reflexivity).
    lia.
  - exact E.
  - vm_compute. reflexivity.
  - unfold nul_free. simpl. rewrite !not_elem_of_cons. split_and!; [discriminate..|apply not_elem_of_nil].
Defined.
(** ** The passes that copy a region *)

Lemma region_copied_intro self nl offset field src size nl1 ram' :
  memcpy nl offset (LinkeditOptimizer.ram self) src size = Some nl1 ->
  store32 (LinkeditOptimizer.ram self) field
    (wrap32 (LinkeditOptimizer._linkeditOffset self + offset)) = Some ram' ->
  region_copied self nl offset field src size
    (LinkeditOptimizer.set_ram
       (LinkeditOptimizer.track self field
          (LinkeditOptimizer._linkeditStart self + offset) (alignR size 8)) ram')
    nl1 (wrap32 (offset + alignR size 8)).
Proof.
  intros Hcp Hst. destruct (memcpy_spec _ _ _ _ _ _ Hcp) as (_ & Hc & Hf & _).
  unfold region_copied. split; [done|]. split; [done|]. split; [done|].
  split; [|split; [|done]]; simpl.
  - rewrite (load32_store32 _ _ _ _ Hst). by rewrite wrap32_idemp.
  - intros x Hx. by apply (store32_other _ _ _ _ _ Hst).
Qed.

(** X9.  The passes over the binding, the weak binding and the lazy binding
    information do nothing for a region of size 0; a region of another size
    they copy to the cursor as it is, [size] bytes from the file offset in
    the command, they leave the file offset of the copy in the command,
    track the region with its size aligned to 8 by [alignR], and move the
    cursor behind it. *)
Theorem dyld_info_passes_copy
    (k : dyld_info_region) (self : LinkeditOptimizer.t) (newLinkedit : mem)
    (offset : Z) (self' : LinkeditOptimizer.t) (newLinkedit' : mem)
    (offset' size : Z) :
  LinkeditOptimizer._dyldInfo self ≠ nullptr ->
  load32 (LinkeditOptimizer.ram self)
    (LinkeditOptimizer._dyldInfo self + dyld_info_size k) = Some size ->
  dyld_info_pass k self newLinkedit offset = Some (self', newLinkedit', offset') ->
  (size = 0 -> (self', newLinkedit', offset') = (self, newLinkedit, offset))
  /\ (size ≠ 0 ->
      exists off,
        load32 (LinkeditOptimizer.ram self)
          (LinkeditOptimizer._dyldInfo self + dyld_info_off k) = Some off
        /\ region_copied self newLinkedit offset
             (LinkeditOptimizer._dyldInfo self + dyld_info_off k)
             (LinkeditOptimizer._linkeditFile self + off) size
             self' newLinkedit' offset').
Proof.
  intros Hcmd Hsize Hrun.
  destruct k; simpl in *;
    [unfold LinkeditOptimizer.copyBindingInfo in Hrun
    |unfold LinkeditOptimizer.copyWeakBindingInfo in Hrun
    |unfold LinkeditOptimizer.copyLazyBindingInfo in Hrun];
    rewrite decide_False in Hrun by done;
    rewrite Hsize in Hrun; simpl in Hrun; clear Hsize;
    (destruct (decide (size ≠ 0)) as [Hnz|Hz];
     [|split; [intros _; by inversion Hrun|done]]);
    (split; [done|]; intros _);
    (destruct (load32 _ _) as [off|] eqn:Hoff; simpl in Hrun; [|done]);
    (destruct (memcpy _ _ _ _ _) as [nl1|] eqn:Hcp; simpl in Hrun; [|done]);
    (destruct (store32 _ _ _) as [ram'|] eqn:Hst; simpl in Hrun; [|done]);
    inversion Hrun; subst; exists off; (split; [done|]);
    by apply region_copied_intro.
Qed.

(** X10.  The passes over the function starts and the data in code do
    nothing for a region of size 0; a region of another size they copy to
    the cursor as it is, they leave the file offset of the copy in the
    command, track the region with its size aligned to 8 by [alignR], and
    move the cursor behind it. *)
Theorem linkedit_data_passes_copy
    (k : linkedit_data_region) (self : LinkeditOptimizer.t) (newLinkedit : mem)
    (offset : Z) (self' : LinkeditOptimizer.t) (newLinkedit' : mem)
    (offset' size : Z) :
  let command := linkedit_data_command k (LinkeditOptimizer.mCtx self) in
  command ≠ nullptr ->
  load32 (LinkeditOptimizer.ram self) (command + Loader.datasize) = Some size ->
  linkedit_data_pass k self newLinkedit offset = Some (self', newLinkedit', offset') ->
  (size = 0 -> (self', newLinkedit', offset') = (self, newLinkedit, offset))
  /\ (size ≠ 0 ->
      exists dataoff,
        load32 (LinkeditOptimizer.ram self) (command + Loader.dataoff) = Some dataoff
        /\ region_copied self newLinkedit offset (command + Loader.dataoff)
             (LinkeditOptimizer._linkeditFile self + dataoff) size
             self' newLinkedit' offset').
Proof.
  intros command Hcmd Hsize Hrun. subst command.
  destruct k; simpl in *;
    [unfold LinkeditOptimizer.copyFunctionStarts in Hrun
    |unfold LinkeditOptimizer.copyDataInCode in Hrun];
    rewrite decide_False in Hrun by done;
    rewrite Hsize in Hrun; simpl in Hrun; clear Hsize;
    (destruct (decide (size ≠ 0)) as [Hnz|Hz];
     [|split; [intros _; by inversion Hrun|done]]);
    (split; [done|]; intros _);
    (destruct (load32 _ _) as [off|] eqn:Hoff; simpl in Hrun; [|done]);
    (destruct (memcpy _ _ _ _ _) as [nl1|] eqn:Hcp; simpl in Hrun; [|done]);
    (destruct (store32 _ _ _) as [ram'|] eqn:Hst; simpl in Hrun; [|done]);
    inversion Hrun; subst; exists off; (split; [done|]);
    by apply region_copied_intro.
Qed.
Lemma image_binding_runs :
  (LinkeditOptimizer.copyBindingInfo image_optimizer image_newLinkedit 0
   ≫= λ _, Some ()) = Some ().
Proof. vm_compute. reflexivity. Qed.

Lemma image_function_starts_runs :
  (LinkeditOptimizer.copyFunctionStarts image_optimizer image_newLinkedit 8
   ≫= λ _, Some ()) = Some ().
Proof. vm_compute. reflexivity. Qed.

(** The five binding opcodes of the image go to the start of the buffer. *)
Lemma dyld_info_passes_copy_witness :
  match LinkeditOptimizer.copyBindingInfo image_optimizer image_newLinkedit 0 with
  | Some (_, newLinkedit', offset') =>
      offset' = 8 /\ newLinkedit' !! (0 + 2) = image_mem !! (FILE + 0x478 + 2)
  | None => False
  end.
Proof.
  pose proof image_binding_runs as Hruns.
  destruct (LinkeditOptimizer.copyBindingInfo _ _ _)
    as [[[self' newLinkedit'] offset']|] eqn:E; [|discriminate Hruns].
  destruct (dyld_info_passes_copy Binding image_optimizer image_newLinkedit 0
              self' newLinkedit' offset' 5) as [_ H].
  - vm_compute. discriminate.
  - vm_compute. reflexivity.
  - exact E.
  - destruct H as (off & Hoff & Hbytes & _ & Hcursor & _); [discriminate|].
    assert (off = 0x478) as ->.
    { assert (load32 (LinkeditOptimizer.ram image_optimizer)
                (LinkeditOptimizer._dyldInfo image_optimizer
                 + dyld_info_off Binding) = Some 0x478) as Hl
        by (vm_compute; reflexivity).
      rewrite Hl in Hoff. by injection Hoff. }
    split; [rewrite Hcursor; reflexivity|]. apply (Hbytes 2). lia.
Defined.

(** The four bytes of the function starts of the image go to the cursor. *)
Lemma linkedit_data_passes_copy_witness :
  match LinkeditOptimizer.copyFunctionStarts image_optimizer image_newLinkedit 8 with
  | Some (_, newLinkedit', offset') =>
      offset' = 16 /\ newLinkedit' !! (8 + 1) = image_mem !! (FILE + 0x480 + 1)
  | None => False
  end.
Proof.
  pose proof image_function_starts_runs as Hruns.
  destruct (LinkeditOptimizer.copyFunctionStarts _ _ _)
    as [[[self' newLinkedit'] offset']|] eqn:E; [|discriminate Hruns].
  destruct (linkedit_data_passes_copy FunctionStarts image_optimizer
              image_newLinkedit 8 self' newLinkedit' offset' 4) as [_ H].
  - vm_compute. discriminate.
  - vm_compute. reflexivity.
  - exact E.
  - destruct H as (off & Hoff & Hbytes & _ & Hcursor & _); [discriminate|].
    assert (off = 0x480) as ->.
    { assert (load32 (LinkeditOptimizer.ram image_optimizer)
                (linkedit_data_command FunctionStarts
                   (LinkeditOptimizer.mCtx image_optimizer) + Loader.dataoff)
              = Some 0x480) as Hl by (vm_compute; reflexivity).
      rewrite Hl in Hoff. by injection Hoff. }
    split; [rewrite Hcursor; reflexivity|]. apply (Hbytes 1). lia.
Defined.
(** ** The symbol entries *)

Lemma reachable_extends sp sp' : reachable sp -> extends sp sp' -> reachable sp'.
Proof. intros Hr. induction 1; [done|]. by constructor. Qed.

Lemma extends_trans sp1 sp2 sp3 : extends sp1 sp2 -> extends sp2 sp3 -> extends sp1 sp3.
Proof. intros H12. induction 1; [done|]. by constructor. Qed.

Lemma copy_nlist_spec {P : Pointer} self nl newEntry entry str self' nl' :
  4 <= sizeof_nlist -> reachable (LinkeditOptimizer._stringsPool self) ->
  LinkeditOptimizer.copy_nlist self nl newEntry entry str = Some (self', nl') ->
  self' = LinkeditOptimizer.set_stringsPool self
            (addString (LinkeditOptimizer._stringsPool self) str).2
  /\ load32 nl' (newEntry + Loader.n_strx)
     = Some (addString (LinkeditOptimizer._stringsPool self) str).1
  /\ (forall i, 4 <= i < sizeof_nlist ->
        nl' !! (newEntry + i) = LinkeditOptimizer.ram self !! (entry + i))
  /\ (forall x, x < newEntry \/ newEntry + sizeof_nlist <= x -> nl' !! x = nl !! x).
Proof.
  intros H4 Hr. unfold LinkeditOptimizer.copy_nlist. intros H.
  destruct (memcpy _ _ _ _ _) as [nl1|] eqn:Hcp; simpl in H; [|done].
  pose proof (addString_lookup (LinkeditOptimizer._stringsPool self) str) as Hin.
  pose proof (reachable_add _ str Hr) as Hr'.
  destruct (addString _ _) as [strx pool]. simpl in Hin.
  destruct (store32 _ _ _) as [nl2|] eqn:Hst; simpl in H; [|done].
  inversion H; subst. destruct (memcpy_spec _ _ _ _ _ _ Hcp) as (_ & Hc & Hf & _).
  unfold Loader.n_strx in *. split; [done|]. split; [|split].
  - rewrite (load32_store32 _ _ _ _ Hst). simpl. f_equal. apply wrap32_small.
    by apply (proj2 (reachable_range _ Hr') str).
  - intros i Hi. rewrite (store32_other _ _ _ _ _ Hst) by lia. apply Hc. lia.
  - intros x Hx. rewrite (store32_other _ _ _ _ _ Hst) by lia. apply Hf. lia.
Qed.

Lemma entry_copied_later {P : Pointer} ram strings entry pool nl newEntry pool' nl' :
  4 <= sizeof_nlist ->
  entry_copied ram strings entry pool nl newEntry ->
  extends pool pool' ->
  (forall x, newEntry <= x < newEntry + sizeof_nlist -> nl' !! x = nl !! x) ->
  entry_copied ram strings entry pool' nl' newEntry.
Proof.
  intros H4 (n_strx & name & o & H1 & H2 & H3 & Hl & Hb) Hext Hsame.
  exists n_strx, name, o. split; [done|]. split; [done|].
  split; [by eapply extends_keeps|]. split.
  - rewrite <- Hl. apply load32_ext. intros x Hx. apply Hsame.
    unfold Loader.n_strx in Hx. lia.
  - intros i Hi. rewrite Hsame by lia. by apply Hb.
Qed.

(** The loop of [copyExportedSymbols] and [copyImportedSymbols]. *)
Lemma copySymbols_loop_spec {P : Pointer} syms strings (n : nat) :
  4 <= sizeof_nlist ->
  forall symIndex self nl head count self' nl' count',
    reachable (LinkeditOptimizer._stringsPool self) ->
    0 <= LinkeditOptimizer._symbolsCount self < 2 ^ 32 ->
    0 <= count < 2 ^ 32 ->
    LinkeditOptimizer.copySymbols_loop n syms strings symIndex self nl head count
      = Some (self', nl', count') ->
    same_commands self self'
    /\ extends (LinkeditOptimizer._stringsPool self)
         (LinkeditOptimizer._stringsPool self')
    /\ LinkeditOptimizer._symbolsCount self'
       = wrap32 (LinkeditOptimizer._symbolsCount self + Z.of_nat n)
    /\ count' = wrap32 (count + Z.of_nat n)
    /\ (forall k, 0 <= k < Z.of_nat n ->
          LinkeditOptimizer._newSymbolIndicies self' !! (symIndex + k)
          = Some (wrap32 (LinkeditOptimizer._symbolsCount self + k)))
    /\ (forall j, j < symIndex \/ symIndex + Z.of_nat n <= j ->
          LinkeditOptimizer._newSymbolIndicies self' !! j
          = LinkeditOptimizer._newSymbolIndicies self !! j)
    /\ (forall k, 0 <= k < Z.of_nat n ->
          entry_copied (LinkeditOptimizer.ram self) strings
            (syms + sizeof_nlist * (symIndex + k))
            (LinkeditOptimizer._stringsPool self') nl' (head + sizeof_nlist * k))
    /\ (forall x, x < head \/ head + sizeof_nlist * Z.of_nat n <= x ->
          nl' !! x = nl !! x).
Proof.
  intros H4. induction n as [|n IH];
    intros symIndex self nl head count self' nl' count' Hr Hsc Hcnt H.
  - simpl in H. inversion H; subst.
    split; [apply same_commands_refl|]. split; [constructor|].
    rewrite !Z.add_0_r, !wrap32_small by done.
    repeat split; try done; intros; lia.
  - cbn [LinkeditOptimizer.copySymbols_loop] in H.
    destruct (load32 _ _) as [n_strx|] eqn:Hn; simpl in H; [|done].
    destruct (c_str _ _) as [str|] eqn:Hstr; simpl in H; [|done].
    destruct (LinkeditOptimizer.copy_nlist _ _ _ _ _) as [[s1 nl1]|] eqn:Hc;
      simpl in H; [|done].
    destruct (copy_nlist_spec _ _ _ _ _ _ _ H4 Hr Hc) as (-> & Hl & Hb & Hf).
    simpl in H. apply IH in H; simpl;
      [|by constructor|apply wrap32_range|apply wrap32_range].
    simpl in H.
    destruct H as ([Hram Hdy] & Hext & Hsc' & Hcnt' & Hmap & Hmapf & Hent & Hfr).
    simpl in Hram, Hdy.
    assert (Hext' : extends (LinkeditOptimizer._stringsPool self)
                      (LinkeditOptimizer._stringsPool self')).
    { eapply extends_trans; [|exact Hext]. constructor. constructor. }
    split; [done|]. split; [done|].
    split; [rewrite Hsc', wrap32_add_l; f_equal; lia|].
    split; [rewrite Hcnt', wrap32_add_l; f_equal; lia|].
    split; [|split; [|split]].
    + intros k Hk. destruct (decide (k = 0)) as [->|Hk0].
      * rewrite Z.add_0_r, Hmapf by lia. rewrite lookup_insert_eq.
        by rewrite Z.add_0_r, wrap32_small.
      * replace (symIndex + k) with (symIndex + 1 + (k - 1)) by lia.
        rewrite Hmap by lia. rewrite wrap32_add_l. do 2 f_equal. lia.
    + intros j Hj. rewrite Hmapf by lia. apply lookup_insert_ne. lia.
    + intros k Hk. destruct (decide (k = 0)) as [->|Hk0].
      * rewrite !Z.add_0_r, Z.mul_0_r, Z.add_0_r.
        apply (entry_copied_later _ _ _
                 (addString (LinkeditOptimizer._stringsPool self) str).2 nl1);
          [done| |done|].
        -- exists n_strx, str, (addString (LinkeditOptimizer._stringsPool self) str).1.
           split; [done|]. split; [done|]. split; [apply addString_lookup|].
           split; [done|]. done.
        -- intros x Hx. apply Hfr. lia.
      * replace (symIndex + k) with (symIndex + 1 + (k - 1)) by lia.
        replace (head + sizeof_nlist * k)
          with (head + sizeof_nlist + sizeof_nlist * (k - 1)) by lia.
        apply Hent. lia.
    + intros x Hx. rewrite Hfr by lia. apply Hf. lia.
Qed.
(** The steps of [copyExportedSymbols] and [copyImportedSymbols].  The loop
    runs from [symsStart] up to [symsEnd], the [uint32_t] sum of the first
    index and the number of symbols: over all of them when the sum fits in
    32 bits, and over none when it does not, [symsEnd] being below
    [symsStart] then. *)
Lemma symbols_loop_length i n :
  0 <= i < 2 ^ 32 -> 0 <= n < 2 ^ 32 ->
  Z.to_nat (wrap32 (i + n) - i) = Z.to_nat (symbols_copied i n).
Proof.
  intros Hi Hn. unfold symbols_copied, wrap32.
  destruct (decide (i + n < 2 ^ 32)).
  - rewrite Z.mod_small by lia. f_equal. lia.
  - replace ((i + n) mod 2 ^ 32) with (i + n - 2 ^ 32).
    + rewrite !Z2Nat.nonpos; lia.
    + apply Z.mod_unique with 1; lia.
Qed.

Lemma symbols_copied_range i n :
  0 <= n < 2 ^ 32 -> 0 <= symbols_copied i n < 2 ^ 32.
Proof. unfold symbols_copied. destruct (decide _); lia. Qed.

Lemma symbols_pass_steps {P : Pointer} g self nl offset self' nl' offset' i n :
  LinkeditOptimizer._dySymTab self ≠ nullptr ->
  load32 (LinkeditOptimizer.ram self)
    (LinkeditOptimizer._dySymTab self + symbols_index g) = Some i ->
  load32 (LinkeditOptimizer.ram self)
    (LinkeditOptimizer._dySymTab self + symbols_count g) = Some n ->
  symbols_pass g self nl offset = Some (self', nl', offset') ->
  exists symoff stroff self1 count,
    load32 (LinkeditOptimizer.ram self)
      (LinkeditOptimizer._symTab self + Loader.symoff) = Some symoff
    /\ load32 (LinkeditOptimizer.ram self)
         (LinkeditOptimizer._symTab self + Loader.stroff) = Some stroff
    /\ LinkeditOptimizer.copySymbols_loop (Z.to_nat (symbols_copied i n))
         (LinkeditOptimizer._linkeditFile self + symoff)
         (LinkeditOptimizer._linkeditFile self + stroff) i self nl offset 0
       = Some (self1, nl', count)
    /\ offset' = wrap32 (offset + sizeof_nlist * count)
    /\ (count = 0 -> self' = self1)
    /\ (count ≠ 0 ->
        exists r1 r2,
          store32 (LinkeditOptimizer.ram self1)
            (LinkeditOptimizer._dySymTab self1 + symbols_index g)
            (LinkeditOptimizer._symbolsCount self) = Some r1
          /\ store32 r1 (LinkeditOptimizer._dySymTab self1 + symbols_count g) count
             = Some r2
          /\ self' = LinkeditOptimizer.set_ram self1 r2).
Proof.
  intros Hcmd Hi Hn Hrun.
  pose proof (load32_range _ _ _ Hi) as Hir.
  pose proof (load32_range _ _ _ Hn) as Hnr.
  pose proof (symbols_loop_length i n Hir Hnr) as Hlen.
  destruct g; simpl in *;
    [unfold LinkeditOptimizer.copyExportedSymbols in Hrun
    |unfold LinkeditOptimizer.copyImportedSymbols in Hrun];
    rewrite decide_False in Hrun by done;
    (destruct (load32 _ (_ + Loader.symoff)) as [symoff|] eqn:Hsymoff;
       simpl in Hrun; [|done]);
    rewrite Hi in Hrun; simpl in Hrun; rewrite Hn in Hrun; simpl in Hrun;
    (destruct (load32 _ (_ + Loader.stroff)) as [stroff|] eqn:Hstroff;
       simpl in Hrun; [|done]);
    rewrite Hlen in Hrun;
    (destruct (LinkeditOptimizer.copySymbols_loop _ _ _ _ _ _ _ _)
       as [[[self1 nl1] count]|] eqn:Hloop; simpl in Hrun; [|done]);
    exists symoff, stroff, self1, count;
    (destruct (decide (count ≠ 0)) as [Hnz|Hz]; simpl in Hrun;
     [destruct (store32 _ _ _) as [r1|] eqn:H1; simpl in Hrun; [|done];
      destruct (store32 r1 _ _) as [r2|] eqn:H2; simpl in Hrun; [|done];
      inversion Hrun; subst;
      repeat (split; [done|]); intros _; by exists r1, r2
     |inversion Hrun; subst;
      repeat (split; [done|]); intros ?; done]).
Qed.

(** X11.  The passes over the exported and the imported symbols give the
    symbols that they copy consecutive new indices from the symbol count on.
    They copy the whole group when its first index plus its number of
    symbols fits in 32 bits, and nothing when it does not: [symsEnd], the
    [uint32_t] sum, is then below [symsStart] and the loop does not run.
    The remapping table sends the old index [i + k] of the [k]-th symbol
    copied to the count plus [k] and keeps its other keys, the count and the
    cursor move by the number of symbols copied, and, when that is not zero,
    the [dysymtab_command] holds the first new index and the number of
    symbols copied; no other byte of the memory changes. *)
Theorem symbol_passes_remap {P : Pointer}
    (g : symbol_group) (self : LinkeditOptimizer.t) (newLinkedit : mem)
    (offset : Z) (self' : LinkeditOptimizer.t) (newLinkedit' : mem)
    (offset' i n : Z) :
  let dySymTab := LinkeditOptimizer._dySymTab self in
  let copied := symbols_copied i n in
  4 <= sizeof_nlist ->
  reachable (LinkeditOptimizer._stringsPool self) ->
  0 <= LinkeditOptimizer._symbolsCount self < 2 ^ 32 ->
  dySymTab ≠ nullptr ->
  load32 (LinkeditOptimizer.ram self) (dySymTab + symbols_index g) = Some i ->
  load32 (LinkeditOptimizer.ram self) (dySymTab + symbols_count g) = Some n ->
  symbols_pass g self newLinkedit offset = Some (self', newLinkedit', offset') ->
  LinkeditOptimizer._symbolsCount self'
  = wrap32 (LinkeditOptimizer._symbolsCount self + copied)
  /\ offset' = wrap32 (offset + sizeof_nlist * copied)
  /\ (forall k, 0 <= k < copied ->
        LinkeditOptimizer._newSymbolIndicies self' !! (i + k)
        = Some (wrap32 (LinkeditOptimizer._symbolsCount self + k)))
  /\ (forall j, j < i \/ i + copied <= j ->
        LinkeditOptimizer._newSymbolIndicies self' !! j
        = LinkeditOptimizer._newSymbolIndicies self !! j)
  /\ (copied ≠ 0 ->
      load32 (LinkeditOptimizer.ram self') (dySymTab + symbols_index g)
      = Some (LinkeditOptimizer._symbolsCount self)
      /\ load32 (LinkeditOptimizer.ram self') (dySymTab + symbols_count g)
         = Some copied)
  /\ (forall x,
        copied = 0
        \/ ~ (dySymTab + symbols_index g <= x < dySymTab + symbols_index g + 4)
           /\ ~ (dySymTab + symbols_count g <= x < dySymTab + symbols_count g + 4) ->
        LinkeditOptimizer.ram self' !! x = LinkeditOptimizer.ram self !! x).
Proof.
  intros dySymTab copied H4 Hr Hsc Hcmd Hi Hn Hrun. subst dySymTab.
  pose proof (load32_range _ _ _ Hi) as Hir.
  pose proof (load32_range _ _ _ Hn) as Hnr.
  destruct (symbols_pass_steps _ _ _ _ _ _ _ _ _ Hcmd Hi Hn Hrun)
    as (symoff & stroff & self1 & count & _ & _ & Hloop & -> & Hz & Hnz).
  change (symbols_copied i n) with copied in Hloop.
  assert (0 <= copied < 2 ^ 32) as Hc by (by apply symbols_copied_range).
  clearbody copied.
  destruct (copySymbols_loop_spec _ _ _ H4 _ _ _ _ 0 _ _ _ Hr Hsc
              ltac:(lia) Hloop)
    as ([Hram Hdy] & _ & Hsc1 & -> & Hmap & Hmapf & _ & _).
  rewrite Z2Nat.id in * by lia. rewrite Z.add_0_l in *.
  rewrite (wrap32_small copied) in * by lia.
  destruct (decide (copied = 0)) as [Hc0|Hc0].
  - rewrite (Hz Hc0). split; [exact Hsc1|]. split; [done|].
    split; [exact Hmap|]. split; [exact Hmapf|]. split; [done|].
    intros x _. by rewrite Hram.
  - destruct (Hnz Hc0) as (r1 & r2 & H1 & H2 & ->). simpl.
    rewrite Hdy, Hram in *.
    assert (symbols_index g + 4 <= symbols_count g) as Hfields
      by (by destruct g).
    repeat (split; [done|]). split.
    + intros _. split.
      * rewrite (load32_store32_other _ _ _ _ _ H2) by lia.
        rewrite (load32_store32 _ _ _ _ H1). by rewrite wrap32_small.
      * rewrite (load32_store32 _ _ _ _ H2). by rewrite wrap32_small.
    + intros x [?|[Hx1 Hx2]]; [done|].
      rewrite (store32_other _ _ _ _ _ H2) by lia.
      apply (store32_other _ _ _ _ _ H1). lia.
Qed.

(** X12.  The passes over the exported and the imported symbols copy the
    symbol entries of their group to the cursor, in the order of the group:
    all of them when the first index plus the number of symbols fits in 32
    bits, and none when it does not ([symsEnd], the [uint32_t] sum, is below
    [symsStart] then).  The [k]-th new entry is the [k]-th old one, with the
    offset that the name of the symbol has in the pool in place of [n_strx],
    and every name that was in the pool has kept its offset; no byte of the
    buffer outside the new entries changes. *)
Theorem symbol_passes_entries {P : Pointer}
    (g : symbol_group) (self : LinkeditOptimizer.t) (newLinkedit : mem)
    (offset : Z) (self' : LinkeditOptimizer.t) (newLinkedit' : mem)
    (offset' i n symoff stroff : Z) :
  let dySymTab := LinkeditOptimizer._dySymTab self in
  let symTab := LinkeditOptimizer._symTab self in
  let copied := symbols_copied i n in
  4 <= sizeof_nlist ->
  reachable (LinkeditOptimizer._stringsPool self) ->
  0 <= LinkeditOptimizer._symbolsCount self < 2 ^ 32 ->
  dySymTab ≠ nullptr ->
  load32 (LinkeditOptimizer.ram self) (dySymTab + symbols_index g) = Some i ->
  load32 (LinkeditOptimizer.ram self) (dySymTab + symbols_count g) = Some n ->
  load32 (LinkeditOptimizer.ram self) (symTab + Loader.symoff) = Some symoff ->
  load32 (LinkeditOptimizer.ram self) (symTab + Loader.stroff) = Some stroff ->
  symbols_pass g self newLinkedit offset = Some (self', newLinkedit', offset') ->
  (forall k, 0 <= k < copied ->
     entry_copied (LinkeditOptimizer.ram self)
       (LinkeditOptimizer._linkeditFile self + stroff)
       (LinkeditOptimizer._linkeditFile self + symoff + sizeof_nlist * (i + k))
       (LinkeditOptimizer._stringsPool self') newLinkedit'
       (offset + sizeof_nlist * k))
  /\ extends (LinkeditOptimizer._stringsPool self)
       (LinkeditOptimizer._stringsPool self')
  /\ (forall x, x < offset \/ offset + sizeof_nlist * copied <= x ->
        newLinkedit' !! x = newLinkedit !! x).
Proof.
  intros dySymTab symTab copied H4 Hr Hsc Hcmd Hi Hn Hsymoff Hstroff Hrun.
  subst dySymTab symTab.
  pose proof (load32_range _ _ _ Hn) as Hnr.
  destruct (symbols_pass_steps _ _ _ _ _ _ _ _ _ Hcmd Hi Hn Hrun)
    as (symoff' & stroff' & self1 & count & Hsymoff' & Hstroff' & Hloop & _
        & Hz & Hnz).
  change (symbols_copied i n) with copied in Hloop.
  assert (0 <= copied < 2 ^ 32) as Hc by (by apply symbols_copied_range).
  clearbody copied.
  rewrite Hsymoff in Hsymoff'. rewrite Hstroff in Hstroff'.
  injection Hsymoff' as <-. injection Hstroff' as <-.
  destruct (copySymbols_loop_spec _ _ _ H4 _ _ _ _ 0 _ _ _ Hr Hsc
              ltac:(lia) Hloop)
    as (_ & Hext & _ & _ & _ & _ & Hent & Hfr).
  rewrite Z2Nat.id in * by lia.
  assert (LinkeditOptimizer._stringsPool self'
          = LinkeditOptimizer._stringsPool self1) as ->.
  { destruct (decide (count = 0)) as [Hc0|Hc0].
    - by rewrite (Hz Hc0).
    - by destruct (Hnz Hc0) as (r1 & r2 & _ & _ & ->). }
  done.
Qed.
Lemma image_exported_runs :
  (LinkeditOptimizer.copyExportedSymbols (P := Pointer64) image_optimizer_probed
     image_newLinkedit 24 ≫= λ _, Some ()) = Some ().
Proof. vm_compute. reflexivity. Qed.

Lemma image_wrapped_runs :
  (LinkeditOptimizer.copyImportedSymbols (P := Pointer64) image_optimizer_wrapped
     image_newLinkedit 24 ≫= λ _, Some ()) = Some ().
Proof. vm_compute. reflexivity. Qed.

(** [_foo], the old symbol 1 of the image, becomes the new symbol 1, after
    the placeholder.  Of the imported group that starts at [0xffffffff] and
    counts two symbols nothing is copied: the count and the cursor stay. *)
Lemma symbol_passes_remap_witness :
  match LinkeditOptimizer.copyExportedSymbols (P := Pointer64)
          image_optimizer_probed image_newLinkedit 24 with
  | Some (self', _, offset') =>
      LinkeditOptimizer._symbolsCount self' = 2
      /\ offset' = 40
      /\ LinkeditOptimizer._newSymbolIndicies self' !! (1 + 0) = Some 1
  | None => False
  end
  /\ match LinkeditOptimizer.copyImportedSymbols (P := Pointer64)
             image_optimizer_wrapped image_newLinkedit 24 with
     | Some (self', _, offset') =>
         LinkeditOptimizer._symbolsCount self' = 1
         /\ offset' = 24
         /\ LinkeditOptimizer._newSymbolIndicies self' !! 0xffffffff = None
     | None => False
     end.
Proof.
  split.
  - pose proof image_exported_runs as Hruns.
    destruct (LinkeditOptimizer.copyExportedSymbols _ _ _)
      as [[[self' newLinkedit'] offset']|] eqn:E; [|discriminate Hruns].
    destruct (symbol_passes_remap (P := Pointer64) Exported image_optimizer_probed
                image_newLinkedit 24 self' newLinkedit' offset' 1 1)
      as (Hsc & Hoff & Hmap & _).
    + simpl. lia.
    + apply reachable_add, reachable_new.
    + simpl. lia.
    + vm_compute. discriminate.
    + vm_compute. reflexivity.
    + vm_compute. reflexivity.
    + exact E.
    + split; [exact Hsc|]. split; [exact Hoff|]. apply (Hmap 0).
      change (symbols_copied 1 1) with 1. lia.
  - pose proof image_wrapped_runs as Hruns.
    destruct (LinkeditOptimizer.copyImportedSymbols _ _ _)
      as [[[self' newLinkedit'] offset']|] eqn:E; [|discriminate Hruns].
    destruct (symbol_passes_remap (P := Pointer64) Imported image_optimizer_wrapped
                image_newLinkedit 24 self' newLinkedit' offset' 0xffffffff 2)
      as (Hsc & Hoff & _ & Hmap & _).
    + simpl. lia.
    + apply reachable_add, reachable_new.
    + simpl. lia.
    + vm_compute. discriminate.
    + vm_compute. reflexivity.
    + vm_compute. reflexivity.
    + exact E.
    + split; [exact Hsc|]. split; [exact Hoff|].
      rewrite (Hmap 0xffffffff); [reflexivity|].
      right. change (symbols_copied 0xffffffff 2) with 0. lia.
Defined.

Lemma symbol_passes_entries_witness :
  match LinkeditOptimizer.copyExportedSymbols (P := Pointer64)
          image_optimizer_probed image_newLinkedit 24 with
  | Some (self', newLinkedit', _) =>
      entry_copied (P := Pointer64) image_mem (FILE + 0x440)
        (FILE + 0x400 + 16 * (1 + 0)) (LinkeditOptimizer._stringsPool self')
        newLinkedit' (24 + 16 * 0)
  | None => False
  end.
Proof.
  pose proof image_exported_runs as Hruns.
  destruct (LinkeditOptimizer.copyExportedSymbols _ _ _)
    as [[[self' newLinkedit'] offset']|] eqn:E; [|discriminate Hruns].
  destruct (symbol_passes_entries (P := Pointer64) Exported image_optimizer_probed
              image_newLinkedit 24 self' newLinkedit' offset' 1 1 0x400 0x440)
    as (Hent & _).
  - simpl. lia.
  - apply reachable_add, reachable_new.
  - simpl. lia.
  - vm_compute. discriminate.
  - vm_compute. reflexivity.
  - vm_compute. reflexivity.
  - vm_compute. reflexivity.
  - vm_compute. reflexivity.
  - exact E.
  - apply (Hent 0). change (symbols_copied 1 1) with 1. lia.
Defined.
(** ** The local symbols, one by one *)

Lemma add_strings_extends sp names : extends sp (add_strings sp names).
Proof.
  revert sp. induction names as [|s names IH]; intros sp; [constructor|].
  simpl. eapply extends_trans; [|apply IH]. constructor. constructor.
Qed.




(** The loop of [_copyRedactedLocalSymbols]. *)
Lemma copyRedactedLocalSymbols_loop_spec {P : Pointer} strings (n : nat) :
  4 <= sizeof_nlist ->
  forall entry self nl head count self' nl' count',
    reachable (LinkeditOptimizer._stringsPool self) ->
    0 <= LinkeditOptimizer._symbolsCount self < 2 ^ 32 ->
    0 <= count < 2 ^ 32 ->
    LinkeditOptimizer.copyRedactedLocalSymbols_loop n strings entry self nl head
      count = Some (self', nl', count') ->
    exists names,
      symbol_names (LinkeditOptimizer.ram self) strings entry n = Some names
      /\ same_commands self self'
      /\ LinkeditOptimizer._stringsPool self'
         = add_strings (LinkeditOptimizer._stringsPool self) names
      /\ LinkeditOptimizer._symbolsCount self'
         = wrap32 (LinkeditOptimizer._symbolsCount self + Z.of_nat n)
      /\ count' = wrap32 (count + Z.of_nat n)
      /\ (forall k, 0 <= k < Z.of_nat n ->
            entry_copied (LinkeditOptimizer.ram self) strings
              (entry + sizeof_nlist * k)
              (LinkeditOptimizer._stringsPool self') nl' (head + sizeof_nlist * k))
      /\ (forall x, x < head \/ head + sizeof_nlist * Z.of_nat n <= x ->
            nl' !! x = nl !! x).
Proof.
  intros H4. induction n as [|n IH];
    intros entry self nl head count self' nl' count' Hr Hsc Hcnt H.
  - simpl in H. inversion H; subst. exists []. split; [done|].
    split; [apply same_commands_refl|]. split; [done|].
    rewrite !Z.add_0_r, !wrap32_small by done.
    repeat split; try done. intros; lia.
  - cbn [LinkeditOptimizer.copyRedactedLocalSymbols_loop] in H.
    cbn [symbol_names].
    destruct (load32 _ _) as [n_strx|] eqn:Hn; simpl in H; [|done].
    destruct (c_str _ _) as [str|] eqn:Hstr; simpl in H; [|done].
    simpl. rewrite Hstr. simpl.
    destruct (LinkeditOptimizer.copy_nlist _ _ _ _ _) as [[s1 nl1]|] eqn:Hc;
      simpl in H; [|done].
    destruct (copy_nlist_spec _ _ _ _ _ _ _ H4 Hr Hc) as (-> & Hl & Hb & Hf).
    apply IH in H; simpl;
      [|by constructor|apply wrap32_range|apply wrap32_range].
    simpl in H.
    destruct H as (names & -> & [Hram Hdy] & Hpool & Hsc' & Hcnt' & Hent & Hfr).
    simpl in Hram, Hdy. exists (str :: names). split; [done|].
    split; [done|]. split; [done|].
    split; [rewrite Hsc', wrap32_add_l; f_equal; lia|].
    split; [rewrite Hcnt', wrap32_add_l; f_equal; lia|].
    split.
    + intros k Hk. destruct (decide (k = 0)) as [->|Hk0].
      * rewrite Z.mul_0_r, !Z.add_0_r.
        apply (entry_copied_later _ _ _
                 (addString (LinkeditOptimizer._stringsPool self) str).2 nl1);
          [done| | |].
        -- exists n_strx, str, (addString (LinkeditOptimizer._stringsPool self) str).1.
           split; [done|]. split; [done|]. split; [apply addString_lookup|].
           split; [done|]. done.
        -- rewrite Hpool. apply add_strings_extends.
        -- intros x Hx. apply Hfr. lia.
      * replace (entry + sizeof_nlist * k)
          with (entry + sizeof_nlist + sizeof_nlist * (k - 1)) by lia.
        replace (head + sizeof_nlist * k)
          with (head + sizeof_nlist + sizeof_nlist * (k - 1)) by lia.
        apply Hent. lia.
    + intros x Hx. rewrite Hfr by lia. apply Hf. lia.
Qed.

(** X15.  [_copyRedactedLocalSymbols] copies every symbol entry that
    [_findLocalSymbolEntries] gave it, in their order, with the names read in
    the string table of the symbols file: it returns their number, the
    symbol count and the cursor move by it, the pool is the pool it was
    with their names added, and the [k]-th new entry is the [k]-th entry of
    the symbols file with the offset of its name in the pool; the memory is
    not written.  When [_findLocalSymbolEntries] gave no entry, it copies
    nothing. *)
Theorem copyRedactedLocalSymbols_copies_all {P : Pointer}
    (self : LinkeditOptimizer.t) (newLinkedit : mem) (offset : Z)
    (count : Z) (self' : LinkeditOptimizer.t) (newLinkedit' : mem) (offset' : Z)
    (symbolsCache : SymbolsCache) (symsStart symsEnd stringsOffset : Z) :
  let ram := LinkeditOptimizer.ram self in
  let localSymsInfo := file symbolsCache + localSymbolsOffset symbolsCache in
  let n := (symsEnd - symsStart) / sizeof_nlist in
  4 <= sizeof_nlist ->
  reachable (LinkeditOptimizer._stringsPool self) ->
  0 <= LinkeditOptimizer._symbolsCount self < 2 ^ 32 ->
  getSymbolsCache (LinkeditOptimizer.dCtx self) = Some symbolsCache ->
  localSymbolsOffset symbolsCache ≠ 0 ->
  LinkeditOptimizer._findLocalSymbolEntries self localSymsInfo
    = Some (symsStart, symsEnd) ->
  load32 ram (localSymsInfo + Loader.stringsOffset) = Some stringsOffset ->
  0 <= n ->
  LinkeditOptimizer._copyRedactedLocalSymbols self newLinkedit offset
    = Some (count, self', newLinkedit', offset') ->
  exists names,
    symbol_names ram (localSymsInfo + stringsOffset) symsStart (Z.to_nat n)
      = Some names
    /\ count = wrap32 n
    /\ offset' = wrap32 (offset + sizeof_nlist * count)
    /\ LinkeditOptimizer._symbolsCount self'
       = wrap32 (LinkeditOptimizer._symbolsCount self + n)
    /\ LinkeditOptimizer._stringsPool self'
       = add_strings (LinkeditOptimizer._stringsPool self) names
    /\ LinkeditOptimizer.ram self' = ram
    /\ (forall k, 0 <= k < n ->
          entry_copied ram (localSymsInfo + stringsOffset)
            (symsStart + sizeof_nlist * k)
            (LinkeditOptimizer._stringsPool self') newLinkedit'
            (offset + sizeof_nlist * k))
    /\ (forall x, x < offset \/ offset + sizeof_nlist * n <= x ->
          newLinkedit' !! x = newLinkedit !! x).
Proof.
  intros ram localSymsInfo n H4 Hr Hsc Hcache Hoff Hfind Hso Hn Hrun.
  subst ram localSymsInfo.
  unfold LinkeditOptimizer._copyRedactedLocalSymbols in Hrun.
  rewrite Hcache in Hrun. rewrite decide_False in Hrun by done.
  rewrite Hfind in Hrun. simpl in Hrun. rewrite Hso in Hrun. simpl in Hrun.
  fold n in Hrun.
  destruct (LinkeditOptimizer.copyRedactedLocalSymbols_loop _ _ _ _ _ _ _)
    as [[[self1 nl1] count1]|] eqn:Hloop; simpl in Hrun; [|done].
  inversion Hrun; subst.
  destruct (copyRedactedLocalSymbols_loop_spec _ _ H4 _ _ _ _ 0 _ _ _ Hr Hsc
              ltac:(lia) Hloop)
    as (names & Hnames & [Hram _] & Hpool & Hsc' & Hcnt & Hent & Hfr).
  rewrite Z2Nat.id in * by done. rewrite Z.add_0_l in Hcnt.
  exists names. repeat (split; [done|]). done.
Qed.
(** ** The entries of the symbols file *)

Lemma searchEntries_spec (m : mem) sizeof_T load (n : nat) machoOffset :
  forall entry r,
    LinkeditOptimizer.searchEntries m sizeof_T load n entry machoOffset = Some r ->
    (r = nullptr
     /\ forall k, 0 <= k < Z.of_nat n ->
          exists d, load m (entry + sizeof_T * k) = Some d /\ d ≠ machoOffset)
    \/ (exists k, 0 <= k < Z.of_nat n
          /\ r = entry + sizeof_T * k
          /\ load m (entry + sizeof_T * k) = Some machoOffset
          /\ forall j, 0 <= j < k ->
               exists d, load m (entry + sizeof_T * j) = Some d /\ d ≠ machoOffset).
Proof.
  induction n as [|n IH]; intros entry r H.
  - simpl in H. inversion H; subst. left. split; [done|]. intros; lia.
  - cbn [LinkeditOptimizer.searchEntries] in H.
    destruct (load m entry) as [d|] eqn:Hd; simpl in H; [|done].
    destruct (decide (d = machoOffset)) as [->|Hne].
    + inversion H; subst. right. exists 0.
      rewrite Z.mul_0_r, Z.add_0_r. repeat split; try done; try lia.
    + assert (Hhead : forall j, j = 0 ->
                exists d, load m (entry + sizeof_T * j) = Some d /\ d ≠ machoOffset).
      { intros j ->. rewrite Z.mul_0_r, Z.add_0_r. eauto. }
      assert (Hshift : forall j, entry + sizeof_T + sizeof_T * (j - 1)
                                 = entry + sizeof_T * j) by (intros; lia).
      destruct (IH _ _ H) as [[-> Hall]|(k & Hk & -> & Hm & Hbefore)].
      * left. split; [done|]. intros k Hk.
        destruct (decide (k = 0)) as [->|Hk0]; [by apply Hhead|].
        rewrite <- Hshift. apply Hall. lia.
      * right. exists (k + 1). split; [lia|].
        split; [lia|]. split.
        -- rewrite <- Hm. f_equal. lia.
        -- intros j Hj. destruct (decide (j = 0)) as [->|Hj0]; [by apply Hhead|].
           rewrite <- Hshift. apply Hbefore. lia.
Qed.

(** X14.  [_findLocalSymbolEntries] takes the first entry of the symbols
    file whose [dylibOffset] is the offset of the image: when no entry has
    it, the answer is the pair of null pointers; otherwise the entries
    before the one taken do not have it, and the answer is the range of the
    symbol entries that this entry gives, [nlistCount] entries from the
    entry [nlistStartIndex] on. *)
Theorem findLocalSymbolEntries_first_match {P : Pointer}
    (self : LinkeditOptimizer.t) (symbolsInfo symsStart symsEnd : Z)
    (entriesOffset entriesCount : Z) :
  let ram := LinkeditOptimizer.ram self in
  let entry k := symbolsInfo + entriesOffset + entry_stride self * k in
  load32 ram (symbolsInfo + Loader.entriesOffset) = Some entriesOffset ->
  load32 ram (symbolsInfo + Loader.entriesCount) = Some entriesCount ->
  LinkeditOptimizer._findLocalSymbolEntries self symbolsInfo
    = Some (symsStart, symsEnd) ->
  ((forall k, 0 <= k < entriesCount ->
      exists d, entry_dylibOffset self (entry k) = Some d /\ d ≠ macho_offset self)
   /\ symsStart = nullptr /\ symsEnd = nullptr)
  \/ (exists k,
        0 <= k < entriesCount
        /\ entry_dylibOffset self (entry k) = Some (macho_offset self)
        /\ (forall j, 0 <= j < k ->
              exists d, entry_dylibOffset self (entry j) = Some d
                        /\ d ≠ macho_offset self)
        /\ (entry k ≠ nullptr ->
            exists nlistOffset nlistStartIndex nlistCount,
              load32 ram (symbolsInfo + Loader.nlistOffset) = Some nlistOffset
              /\ load32 ram (entry k + entry_nlistStartIndex self)
                 = Some nlistStartIndex
              /\ load32 ram (entry k + entry_nlistCount self) = Some nlistCount
              /\ (symbolsInfo + nlistOffset + sizeof_nlist * nlistStartIndex
                  ≠ nullptr ->
                  symsStart
                  = symbolsInfo + nlistOffset + sizeof_nlist * nlistStartIndex
                  /\ symsEnd = symsStart + sizeof_nlist * nlistCount))).
Proof.
  intros ram entry Heo Hec Hrun. subst ram entry.
  pose proof (load32_range _ _ _ Hec) as Hecr.
  unfold LinkeditOptimizer._findLocalSymbolEntries in Hrun.
  rewrite Heo, Hec in Hrun. simpl in Hrun.
  unfold entry_dylibOffset, macho_offset, entry_stride, entry_nlistStartIndex,
    entry_nlistCount.
  destruct (headerContainsMember_symbolFileUUID _);
    (destruct (LinkeditOptimizer.searchEntries _ _ _ _ _ _) as [r|] eqn:Hs;
       simpl in Hrun; [|done]);
    apply searchEntries_spec in Hs; rewrite Z2Nat.id in Hs by lia;
    (destruct Hs as [[-> Hall]|(k & Hk & -> & Hm & Hbefore)];
     [left; simpl in Hrun; inversion Hrun; by subst|]);
    right; exists k; repeat (split; [done|]); intros Hnz;
    rewrite decide_True in Hrun by done;
    repeat run_step Hrun;
    repeat run_step E; injection E as <- <-;
    eexists _, _, _;
    (split; [reflexivity|]); (split; [reflexivity|]); (split; [reflexivity|]);
    intros Hstart; first [done | inversion Hrun; by subst].
Qed.
Lemma symbols_entries_found :
  LinkeditOptimizer._findLocalSymbolEntries (P := Pointer64) symbols_optimizer
    (SYMS + 0x100) = Some (SYMS + 0x150, SYMS + 0x160).
Proof. vm_compute. reflexivity. Qed.

(** The entry of the image is found in the symbols file. *)
Lemma findLocalSymbolEntries_first_match_witness :
  exists k,
    0 <= k < 2
    /\ entry_dylibOffset symbols_optimizer
         (SYMS + 0x100 + 0x18 + entry_stride symbols_optimizer * k)
       = Some (macho_offset symbols_optimizer).
Proof.
  destruct (findLocalSymbolEntries_first_match (P := Pointer64) symbols_optimizer
              (SYMS + 0x100) (SYMS + 0x150) (SYMS + 0x160) 0x18 2)
    as [(_ & Hnull & _)|(k & Hk & Hm & _)].
  - vm_compute. reflexivity.
  - vm_compute. reflexivity.
  - exact symbols_entries_found.
  - discriminate Hnull.
  - exists k. split; [exact Hk|exact Hm].
Defined.

Lemma symbols_redacted_runs :
  (LinkeditOptimizer._copyRedactedLocalSymbols (P := Pointer64) symbols_optimizer
     image_newLinkedit 24 ≫= λ _, Some ()) = Some ().
Proof. vm_compute. reflexivity. Qed.

(** The one symbol that the symbols file has for the image is copied. *)
Lemma copyRedactedLocalSymbols_copies_all_witness :
  match LinkeditOptimizer._copyRedactedLocalSymbols (P := Pointer64)
          symbols_optimizer image_newLinkedit 24 with
  | Some (count, self', _, offset') =>
      count = 1 /\ offset' = 40 /\ LinkeditOptimizer._symbolsCount self' = 2
  | None => False
  end.
Proof.
  pose proof symbols_redacted_runs as Hruns.
  destruct (LinkeditOptimizer._copyRedactedLocalSymbols _ _ _)
    as [[[[count self'] newLinkedit'] offset']|] eqn:E; [|discriminate Hruns].
  destruct (copyRedactedLocalSymbols_copies_all (P := Pointer64)
              symbols_optimizer image_newLinkedit 24 count self' newLinkedit'
              offset' {| file := SYMS; localSymbolsOffset := 0x100 |}
              (SYMS + 0x150) (SYMS + 0x160) 0x60)
    as (names & _ & Hcount & Hoff & Hsc & _).
  - simpl. lia.
  - apply reachable_add, reachable_new.
  - simpl. lia.
  - reflexivity.
  - simpl. discriminate.
  - exact symbols_entries_found.
  - vm_compute. reflexivity.
  - vm_compute. discriminate.
  - exact E.
  - assert (count = 1) as -> by (rewrite Hcount; vm_compute; reflexivity).
    split; [reflexivity|]. split; [rewrite Hoff; reflexivity|].
    rewrite Hsc. vm_compute. reflexivity.
Defined.
(** ** The indirect symbol table *)

Lemma count_redacted_exact (m : mem) indirectSymStart (n : nat) :
  forall i count count',
    LinkeditOptimizer.count_redacted m indirectSymStart n i count = Some count' ->
    0 <= count < 2 ^ 32 ->
    exists entries,
      indirect_entries m indirectSymStart i n = Some entries
      /\ count' = wrap32 (count + Z.of_nat (length (filter (λ e, e = 0) entries))).
Proof.
  induction n as [|n IH]; intros i count count' H Hc.
  - simpl in H. inversion H; subst. exists []. split; [done|].
    simpl. by rewrite Z.add_0_r, wrap32_small.
  - cbn [LinkeditOptimizer.count_redacted] in H. cbn [indirect_entries].
    destruct (load32 _ _) as [e|]; simpl in H; [|done]. simpl.
    destruct (decide (e = 0)) as [->|Hne].
    + apply IH in H; [|apply wrap32_range].
      destruct H as (entries & -> & ->). exists (0 :: entries).
      split; [done|]. rewrite filter_cons_True by done. simpl.
      rewrite wrap32_add_l. f_equal. lia.
    + apply IH in H; [|done].
      destruct H as (entries & -> & ->). exists (e :: entries).
      split; [done|]. by rewrite filter_cons_False.
Qed.

(** X16.  [searchRedactedSymbol] counts the entries of the old indirect
    symbol table that are zero: [_redactedSymbolsCount] grows by their
    number.  The entry of the placeholder is written when the count is not
    zero afterwards, whatever it was before: otherwise the buffer, the
    cursor, the symbol count and the pool are as they were. *)
Theorem searchRedactedSymbol_counts_zero_entries {P : Pointer}
    (self : LinkeditOptimizer.t) (newLinkedit : mem) (offset : Z)
    (self' : LinkeditOptimizer.t) (newLinkedit' : mem) (offset' : Z)
    (indirectsymoff nindirectsyms : Z) :
  let ram := LinkeditOptimizer.ram self in
  let dySymTab := LinkeditOptimizer._dySymTab self in
  0 <= LinkeditOptimizer._redactedSymbolsCount self < 2 ^ 32 ->
  load32 ram (dySymTab + Loader.indirectsymoff) = Some indirectsymoff ->
  load32 ram (dySymTab + Loader.nindirectsyms) = Some nindirectsyms ->
  LinkeditOptimizer.searchRedactedSymbol self newLinkedit offset
    = Some (self', newLinkedit', offset') ->
  exists entries,
    indirect_entries ram (LinkeditOptimizer._linkeditFile self + indirectsymoff) 0
      (Z.to_nat nindirectsyms) = Some entries
    /\ LinkeditOptimizer._redactedSymbolsCount self'
       = wrap32 (LinkeditOptimizer._redactedSymbolsCount self
                 + Z.of_nat (length (filter (λ e, e = 0) entries)))
    /\ (LinkeditOptimizer._redactedSymbolsCount self' = 0 ->
        newLinkedit' = newLinkedit /\ offset' = offset
        /\ LinkeditOptimizer._symbolsCount self' = LinkeditOptimizer._symbolsCount self
        /\ LinkeditOptimizer._stringsPool self' = LinkeditOptimizer._stringsPool self
        /\ LinkeditOptimizer.hasRedactedIndirect self'
           = LinkeditOptimizer.hasRedactedIndirect self)
    /\ (LinkeditOptimizer._redactedSymbolsCount self' ≠ 0 ->
        offset' = wrap32 (offset + sizeof_nlist)
        /\ LinkeditOptimizer._symbolsCount self'
           = wrap32 (LinkeditOptimizer._symbolsCount self + 1)
        /\ LinkeditOptimizer.hasRedactedIndirect self' = true)
    /\ LinkeditOptimizer.ram self' = ram.
Proof.
  intros ram dySymTab Hrc Hoff Hn Hrun. subst ram dySymTab.
  unfold LinkeditOptimizer.searchRedactedSymbol in Hrun.
  rewrite Hoff in Hrun. simpl in Hrun. rewrite Hn in Hrun. simpl in Hrun.
  destruct (LinkeditOptimizer.count_redacted _ _ _ _ _) as [count|] eqn:Hc;
    simpl in Hrun; [|done].
  destruct (count_redacted_exact _ _ _ _ _ _ Hc Hrc) as (entries & He & Hcount).
  exists entries. split; [done|].
  destruct (decide (count ≠ 0)) as [Hnz|Hz].
  - destruct (addString _ _) as [strIndex pool].
    destruct (store32 _ _ _) as [nl1|]; simpl in Hrun; [|done].
    destruct (store8 _ _ _) as [nl2|]; simpl in Hrun; [|done].
    inversion Hrun; subst self' newLinkedit' offset'. simpl.
    split; [done|]. split; [done|]. done.
  - inversion Hrun; subst self' newLinkedit' offset'. simpl.
    split; [done|]. split; [done|]. split; [|done]. intros Hc'. done.
Qed.
Lemma image_indirect_entries :
  indirect_entries image_mem (FILE + 0x460) 0 (Z.to_nat 3)
  = Some [2; 0; INDIRECT_SYMBOL_LOCAL].
Proof. vm_compute. reflexivity. Qed.

(** One of the three entries of the image is zero. *)
Lemma searchRedactedSymbol_counts_zero_entries_witness :
  match LinkeditOptimizer.searchRedactedSymbol (P := Pointer64) image_optimizer
          image_newLinkedit 8 with
  | Some (self', _, _) => LinkeditOptimizer._redactedSymbolsCount self' = 1
  | None => False
  end.
Proof.
  pose proof image_search_runs as Hruns.
  destruct (LinkeditOptimizer.searchRedactedSymbol _ _ _)
    as [[[self' newLinkedit'] offset']|] eqn:E; [|discriminate Hruns].
  destruct (searchRedactedSymbol_counts_zero_entries (P := Pointer64)
              image_optimizer image_newLinkedit 8 self' newLinkedit' offset'
              0x460 3) as (entries & He & Hcount & _).
  - simpl. lia.
  - vm_compute. reflexivity.
  - vm_compute. reflexivity.
  - exact E.
  - pose proof image_indirect_entries as Hl.
    change (LinkeditOptimizer.ram image_optimizer) with image_mem in He.
    change (LinkeditOptimizer._linkeditFile image_optimizer) with FILE in He.
    rewrite Hl in He. injection He as <-. rewrite Hcount. vm_compute. reflexivity.
Defined.
(** X17.  [endSymbolEntries] moves the cursor behind one entry for every
    redacted symbol counted, entries that no pass has written; it leaves in
    the [symtab_command] the file offset of the start of the symbol entries
    and, for [nsyms], the number of entries written, without those; it tracks
    the region from the start of the entries to the cursor; the buffer and
    the rest of the memory are as they were. *)
Theorem endSymbolEntries_fields {P : Pointer}
    (self : LinkeditOptimizer.t) (newLinkedit : mem) (offset : Z)
    (self' : LinkeditOptimizer.t) (newLinkedit' : mem) (offset' : Z) :
  let symTab := LinkeditOptimizer._symTab self in
  let start := LinkeditOptimizer._newSymbolEntriesStart self in
  symTab ≠ nullptr ->
  LinkeditOptimizer.endSymbolEntries self newLinkedit offset
    = Some (self', newLinkedit', offset') ->
  offset' = wrap32 (offset + sizeof_nlist
                             * LinkeditOptimizer._redactedSymbolsCount self)
  /\ newLinkedit' = newLinkedit
  /\ load32 (LinkeditOptimizer.ram self') (symTab + Loader.symoff)
     = Some (wrap32 (LinkeditOptimizer._linkeditOffset self + start))
  /\ load32 (LinkeditOptimizer.ram self') (symTab + Loader.nsyms)
     = Some (wrap32 (LinkeditOptimizer._symbolsCount self))
  /\ (forall x, x < symTab + Loader.symoff \/ symTab + Loader.nsyms + 4 <= x ->
        LinkeditOptimizer.ram self' !! x = LinkeditOptimizer.ram self !! x)
  /\ LinkeditOptimizer._linkeditTracker self'
     = LinkeditTracker.trackData (LinkeditOptimizer._linkeditTracker self)
         (LinkeditData (symTab + Loader.symoff)
            (LinkeditOptimizer._linkeditStart self + start)
            (alignR (wrap32 (offset' - start)) 8)).
Proof.
  intros symTab start Hcmd Hrun. subst symTab start.
  unfold LinkeditOptimizer.endSymbolEntries in Hrun.
  rewrite decide_False in Hrun by done. simpl in Hrun.
  destruct (store32 _ _ _) as [r1|] eqn:H1; simpl in Hrun; [|done].
  destruct (store32 r1 _ _) as [r2|] eqn:H2; simpl in Hrun; [|done].
  inversion Hrun; subst. simpl. unfold Loader.symoff, Loader.nsyms in *.
  split; [done|]. split; [done|]. split; [|split; [|split; [|done]]].
  - rewrite (load32_store32_other _ _ _ _ _ H2) by lia.
    rewrite (load32_store32 _ _ _ _ H1). by rewrite wrap32_idemp.
  - by rewrite (load32_store32 _ _ _ _ H2).
  - intros x Hx. rewrite (store32_other _ _ _ _ _ H2) by lia.
    apply (store32_other _ _ _ _ _ H1). lia.
Qed.

Lemma image_end_runs :
  (LinkeditOptimizer.endSymbolEntries (P := Pointer64)
     image_optimizer_symbols_copied image_newLinkedit 56 ≫= λ _, Some ())
  = Some ().
Proof. vm_compute. reflexivity. Qed.

(** The image has three symbols written from 8 on and one redacted symbol
    counted: the cursor goes from 56 to 72, and [nsyms] is 3. *)
Lemma endSymbolEntries_fields_witness :
  match LinkeditOptimizer.endSymbolEntries (P := Pointer64)
          image_optimizer_symbols_copied image_newLinkedit 56 with
  | Some (self', _, offset') =>
      offset' = 72
      /\ load32 (LinkeditOptimizer.ram self') (FILE + 0x50 + Loader.nsyms) = Some 3
  | None => False
  end.
Proof.
  pose proof image_end_runs as Hruns.
  destruct (LinkeditOptimizer.endSymbolEntries _ _ _)
    as [[[self' newLinkedit'] offset']|] eqn:E; [|discriminate Hruns].
  destruct (endSymbolEntries_fields (P := Pointer64)
              image_optimizer_symbols_copied image_newLinkedit 56 self'
              newLinkedit' offset') as (Hoff & _ & _ & Hn & _).
  - vm_compute. discriminate.
  - exact E.
  - split; [rewrite Hoff; reflexivity|exact Hn].
Defined.

Lemma map_subscript_recorded (remap0 remap : gmap Z Z) e :
  (forall k v, remap0 !! k = Some v -> remap !! k = Some v) ->
  (forall k v, remap0 !! k = Some v -> (map_subscript remap e).2 !! k = Some v)
  /\ (forall v, remap0 !! e = Some v -> (map_subscript remap e).1 = v).
Proof.
  intros H. unfold map_subscript. split.
  - intros k v Hk. destruct (remap !! e) eqn:E; simpl; [by apply H|].
    rewrite lookup_insert_ne; [by apply H|]. intros ->.
    apply H in Hk. congruence.
  - intros v Hv. apply H in Hv. by rewrite Hv.
Qed.

Lemma copyIndirect_loop_recorded m entries newEntries (remap0 : gmap Z Z) n :
  forall entryIndex (remap : gmap Z Z) (newLinkedit : mem) remap' newLinkedit',
    LinkeditOptimizer.copyIndirect_loop m n entries newEntries entryIndex remap
      newLinkedit = Some (remap', newLinkedit') ->
    (forall k v, remap0 !! k = Some v -> remap !! k = Some v) ->
    (forall k v, remap0 !! k = Some v -> remap' !! k = Some v)
    /\ (forall x, x < newEntries + 4 * entryIndex
                  \/ newEntries + 4 * (entryIndex + Z.of_nat n) <= x ->
          newLinkedit' !! x = newLinkedit !! x)
    /\ (forall i e v, entryIndex <= i < entryIndex + Z.of_nat n ->
          load32 m (entries + 4 * i) = Some e ->
          remap0 !! e = Some v ->
          load32 newLinkedit' (newEntries + 4 * i) = Some (wrap32 v)).
Proof.
  induction n as [|n IH]; intros entryIndex remap nl remap' nl' Hrun Hinv.
  - simpl in Hrun. inversion Hrun; subst. split; [done|]. split; [done|].
    intros; lia.
  - cbn [LinkeditOptimizer.copyIndirect_loop] in Hrun.
    destruct (load32 m (entries + 4 * entryIndex)) as [e0|] eqn:He0;
      simpl in Hrun; [|done].
    match type of Hrun with
    | (?first ≫= _) = _ => destruct first as [nl1|] eqn:Hnl1
    end; simpl in Hrun; [|done].
    assert (Hnl1' : forall x, x < newEntries + 4 * entryIndex
                              \/ newEntries + 4 * entryIndex + 4 <= x ->
                      nl1 !! x = nl !! x).
    { intros x Hx. destruct (decide _) in Hnl1.
      - by apply (store32_other _ _ _ _ _ Hnl1).
      - by inversion Hnl1. }
    destruct (map_subscript_recorded remap0 remap e0 Hinv) as [Hinv' Hv].
    destruct (map_subscript remap e0) as [v remap1] eqn:Hsub. simpl in *.
    destruct (store32 nl1 (newEntries + 4 * entryIndex) v) as [nl2|] eqn:Hnl2;
      simpl in Hrun; [|done].
    destruct (IH _ _ _ _ _ Hrun Hinv') as (Hkeys & Hframe & Hrec).
    split; [done|]. split.
    + intros x Hx. rewrite Hframe by lia.
      rewrite (store32_other _ _ _ _ _ Hnl2) by lia. apply Hnl1'. lia.
    + intros i e v' Hi He Hsome.
      destruct (decide (i = entryIndex)) as [->|Hne].
      * rewrite He0 in He. inversion He; subst.
        rewrite <- (Hv _ Hsome), <- (load32_store32 _ _ _ _ Hnl2).
        apply load32_ext. intros x Hx. apply Hframe. lia.
      * apply (Hrec i e); [lia|done|done].
Qed.

(** X18.  [copyIndirectSymbolTable] writes, for every entry of the old table
    that is a key of the remapping table, the value the table has for it,
    whatever the entry is; it keeps what the table had, leaves the buffer
    outside the new table as it was, leaves the file offset of the new table
    in the [dysymtab_command], and moves the cursor by the size of the
    table aligned to 8 by [alignR]. *)
Theorem copyIndirectSymbolTable_recorded
    (self : LinkeditOptimizer.t) (newLinkedit : mem) (offset : Z)
    (self' : LinkeditOptimizer.t) (newLinkedit' : mem) (offset' : Z)
    (indirectsymoff nindirectsyms : Z) :
  let ram := LinkeditOptimizer.ram self in
  let dySymTab := LinkeditOptimizer._dySymTab self in
  dySymTab ≠ nullptr ->
  load32 ram (dySymTab + Loader.indirectsymoff) = Some indirectsymoff ->
  load32 ram (dySymTab + Loader.nindirectsyms) = Some nindirectsyms ->
  LinkeditOptimizer.copyIndirectSymbolTable self newLinkedit offset
    = Some (self', newLinkedit', offset') ->
  (forall i e v, 0 <= i < nindirectsyms ->
     load32 ram (LinkeditOptimizer._linkeditFile self + indirectsymoff + 4 * i)
     = Some e ->
     LinkeditOptimizer._newSymbolIndicies self !! e = Some v ->
     load32 newLinkedit' (offset + 4 * i) = Some (wrap32 v))
  /\ (forall k v, LinkeditOptimizer._newSymbolIndicies self !! k = Some v ->
        LinkeditOptimizer._newSymbolIndicies self' !! k = Some v)
  /\ (forall x, x < offset \/ offset + 4 * nindirectsyms <= x ->
        newLinkedit' !! x = newLinkedit !! x)
  /\ load32 (LinkeditOptimizer.ram self') (dySymTab + Loader.indirectsymoff)
     = Some (wrap32 (LinkeditOptimizer._linkeditOffset self + offset))
  /\ (forall x, x < dySymTab + Loader.indirectsymoff
                \/ dySymTab + Loader.indirectsymoff + 4 <= x ->
        LinkeditOptimizer.ram self' !! x = ram !! x)
  /\ offset' = wrap32 (offset + alignR (wrap32 (nindirectsyms * 4)) 8).
Proof.
  intros ram dySymTab Hdy Hoff Hn Hrun. subst ram dySymTab.
  pose proof (load32_range _ _ _ Hn) as Hnr.
  unfold LinkeditOptimizer.copyIndirectSymbolTable in Hrun.
  rewrite decide_False in Hrun by done.
  rewrite Hoff in Hrun. simpl in Hrun. rewrite Hn in Hrun. simpl in Hrun.
  destruct (LinkeditOptimizer.copyIndirect_loop _ _ _ _ _ _ _)
    as [[remap' nl']|] eqn:Hloop; simpl in Hrun; [|done].
  destruct (store32 _ _ _) as [ram'|] eqn:Hst in Hrun; simpl in Hrun; [|done].
  inversion Hrun; subst.
  destruct (copyIndirect_loop_recorded _ _ _
              (LinkeditOptimizer._newSymbolIndicies self) _ _ _ _ _ _ Hloop)
    as (Hkeys & Hframe & Hrec); [done|].
  rewrite Z2Nat.id in * by lia. simpl.
  split; [intros i e v Hi; apply Hrec; lia|]. split; [done|].
  split; [intros x Hx; apply Hframe; lia|].
  split; [|split; [|done]].
  - rewrite (load32_store32 _ _ _ _ Hst). by rewrite wrap32_idemp.
  - intros x Hx. by apply (store32_other _ _ _ _ _ Hst).
Qed.

(** The first entry of the image is the old index 2, [_bar], whose new
    index is 2. *)
Lemma copyIndirectSymbolTable_recorded_witness :
  match LinkeditOptimizer.copyIndirectSymbolTable image_optimizer_symbols_copied
          image_newLinkedit 80 with
  | Some (_, newLinkedit', offset') =>
      load32 newLinkedit' (80 + 4 * 0) = Some 2 /\ offset' = 96
  | None => False
  end.
Proof.
  pose proof image_indirect_runs as Hruns.
  destruct (LinkeditOptimizer.copyIndirectSymbolTable _ _ _)
    as [[[self' newLinkedit'] offset']|] eqn:E; [|discriminate Hruns].
  destruct (copyIndirectSymbolTable_recorded image_optimizer_symbols_copied
              image_newLinkedit 80 self' newLinkedit' offset' 0x460 3)
    as (Hrec & _ & _ & _ & _ & Hoff).
  - vm_compute. discriminate.
  - vm_compute. reflexivity.
  - vm_compute. reflexivity.
  - exact E.
  - split; [|rewrite Hoff; reflexivity].
    apply (Hrec 0 2 2); [lia|vm_compute; reflexivity|vm_compute; reflexivity].
Defined.
(** X19.  [copyStringPool] writes the pool at the cursor and leaves in the
    [symtab_command] the file offset of the strings and, for [strsize], the
    length of the pool; the cursor moves by that length aligned to 8 by
    [alignR]; nothing is written outside the strings; and where the buffer
    was zero, the name of a symbol is read back at the offset that its entry
    holds.
    The pool is one built from the constructor's, of fewer than [2 ^ 32]
    bytes. *)
Theorem copyStringPool_fields
    (self : LinkeditOptimizer.t) (newLinkedit : mem) (offset : Z)
    (self' : LinkeditOptimizer.t) (newLinkedit' : mem) (offset' : Z) :
  let symTab := LinkeditOptimizer._symTab self in
  let pool := LinkeditOptimizer._stringsPool self in
  reachable pool -> pool_bytes pool < 2 ^ 32 ->
  LinkeditOptimizer.copyStringPool self newLinkedit offset
    = Some (self', newLinkedit', offset') ->
  load32 (LinkeditOptimizer.ram self') (symTab + Loader.stroff)
  = Some (wrap32 (LinkeditOptimizer._linkeditOffset self + offset))
  /\ load32 (LinkeditOptimizer.ram self') (symTab + Loader.strsize)
     = Some (_stringsLength pool)
  /\ offset' = wrap32 (offset + alignR (_stringsLength pool) 8)
  /\ (forall x, x < symTab + Loader.stroff \/ symTab + Loader.strsize + 4 <= x ->
        LinkeditOptimizer.ram self' !! x = LinkeditOptimizer.ram self !! x)
  /\ (forall x, x < offset \/ offset + _stringsLength pool <= x ->
        newLinkedit' !! x = newLinkedit !! x)
  /\ ((forall a, offset <= a < offset + _stringsLength pool ->
         newLinkedit !! a = Some zero) ->
      forall s o, _pool pool !! s = Some o -> nul_free s ->
        c_str newLinkedit' (offset + o) = Some s).
Proof.
  intros symTab pool Hr Hlt Hrun. subst symTab pool.
  pose proof (reachable_inv _ Hr Hlt) as Hinv.
  pose proof (proj1 (reachable_range _ Hr)) as Hlen.
  unfold LinkeditOptimizer.copyStringPool in Hrun.
  destruct (writeStrings _ _ _) as [[size nl1]|] eqn:Hw; simpl in Hrun; [|done].
  destruct (store32 _ _ _) as [r1|] eqn:H1; simpl in Hrun; [|done].
  destruct (store32 r1 _ _) as [r2|] eqn:H2; simpl in Hrun; [|done].
  inversion Hrun; subst. simpl.
  assert (size = _stringsLength (LinkeditOptimizer._stringsPool self)) as ->
    by (apply (writeStrings_length _ _ _ _ _ Hinv ltac:(lia) Hw)).
  unfold Loader.stroff, Loader.strsize in *.
  split; [|split; [|split; [done|split; [|split]]]].
  - rewrite (load32_store32_other _ _ _ _ _ H2) by lia.
    rewrite (load32_store32 _ _ _ _ H1). by rewrite wrap32_idemp.
  - rewrite (load32_store32 _ _ _ _ H2). by rewrite wrap32_small.
  - intros x Hx. rewrite (store32_other _ _ _ _ _ H2) by lia.
    apply (store32_other _ _ _ _ _ H1). lia.
  - intros x Hx. unfold writeStrings in Hw.
    destruct (write_all _ _ _) as [m1|] eqn:Hwa; simpl in Hw; [|done].
    destruct (last _) as [[o' s']|]; simpl in Hw; [|done].
    inversion Hw; subst. apply (write_all_frame _ _ _ _ _ Hwa).
    intros o s Hin%elem_of_sorted_entries.
    destruct Hinv as (Hb & _). destruct (Hb _ _ Hin). lia.
  - intros Hzero s o Hs Hnf. unfold writeStrings in Hw.
    destruct (write_all _ _ _) as [m1|] eqn:Hwa; simpl in Hw; [|done].
    destruct (last _) as [[o' s']|]; simpl in Hw; [|done].
    injection Hw as _ <-.
    by apply (write_all_read_back _ _ _ _ _ _ Hr Hlt Hzero Hwa).
Qed.

Lemma image_strings_run :
  (LinkeditOptimizer.copyStringPool image_optimizer_symbols_copied
     image_newLinkedit 96 ≫= λ _, Some ()) = Some ().
Proof. vm_compute. reflexivity. Qed.

(** The pool of the image holds ["<redacted>"], [_foo] and [_bar]: 22
    bytes. *)
Lemma copyStringPool_fields_witness :
  match LinkeditOptimizer.copyStringPool image_optimizer_symbols_copied
          image_newLinkedit 96 with
  | Some (self', newLinkedit', offset') =>
      load32 (LinkeditOptimizer.ram self') (FILE + 0x50 + Loader.strsize) = Some 22
      /\ offset' = 120
      /\ c_str newLinkedit' (96 + 12) = Some "_foo"%string
  | None => False
  end.
Proof.
  pose proof image_strings_run as Hruns.
  destruct (LinkeditOptimizer.copyStringPool _ _ _)
    as [[[self' newLinkedit'] offset']|] eqn:E; [|discriminate Hruns].
  destruct (copyStringPool_fields image_optimizer_symbols_copied
              image_newLinkedit 96 self' newLinkedit' offset')
    as (_ & Hsize & Hoff & _ & _ & Hback).
  - apply reachable_add, reachable_add, reachable_add, reachable_new.
  - vm_compute. reflexivity.
  - exact E.
  - split; [exact Hsize|]. split; [rewrite Hoff; reflexivity|].
    apply Hback.
    + intros a Ha. apply calloc_lookup.
      replace (_stringsLength
                 (LinkeditOptimizer._stringsPool image_optimizer_symbols_copied))
        with 22 in Ha by (vm_compute; reflexivity).
      lia.
    + vm_compute. reflexivity.
    + unfold nul_free. simpl. rewrite !not_elem_of_cons.
      split_and!; [discriminate..|apply not_elem_of_nil].
Defined.

(** ** What every pass keeps *)

(** One step through a run that returned, up to its result. *)
Ltac pass_step H :=
  first
    [ run_step H
    | lazymatch type of H with
      | Some _ = Some _ => inversion H; subst; clear H
      end ].

Lemma keeps_refl self : keeps self self.
Proof. split; [done|]. split; [constructor|done]. Qed.

Lemma keeps_trans s1 s2 s3 : keeps s1 s2 -> keeps s2 s3 -> keeps s1 s3.
Proof.
  intros (Hw1 & He1 & Hm1) (Hw2 & He2 & Hm2). split; [auto|].
  split; [by eapply extends_trans|congruence].
Qed.

(** A step that changes the memory, the tracker, the flag, the start of the
    entries or the remapping table only. *)
Lemma keeps_same_pool self self' :
  LinkeditOptimizer._stringsPool self' = LinkeditOptimizer._stringsPool self ->
  LinkeditOptimizer._symbolsCount self' = LinkeditOptimizer._symbolsCount self ->
  LinkeditOptimizer._redactedSymbolsCount self'
  = LinkeditOptimizer._redactedSymbolsCount self ->
  LinkeditOptimizer.mCtx self' = LinkeditOptimizer.mCtx self ->
  keeps self self'.
Proof.
  intros Hp Hs Hr Hm. unfold keeps, well_formed. rewrite Hp, Hs, Hr.
  split; [done|]. split; [constructor|done].
Qed.

Lemma keeps_add_symbol self str :
  keeps self
    (LinkeditOptimizer.set_symbolsCount
       (LinkeditOptimizer.set_stringsPool self
          (addString (LinkeditOptimizer._stringsPool self) str).2)
       (wrap32 (LinkeditOptimizer._symbolsCount self + 1))).
Proof.
  unfold keeps, well_formed. simpl. split.
  - intros (Hr & _ & Hrc). split; [by constructor|].
    split; [apply wrap32_range|done].
  - split; [constructor; constructor|done].
Qed.

Lemma copy_nlist_object {P : Pointer} self nl newEntry entry str self' nl' :
  LinkeditOptimizer.copy_nlist self nl newEntry entry str = Some (self', nl') ->
  self' = LinkeditOptimizer.set_stringsPool self
            (addString (LinkeditOptimizer._stringsPool self) str).2.
Proof.
  unfold LinkeditOptimizer.copy_nlist. intros H.
  destruct (memcpy _ _ _ _ _) as [nl1|]; simpl in H; [|done].
  destruct (addString _ _) as [strx pool].
  destruct (store32 _ _ _) as [nl2|]; simpl in H; [|done].
  by inversion H.
Qed.

Lemma copyPublicLocalSymbols_loop_keeps {P : Pointer} n :
  forall strings entry self nl head count self' nl' count',
    0 <= count < 2 ^ 32 ->
    LinkeditOptimizer.copyPublicLocalSymbols_loop n strings entry self nl head count
      = Some (self', nl', count') ->
    keeps self self' /\ 0 <= count' < 2 ^ 32.
Proof.
  induction n as [|n IH];
    intros strings entry self nl head count self' nl' count' Hc H.
  - simpl in H. inversion H; subst. split; [apply keeps_refl|done].
  - cbn [LinkeditOptimizer.copyPublicLocalSymbols_loop] in H.
    destruct (load32 _ _) as [n_strx|]; simpl in H; [|done].
    destruct (c_str _ _) as [str|]; simpl in H; [|done].
    destruct (decide _) in H; [by eapply IH|].
    destruct (LinkeditOptimizer.copy_nlist _ _ _ _ _) as [[s1 nl1]|] eqn:Hcp;
      simpl in H; [|done].
    apply copy_nlist_object in Hcp as ->.
    apply IH in H as [Hk Hc']; [|apply wrap32_range]. split; [|done].
    eapply keeps_trans; [apply keeps_add_symbol|exact Hk].
Qed.

Lemma copyRedactedLocalSymbols_loop_keeps {P : Pointer} n :
  forall strings entry self nl head count self' nl' count',
    0 <= count < 2 ^ 32 ->
    LinkeditOptimizer.copyRedactedLocalSymbols_loop n strings entry self nl head
      count = Some (self', nl', count') ->
    keeps self self' /\ 0 <= count' < 2 ^ 32.
Proof.
  induction n as [|n IH];
    intros strings entry self nl head count self' nl' count' Hc H.
  - simpl in H. inversion H; subst. split; [apply keeps_refl|done].
  - cbn [LinkeditOptimizer.copyRedactedLocalSymbols_loop] in H.
    destruct (load32 _ _) as [n_strx|]; simpl in H; [|done].
    destruct (c_str _ _) as [str|]; simpl in H; [|done].
    destruct (LinkeditOptimizer.copy_nlist _ _ _ _ _) as [[s1 nl1]|] eqn:Hcp;
      simpl in H; [|done].
    apply copy_nlist_object in Hcp as ->.
    apply IH in H as [Hk Hc']; [|apply wrap32_range]. split; [|done].
    eapply keeps_trans; [apply keeps_add_symbol|exact Hk].
Qed.

Lemma copySymbols_loop_keeps {P : Pointer} n :
  forall syms strings symIndex self nl head count self' nl' count',
    0 <= count < 2 ^ 32 ->
    LinkeditOptimizer.copySymbols_loop n syms strings symIndex self nl head count
      = Some (self', nl', count') ->
    keeps self self' /\ 0 <= count' < 2 ^ 32.
Proof.
  induction n as [|n IH];
    intros syms strings symIndex self nl head count self' nl' count' Hc H.
  - simpl in H. inversion H; subst. split; [apply keeps_refl|done].
  - cbn [LinkeditOptimizer.copySymbols_loop] in H.
    destruct (load32 _ _) as [n_strx|]; simpl in H; [|done].
    destruct (c_str _ _) as [str|]; simpl in H; [|done].
    destruct (LinkeditOptimizer.copy_nlist _ _ _ _ _) as [[s1 nl1]|] eqn:Hcp;
      simpl in H; [|done].
    apply copy_nlist_object in Hcp as ->.
    apply IH in H as [Hk Hc']; [|apply wrap32_range]. split; [|done].
    eapply keeps_trans; [|exact Hk].
    eapply keeps_trans; [apply (keeps_add_symbol self str)|].
    by apply keeps_same_pool.
Qed.

Lemma searchRedactedSymbol_keeps {P : Pointer} self nl offset self' nl' offset' :
  0 <= LinkeditOptimizer._redactedSymbolsCount self < 2 ^ 32 ->
  0 <= offset < 2 ^ 32 ->
  LinkeditOptimizer.searchRedactedSymbol self nl offset = Some (self', nl', offset') ->
  keeps self self' /\ 0 <= offset' < 2 ^ 32.
Proof.
  intros Hrc Hoff H. unfold LinkeditOptimizer.searchRedactedSymbol in H.
  run_step H. run_step H.
  destruct (LinkeditOptimizer.count_redacted _ _ _ _ _) as [count|] eqn:Hc;
    simpl in H; [|done].
  assert (0 <= count < 2 ^ 32) as Hcount.
  { destruct (count_redacted_exact _ _ _ _ _ _ Hc Hrc) as (entries & _ & ->).
    apply wrap32_range. }
  destruct (decide (count ≠ 0)) as [Hnz|Hz].
  - destruct (addString _ _) as [strIndex pool] eqn:Hadd.
    destruct (store32 _ _ _) as [nl1|]; simpl in H; [|done].
    destruct (store8 _ _ _) as [nl2|]; simpl in H; [|done].
    inversion H; subst. split; [|apply wrap32_range].
    unfold keeps, well_formed. simpl.
    assert (pool = (addString (LinkeditOptimizer._stringsPool self)
                      "<redacted>").2) as ->
      by (symmetry; exact (f_equal snd Hadd)).
    split.
    + intros (Hr & _ & _). split; [by constructor|].
      split; [apply wrap32_range|done].
    + split; [constructor; constructor|done].
  - inversion H; subst. split; [|done].
    unfold keeps, well_formed. simpl. split; [|split; [constructor|done]].
    intros (Hr & Hs & _). done.
Qed.

Lemma _copyPublicLocalSymbols_keeps {P : Pointer} self nl offset count self' nl'
    offset' :
  0 <= offset < 2 ^ 32 ->
  LinkeditOptimizer._copyPublicLocalSymbols self nl offset
    = Some (count, self', nl', offset') ->
  keeps self self' /\ 0 <= offset' < 2 ^ 32.
Proof.
  intros Hoff H. unfold LinkeditOptimizer._copyPublicLocalSymbols in H.
  repeat pass_step H; try (split; [apply keeps_refl|done]).
  split; [|apply wrap32_range].
  match goal with
  | E : LinkeditOptimizer.copyPublicLocalSymbols_loop _ _ _ _ _ _ _ = Some _ |- _ =>
      apply copyPublicLocalSymbols_loop_keeps in E as [Hk _]; [done|lia]
  end.
Qed.

Lemma _copyRedactedLocalSymbols_keeps {P : Pointer} self nl offset count self' nl'
    offset' :
  0 <= offset < 2 ^ 32 ->
  LinkeditOptimizer._copyRedactedLocalSymbols self nl offset
    = Some (count, self', nl', offset') ->
  keeps self self' /\ 0 <= offset' < 2 ^ 32.
Proof.
  intros Hoff H. unfold LinkeditOptimizer._copyRedactedLocalSymbols in H.
  destruct (getSymbolsCache _) as [cache|];
    [|inversion H; subst; split; [apply keeps_refl|done]].
  repeat pass_step H; try (split; [apply keeps_refl|done]).
  split; [|apply wrap32_range].
  match goal with
  | E : LinkeditOptimizer.copyRedactedLocalSymbols_loop _ _ _ _ _ _ _ = Some _
    |- _ =>
      apply copyRedactedLocalSymbols_loop_keeps in E as [Hk _]; [done|lia]
  end.
Qed.

Lemma copyLocalSymbols_keeps {P : Pointer} self nl offset self' nl' offset' :
  0 <= offset < 2 ^ 32 ->
  LinkeditOptimizer.copyLocalSymbols self nl offset = Some (self', nl', offset') ->
  keeps self self' /\ 0 <= offset' < 2 ^ 32.
Proof.
  intros Hoff H. unfold LinkeditOptimizer.copyLocalSymbols in H.
  destruct (LinkeditOptimizer._copyPublicLocalSymbols _ _ _)
    as [[[[c1 s1] nl1] o1]|] eqn:H1; simpl in H; [|done].
  destruct (LinkeditOptimizer._copyRedactedLocalSymbols _ _ _)
    as [[[[c2 s2] nl2] o2]|] eqn:H2; simpl in H; [|done].
  apply _copyPublicLocalSymbols_keeps in H1 as [Hk1 Ho1]; [|done].
  apply _copyRedactedLocalSymbols_keeps in H2 as [Hk2 Ho2]; [|done].
  assert (keeps s2 self') as Hk3
    by (repeat pass_step H; first [by apply keeps_same_pool|apply keeps_refl]).
  assert (offset' = o2) as -> by (repeat pass_step H; done).
  split; [|done]. eapply keeps_trans; [exact Hk1|].
  eapply keeps_trans; [exact Hk2|exact Hk3].
Qed.

Lemma symbols_pass_keeps {P : Pointer} g self nl offset self' nl' offset' :
  0 <= offset < 2 ^ 32 ->
  symbols_pass g self nl offset = Some (self', nl', offset') ->
  keeps self self' /\ 0 <= offset' < 2 ^ 32.
Proof.
  intros Hoff H.
  destruct g; simpl in H;
    [unfold LinkeditOptimizer.copyExportedSymbols in H
    |unfold LinkeditOptimizer.copyImportedSymbols in H];
    (destruct (decide _) in H;
     [inversion H; subst; split; [apply keeps_refl|done]|]);
    repeat pass_step H;
    repeat match goal with
    | E : (if decide _ then _ else _) = Some _ |- _ => repeat pass_step E
    end;
    (split; [|apply wrap32_range]);
    match goal with
    | E : LinkeditOptimizer.copySymbols_loop _ _ _ _ _ _ _ _ = Some _ |- _ =>
        apply copySymbols_loop_keeps in E as [Hk _]; [|lia]
    end;
    first [exact Hk
          |eapply keeps_trans; [exact Hk|by apply keeps_same_pool]].
Qed.

Ltac keeps_by_steps H :=
  repeat pass_step H;
  repeat match goal with
  | E : (if decide _ then _ else _) = Some _ |- _ => repeat pass_step E
  end;
  try (split; [first [by apply keeps_same_pool | apply keeps_refl]
              |first [apply wrap32_range | done]]).

Lemma run_pass_keeps {P : Pointer} p self nl offset self' nl' offset' :
  0 <= LinkeditOptimizer._redactedSymbolsCount self < 2 ^ 32 ->
  0 <= offset < 2 ^ 32 ->
  run_pass p self nl offset = Some (self', nl', offset') ->
  keeps self self' /\ 0 <= offset' < 2 ^ 32.
Proof.
  intros Hrc Hoff Hrun. destruct p; simpl in Hrun.
  - unfold LinkeditOptimizer.copyBindingInfo in Hrun. keeps_by_steps Hrun.
  - unfold LinkeditOptimizer.copyWeakBindingInfo in Hrun. keeps_by_steps Hrun.
  - unfold LinkeditOptimizer.copyLazyBindingInfo in Hrun. keeps_by_steps Hrun.
  - apply copyExportInfo_nothing in Hrun. injection Hrun as <- <- <-.
    split; [apply keeps_refl|done].
  - unfold LinkeditOptimizer.startSymbolEntries in Hrun. keeps_by_steps Hrun.
  - exact (searchRedactedSymbol_keeps _ _ _ _ _ _ Hrc Hoff Hrun).
  - exact (copyLocalSymbols_keeps _ _ _ _ _ _ Hoff Hrun).
  - exact (symbols_pass_keeps Exported _ _ _ _ _ _ Hoff Hrun).
  - exact (symbols_pass_keeps Imported _ _ _ _ _ _ Hoff Hrun).
  - unfold LinkeditOptimizer.endSymbolEntries in Hrun. keeps_by_steps Hrun.
  - unfold LinkeditOptimizer.copyFunctionStarts in Hrun. keeps_by_steps Hrun.
  - unfold LinkeditOptimizer.copyDataInCode in Hrun. keeps_by_steps Hrun.
  - unfold LinkeditOptimizer.copyIndirectSymbolTable in Hrun.
    keeps_by_steps Hrun.
  - unfold LinkeditOptimizer.copyStringPool in Hrun. keeps_by_steps Hrun.
Qed.

(** X23.  The passes, run one after the other in any order and number, keep
    the state that each of them relies on: after them the pool is still one
    built from the constructor's, and it has only grown, so that every
    offset handed out before still names its string; the symbol count and
    the redacted count are still [uint32_t] values, and so is the cursor. *)
Theorem passes_keep_well_formed {P : Pointer}
    (ps : list pass) (self : LinkeditOptimizer.t) (newLinkedit : mem)
    (offset : Z) (self' : LinkeditOptimizer.t) (newLinkedit' : mem)
    (offset' : Z) :
  well_formed self -> 0 <= offset < 2 ^ 32 ->
  run_passes ps self newLinkedit offset = Some (self', newLinkedit', offset') ->
  well_formed self'
  /\ 0 <= offset' < 2 ^ 32
  /\ extends (LinkeditOptimizer._stringsPool self)
       (LinkeditOptimizer._stringsPool self').
Proof.
  revert self newLinkedit offset.
  induction ps as [|p ps IH]; intros self nl offset Hwf Hoff Hrun.
  - injection Hrun as <- <- <-. split; [done|]. split; [done|constructor].
  - cbn [run_passes] in Hrun.
    destruct (run_pass p self nl offset) as [[[self1 nl1] offset1]|] eqn:Hp;
      simpl in Hrun; [|discriminate Hrun].
    destruct (run_pass_keeps _ _ _ _ _ _ _ (proj2 (proj2 Hwf)) Hoff Hp)
      as [(Hwf1 & Hext1 & _) Hoff1].
    destruct (IH _ _ _ (Hwf1 Hwf) Hoff1 Hrun) as (Hwf' & Hoff' & Hext').
    split; [done|]. split; [done|]. by eapply extends_trans.
Qed.

Lemma image_symbols_run :
  (run_passes (P := Pointer64) [CopyExportedSymbols; CopyImportedSymbols]
     image_optimizer_probed image_newLinkedit 24 ≫= λ _, Some ()) = Some ().
Proof. vm_compute. reflexivity. Qed.

(** The passes over the exported and the imported symbols of the image, one
    after the other. *)
Lemma passes_keep_well_formed_witness :
  match run_passes (P := Pointer64) [CopyExportedSymbols; CopyImportedSymbols]
          image_optimizer_probed image_newLinkedit 24 with
  | Some (self', _, offset') =>
      well_formed self' /\ 0 <= offset' < 2 ^ 32
      /\ _pool (LinkeditOptimizer._stringsPool self') !! "<redacted>"%string
         = Some 1
  | None => False
  end.
Proof.
  pose proof image_symbols_run as Hruns.
  destruct (run_passes _ _ _ _) as [[[self' newLinkedit'] offset']|] eqn:E;
    [|discriminate Hruns].
  destruct (passes_keep_well_formed (P := Pointer64)
              [CopyExportedSymbols; CopyImportedSymbols]
              image_optimizer_probed image_newLinkedit 24 self' newLinkedit'
              offset') as (Hwf & Ho & Hext).
  - unfold well_formed. simpl.
    split; [apply reachable_add, reachable_new|lia].
  - lia.
  - exact E.
  - split; [exact Hwf|]. split; [exact Ho|].
    apply (extends_keeps _ _ _ _ Hext). vm_compute. reflexivity.
Defined.

(** ** The whole optimization *)

Lemma LinkeditOptimizer_new_mCtx {P : Pointer} mCtx dCtx m flag tracker optimizer :
  LinkeditOptimizer.new mCtx dCtx m flag tracker = Some optimizer ->
  LinkeditOptimizer.mCtx optimizer = mCtx.
Proof.
  unfold LinkeditOptimizer.new. intros H.
  repeat pass_step H; reflexivity.
Qed.

(** The optimizer that the constructor makes is in such a state. *)
Lemma LinkeditOptimizer_new_well_formed {P : Pointer} mCtx dCtx m flag tracker
    optimizer :
  LinkeditOptimizer.new mCtx dCtx m flag tracker = Some optimizer ->
  well_formed optimizer.
Proof.
  unfold LinkeditOptimizer.new. intros H. repeat pass_step H.
  unfold well_formed. simpl. split; [constructor|]. lia.
Qed.

(** The passes leave the Mach-O context of the optimizer as it was, and the
    cursor a [uint32_t]. *)
Lemma run_passes_context {P : Pointer} ps :
  forall self nl offset self' nl' offset',
    well_formed self -> 0 <= offset < 2 ^ 32 ->
    run_passes ps self nl offset = Some (self', nl', offset') ->
    LinkeditOptimizer.mCtx self' = LinkeditOptimizer.mCtx self
    /\ 0 <= offset' < 2 ^ 32.
Proof.
  induction ps as [|p ps IH]; intros self nl offset self' nl' offset' Hwf Hoff Hrun.
  - by injection Hrun as <- <- <-.
  - cbn [run_passes] in Hrun.
    destruct (run_pass p self nl offset) as [[[self1 nl1] offset1]|] eqn:Hp;
      simpl in Hrun; [|discriminate Hrun].
    destruct (run_pass_keeps _ _ _ _ _ _ _ (proj2 (proj2 Hwf)) Hoff Hp)
      as [(Hwf1 & _ & Hm1) Hoff1].
    destruct (IH _ _ _ _ _ _ (Hwf1 Hwf) Hoff1 Hrun) as [Hm Hoff'].
    split; [congruence|done].
Qed.

(** The steps of [optimizeLinkedit] when the tracker was made and the image
    has a LINKEDIT: the passes of [pipeline] run on the [vmsize] zero bytes
    of the allocation with [slack] behind them, the bytes of the buffer up
    to the cursor go to the old LINKEDIT, and the result is the one of
    [updateLoadCommands], run with the cursor. *)
Lemma optimizeLinkedit_steps {P : Pointer} mCtx dCtx m slack flag linkeditTracker
    linkeditSeg r :
  LinkeditTracker.new mCtx m = Some (inr linkeditTracker) ->
  getSegment_LINKEDIT mCtx = Some linkeditSeg ->
  optimizeLinkedit mCtx dCtx m slack flag = Some r ->
  exists vmsize optimizer0 optimizer newLinkedit offset vmaddr ram' optimizer',
    LinkeditOptimizer.loadP m (linkeditSeg + segment_vmsize) = Some vmsize
    /\ LinkeditOptimizer.new mCtx dCtx m flag linkeditTracker = Some optimizer0
    /\ run_passes pipeline optimizer0 (calloc vmsize ∪ region vmsize slack) 0
       = Some (optimizer, newLinkedit, offset)
    /\ LinkeditOptimizer.loadP (LinkeditOptimizer.ram optimizer)
         (linkeditSeg + segment_vmaddr) = Some vmaddr
    /\ memcpy (LinkeditOptimizer.ram optimizer) (convertAddrP mCtx vmaddr)
         newLinkedit 0 offset = Some ram'
    /\ LinkeditOptimizer.updateLoadCommands
         (LinkeditOptimizer.set_ram optimizer ram') offset = Some optimizer'
    /\ r = inr optimizer'.
Proof.
  intros Ht Hseg H. unfold optimizeLinkedit in H.
  rewrite Ht in H. simpl in H. rewrite Hseg in H.
  run_step H.
  match type of H with
  | context [calloc ?v ∪ region ?v slack] =>
      remember (calloc v ∪ region v slack) as buffer eqn:Hbuffer
  end.
  repeat run_step H. injection H as <-.
  eexists _, _, _, _, _, _, _, _.
  split; [reflexivity|]. split; [reflexivity|].
  split; [|split; [eassumption|split; [eassumption|split; [eassumption|done]]]].
  subst buffer. cbn [run_passes pipeline run_pass].
  repeat match goal with
  | E : ?call = Some _ |- context [?call] => rewrite E; simpl
  end.
  reflexivity.
Qed.

Lemma loadP_storeP {P : Pointer} (m : mem) a v m' :
  (4 <= sizeof_ptr)%nat -> 0 <= v < 2 ^ 32 ->
  LinkeditOptimizer.storeP m a v = Some m' ->
  LinkeditOptimizer.loadP m' a = Some v.
Proof.
  unfold LinkeditOptimizer.storeP, LinkeditOptimizer.loadP. intros H4 Hv H.
  apply load_bytes_store_bytes in H. rewrite le_encode_length in H.
  rewrite H. simpl. f_equal. rewrite le_decode_encode. apply Z.mod_small.
  split; [lia|]. apply Z.lt_le_trans with (2 ^ 32); [lia|].
  change 256 with (2 ^ 8). rewrite <- Z.pow_mul_r by lia.
  apply Z.pow_le_mono_r; lia.
Qed.

Lemma loadP_storeP_other {P : Pointer} (m : mem) a v m' a' :
  LinkeditOptimizer.storeP m a v = Some m' ->
  a' + Z.of_nat sizeof_ptr <= a \/ a + Z.of_nat sizeof_ptr <= a' ->
  LinkeditOptimizer.loadP m' a' = LinkeditOptimizer.loadP m a'.
Proof.
  unfold LinkeditOptimizer.storeP, LinkeditOptimizer.loadP. intros H Hd.
  rewrite (load_bytes_store_bytes_other _ _ _ _ _ _ H); [done|].
  by rewrite le_encode_length.
Qed.

(** X20.  The exceptions of [optimizeLinkedit] are those of the constructor
    of the tracker: an image without a [__text] section gives the first, an
    image with one and without a [__LINKEDIT] segment the second, and no
    other image gives one; the message of the test that [optimizeLinkedit]
    makes itself is never seen. *)
Theorem optimizeLinkedit_exceptions {P : Pointer}
    (mCtx : MachoContext) (dCtx : DyldContext) (m : mem) (slack : list byte)
    (flag : bool) :
  (getSection_TEXT_text_addr mCtx = None ->
   optimizeLinkedit mCtx dCtx m slack flag
   = Some (inl "Mach-O Context doesn't have a __text sect."%string))
  /\ (getSection_TEXT_text_addr mCtx ≠ None ->
      getSegment_LINKEDIT mCtx = None ->
      optimizeLinkedit mCtx dCtx m slack flag
      = Some (inl "Mach-O Context doesn't have a __LINKEDIT segment."%string))
  /\ (forall e, optimizeLinkedit mCtx dCtx m slack flag = Some (inl e) ->
        (getSection_TEXT_text_addr mCtx = None
         \/ getSegment_LINKEDIT mCtx = None)
        /\ e ≠ "Mach-o file doesn't have __LINKEDIT segment."%string).
Proof.
  split; [|split].
  - intros Ht. unfold optimizeLinkedit, LinkeditTracker.new. by rewrite Ht.
  - intros Ht Hl. unfold optimizeLinkedit, LinkeditTracker.new.
    destruct (getSection_TEXT_text_addr mCtx); [|done]. by rewrite Hl.
  - intros e H.
    destruct (getSection_TEXT_text_addr mCtx) as [addr|] eqn:Ht.
    + destruct (getSegment_LINKEDIT mCtx) as [seg|] eqn:Hl.
      * exfalso.
        destruct (LinkeditTracker.new mCtx m) as [[e'|tracker]|] eqn:Hnew.
        -- unfold LinkeditTracker.new in Hnew. rewrite Ht, Hl in Hnew.
           repeat run_step Hnew. discriminate Hnew.
        -- destruct (optimizeLinkedit_steps _ _ _ _ _ _ _ _ Hnew Hl H)
             as (? & ? & ? & ? & ? & ? & ? & ? & _ & _ & _ & _ & _ & _ & Hr).
           discriminate Hr.
        -- unfold optimizeLinkedit in H. rewrite Hnew in H. discriminate H.
      * unfold optimizeLinkedit, LinkeditTracker.new in H.
        rewrite Ht, Hl in H. simpl in H. injection H as <-.
        split; [by right|discriminate].
    + unfold optimizeLinkedit, LinkeditTracker.new in H.
      rewrite Ht in H. simpl in H. injection H as <-.
      split; [by left|discriminate].
Qed.

(** X21.  When [optimizeLinkedit] returns, the LINKEDIT segment has for
    [vmsize] and for [filesize] the cursor that its passes left
    ([final_cursor]: the passes of [pipeline], run from the cursor [0] on the
    optimizer that the constructor made and on the buffer of the old
    [vmsize] zero bytes), whatever lies behind the allocation.  The width of
    a pointer is 4 bytes or more, and [filesize] lies behind [vmsize].
    (Nothing compares the cursor with the old [vmsize]: lemma
    [optimizeLinkedit_grows].) *)
Theorem optimizeLinkedit_segment_size {P : Pointer}
    (mCtx : MachoContext) (dCtx : DyldContext) (m : mem) (slack : list byte)
    (flag : bool) (optimizer' : LinkeditOptimizer.t) (linkeditSeg : Z) :
  (4 <= sizeof_ptr)%nat ->
  segment_vmsize + Z.of_nat sizeof_ptr <= segment_filesize ->
  getSegment_LINKEDIT mCtx = Some linkeditSeg ->
  optimizeLinkedit mCtx dCtx m slack flag = Some (inr optimizer') ->
  exists offset,
    final_cursor mCtx dCtx m slack flag = Some offset
    /\ LinkeditOptimizer.loadP (LinkeditOptimizer.ram optimizer')
         (linkeditSeg + segment_vmsize) = Some offset
    /\ LinkeditOptimizer.loadP (LinkeditOptimizer.ram optimizer')
         (linkeditSeg + segment_filesize) = Some offset.
Proof.
  intros H4 Hlayout Hseg H.
  destruct (LinkeditTracker.new mCtx m) as [[e'|tracker]|] eqn:Hnew;
    [unfold optimizeLinkedit in H; rewrite Hnew in H; discriminate H| |
     unfold optimizeLinkedit in H; rewrite Hnew in H; discriminate H].
  destruct (optimizeLinkedit_steps _ _ _ _ _ _ _ _ Hnew Hseg H)
    as (vmsize & opt0 & opt & nl & offset & vmaddr & ram' & opt'' & Hvm & Hopt0
        & Hpasses & _ & _ & Hupd & [= <-]).
  assert (0 <= 0 < 2 ^ 32) as Hzero by lia.
  destruct (run_passes_context _ _ _ _ _ _ _
              (LinkeditOptimizer_new_well_formed _ _ _ _ _ _ Hopt0)
              Hzero Hpasses) as [HmCtx Hoff].
  rewrite (LinkeditOptimizer_new_mCtx _ _ _ _ _ _ Hopt0) in HmCtx.
  exists offset. split.
  { unfold final_cursor.
    apply bind_Some. exists (inr tracker). split; [exact Hnew|].
    cbv beta iota.
    apply bind_Some. exists linkeditSeg. split; [exact Hseg|].
    apply bind_Some. exists vmsize. split; [exact Hvm|].
    apply bind_Some. exists opt0. split; [exact Hopt0|].
    apply bind_Some. exists (opt, nl, offset). split; [exact Hpasses|done]. }
  unfold LinkeditOptimizer.updateLoadCommands in Hupd.
  simpl in Hupd. rewrite HmCtx, Hseg in Hupd. simpl in Hupd.
  destruct (LinkeditOptimizer.storeP ram' _ _) as [r1|] eqn:H1;
    simpl in Hupd; [|done].
  destruct (LinkeditOptimizer.storeP r1 _ _) as [r2|] eqn:H2;
    simpl in Hupd; [|done].
  injection Hupd as <-. simpl. split.
  - rewrite (loadP_storeP_other _ _ _ _ _ H2) by lia.
    by apply (loadP_storeP _ _ _ _ H4 Hoff H1).
  - by apply (loadP_storeP _ _ _ _ H4 Hoff H2).
Qed.

Lemma image_optimized :
  (optimizeLinkedit (P := Pointer64) image_mCtx image_dCtx image_mem [] false
   ≫= λ r, match r with inr _ => Some () | inl _ => None end) = Some ().
Proof. vm_compute. reflexivity. Qed.

Lemma image_final_cursor :
  final_cursor (P := Pointer64) image_mCtx image_dCtx image_mem [] false
  = Some 0x78.
Proof. vm_compute. reflexivity. Qed.

(** The passes leave the cursor at [0x78] on the image, and that is the
    [vmsize] and the [filesize] of its LINKEDIT after [optimizeLinkedit]. *)
Lemma optimizeLinkedit_segment_size_witness :
  match optimizeLinkedit (P := Pointer64) image_mCtx image_dCtx image_mem []
          false with
  | Some (inr optimizer') =>
      LinkeditOptimizer.loadP (P := Pointer64)
        (LinkeditOptimizer.ram optimizer') (FILE + 0xe8 + 32) = Some 0x78
      /\ LinkeditOptimizer.loadP (P := Pointer64)
           (LinkeditOptimizer.ram optimizer') (FILE + 0xe8 + 48) = Some 0x78
  | _ => False
  end.
Proof.
  pose proof image_optimized as Hruns.
  destruct (optimizeLinkedit _ _ _ _ _) as [[e|optimizer']|] eqn:E;
    [discriminate Hruns| |discriminate Hruns].
  destruct (optimizeLinkedit_segment_size (P := Pointer64) image_mCtx image_dCtx
              image_mem [] false optimizer' (FILE + 0xe8))
    as (offset & Hcursor & Hvm & Hfile).
  - simpl. lia.
  - simpl. lia.
  - reflexivity.
  - exact E.
  - rewrite image_final_cursor in Hcursor. injection Hcursor as <-.
    split; [exact Hvm|exact Hfile].
Defined.

(** The passes are not given the size of the buffer and nothing compares
    the cursor with it.  The image whose LINKEDIT gives itself [0x70] bytes
    needs [0x78]: with nothing mapped behind the allocation the run faults,
    and with eight bytes behind it the run returns, the passes having
    written behind the allocation, and the segment has grown to [0x78]. *)
Lemma optimizeLinkedit_grows :
  LinkeditOptimizer.loadP (P := Pointer64) image_mem_0x70 (FILE + 0xe8 + 32)
    = Some 0x70
  /\ optimizeLinkedit (P := Pointer64) image_mCtx image_dCtx image_mem_0x70 []
       false = None
  /\ (r ← optimizeLinkedit (P := Pointer64) image_mCtx image_dCtx
            image_mem_0x70 (zeros 8) false;
      match r with
      | inl _ => None
      | inr optimizer' =>
          LinkeditOptimizer.loadP (P := Pointer64)
            (LinkeditOptimizer.ram optimizer') (FILE + 0xe8 + 32)
      end) = Some 0x78.
Proof. repeat split; vm_compute; reflexivity. Qed.

(** ** The regions of the tracker *)

Lemma last_is_greatest l t z :
  StronglySorted region_before l ->
  Forall (λ t, 0 <= LinkeditData.dataSize t) l ->
  t ∈ l -> last l = Some z ->
  LinkeditData.data t + LinkeditData.dataSize t
  <= LinkeditData.data z + LinkeditData.dataSize z.
Proof.
  induction 1 as [|a l Hs IH Hall]; intros Hsz Ht Hlast; [by apply elem_of_nil in Ht|].
  apply Forall_cons in Hsz as [Ha Hsz].
  destruct l as [|b l].
  - apply list_elem_of_singleton in Ht as ->. simpl in Hlast. by injection Hlast as ->.
  - change (last (a :: b :: l)) with (last (b :: l)) in Hlast.
    apply elem_of_cons in Ht as [->|Ht]; [|by apply IH].
    assert (z ∈ b :: l) as Hz by (by apply last_Some_elem_of).
    rewrite Forall_forall in Hall, Hsz. specialize (Hall _ Hz). specialize (Hsz _ Hz).
    unfold region_before in Hall. simpl in Hsz. lia.
Qed.

Lemma shifted_all_sorted ss sd l :
  StronglySorted region_before l ->
  Forall (λ t, LinkeditData.data t >= ss) l ->
  StronglySorted region_before (shifted ss sd <$> l).
Proof.
  induction 1 as [|a l Hs IH Hall]; intros Hge; simpl; [constructor|].
  apply Forall_cons in Hge as [Ha Hge]. constructor; [by apply IH|].
  apply Forall_fmap. rewrite Forall_forall in Hall, Hge. apply Forall_forall.
  intros t Ht. specialize (Hall _ Ht). specialize (Hge _ Ht). simpl.
  unfold region_before, shifted in *.
  rewrite !decide_True by done. simpl. lia.
Qed.

Lemma insert_shifted_sorted ss sd off l :
  0 <= sd ->
  StronglySorted region_before l ->
  Forall (λ t, 0 <= LinkeditData.dataSize t) l ->
  (forall t, t ∈ l -> LinkeditData.data t < ss ->
     LinkeditData.data t + LinkeditData.dataSize t <= ss) ->
  StronglySorted region_before
    (LinkeditTracker.lower_bound_insert (shifted ss sd <$> l)
       (LinkeditData off ss sd)).
Proof.
  intros Hsd. induction 1 as [|a l Hs IH Hall]; intros Hsz Hbelow; simpl.
  - repeat constructor.
  - apply Forall_cons in Hsz as [Ha Hsz].
    assert (Hall' : forall t, t ∈ l -> region_before a t)
      by (by apply Forall_forall).
    assert (Hsz' : forall t, t ∈ l -> 0 <= LinkeditData.dataSize t)
      by (by apply Forall_forall).
    destruct (decide (LinkeditData.data a >= ss)) as [Hge|Hlt].
    + assert (shifted ss sd a
              = LinkeditData (LinkeditData.offset a) (LinkeditData.data a + sd)
                  (LinkeditData.dataSize a)) as Hfa
        by (unfold shifted; by rewrite decide_True).
      rewrite Hfa. simpl. rewrite decide_False by lia. rewrite <- Hfa.
      assert (Forall (λ t, LinkeditData.data t >= ss) (a :: l)) as Hallge.
      { constructor; [done|]. apply Forall_forall. intros t Ht.
        specialize (Hall' _ Ht). unfold region_before in Hall'. lia. }
      constructor.
      * apply (shifted_all_sorted ss sd (a :: l)); [by constructor|done].
      * apply Forall_cons in Hallge as [_ Hlge]. constructor.
        -- rewrite Hfa. unfold region_before. simpl. lia.
        -- apply Forall_fmap. eapply Forall_impl; [exact Hlge|].
           intros t Ht. simpl in Ht |- *. unfold region_before, shifted.
           rewrite decide_True by done. simpl. lia.
    + assert (shifted ss sd a = a) as Hfa
        by (unfold shifted; by rewrite decide_False).
      rewrite Hfa. simpl. rewrite decide_True by lia.
      constructor.
      * apply IH; [done|]. intros t Ht. apply Hbelow. by right.
      * rewrite lower_bound_insert_Permutation. constructor.
        -- unfold region_before. simpl. apply Hbelow; [by left|lia].
        -- apply Forall_fmap, Forall_forall. intros t Ht. simpl.
           specialize (Hall' _ Ht). unfold region_before in Hall' |- *.
           unfold shifted.
           destruct (decide (LinkeditData.data t >= ss)); simpl; lia.
Qed.

(** X24.  An insertion that is made keeps the regions of the tracker in
    order: if they lay one after the other within the LINKEDIT without
    overlapping, and the insertion is at the start of the LINKEDIT or behind a
    tracked region, then the regions, the new one among them, still lie one
    after the other within the LINKEDIT without overlapping.  The payload is
    of fewer than [2 ^ 32 - 8] bytes. *)
Theorem insertLinkeditData_regions_ok
    (self : LinkeditTracker.t) (m : mem) (after : option LinkeditData.t)
    (data : LinkeditData.t) (self' : LinkeditTracker.t) (m' : mem) :
  regions_ok self ->
  (forall a, after = Some a -> a ∈ LinkeditTracker.trackingData self) ->
  0 <= LinkeditData.dataSize data -> LinkeditData.dataSize data + 8 < 2 ^ 32 ->
  LinkeditTracker.insertLinkeditData self m after data = Some (true, self', m') ->
  regions_ok self'
  /\ LinkeditTracker._linkeditStart self' = LinkeditTracker._linkeditStart self
  /\ LinkeditTracker._linkeditEnd self' = LinkeditTracker._linkeditEnd self.
Proof.
  intros [Hsorted Hbounds] Hafter H0 H1 Hrun.
  destruct (insertLinkeditData_steps _ _ _ _ _ _ Hrun)
    as (Hroom & m1 & m2 & m3 & td & _ & H2 & _ & _ & ->).
  destruct (shift_tracked_spec _ _ _ _ _ _ H2) as (-> & _).
  destruct (shiftDelta_of_bounds _ H0 H1) as [Hsd1 Hsd2].
  set (ss := shiftStart_of self after) in *.
  set (sd := LinkeditTracker.shiftDelta_of (LinkeditData.dataSize data)) in *.
  set (l := LinkeditTracker.trackingData self) in *.
  assert (Hsz : Forall (λ t, 0 <= LinkeditData.dataSize t) l).
  { eapply Forall_impl; [exact Hbounds|]. intros t (_ & ? & _). done. }
  assert (Hbounds' : forall t, t ∈ l ->
            LinkeditTracker._linkeditStart self <= LinkeditData.data t
            /\ 0 <= LinkeditData.dataSize t
            /\ LinkeditData.data t + LinkeditData.dataSize t
               <= LinkeditTracker._linkeditEnd self)
    by (by apply Forall_forall).
  assert (Hlast : forall t, t ∈ l ->
            LinkeditData.data t + LinkeditData.dataSize t
            <= LinkeditTracker.lastDataEnd self).
  { intros t Ht. unfold LinkeditTracker.lastDataEnd. fold l.
    destruct (last l) as [z|] eqn:Hz.
    - by apply (last_is_greatest l).
    - apply last_None in Hz. rewrite Hz in Ht. by apply elem_of_nil in Ht. }
  assert (Hss : LinkeditTracker._linkeditStart self <= ss
                /\ ss <= LinkeditTracker.lastDataEnd self).
  { unfold ss, shiftStart_of. destruct after as [a|].
    - specialize (Hafter a eq_refl). specialize (Hbounds' a Hafter).
      specialize (Hlast a Hafter). lia.
    - split; [done|]. unfold LinkeditTracker.lastDataEnd. fold l.
      destruct (last l) as [z|] eqn:Hz; [|done].
      apply last_Some_elem_of in Hz. specialize (Hbounds' z Hz). lia. }
  assert (Hbelow : forall t, t ∈ l -> LinkeditData.data t < ss ->
            LinkeditData.data t + LinkeditData.dataSize t <= ss).
  { intros t Ht Hlt. unfold ss, shiftStart_of in *. destruct after as [a|].
    - specialize (Hafter a eq_refl).
      apply list_elem_of_split in Hafter as (l1 & l2 & Hl).
      rewrite Hl in Hsorted, Ht.
      apply StronglySorted_app in Hsorted as (H12 & _ & Hs2).
      apply elem_of_app in Ht as [Ht|Ht].
      + assert (region_before t a) as Hta by (apply H12; [done|by left]).
        assert (0 <= LinkeditData.dataSize a) as Hsa.
        { rewrite Forall_forall in Hsz. apply Hsz. rewrite Hl.
          apply elem_of_app. right. by left. }
        unfold region_before in Hta. lia.
      + apply elem_of_cons in Ht as [->|Ht]; [lia|].
        inversion Hs2 as [|? ? _ Hall]; subst.
        rewrite Forall_forall in Hall. specialize (Hall _ Ht).
        unfold region_before in Hall. lia.
    - specialize (Hbounds' t Ht). lia. }
  unfold regions_ok, LinkeditTracker.trackData. simpl. fold l ss sd.
  split; [|done]. split.
  - apply insert_shifted_sorted; [lia|done|done|done].
  - rewrite lower_bound_insert_Permutation. constructor; [simpl; lia|].
    apply Forall_fmap, Forall_forall. intros t Ht. simpl.
    specialize (Hbounds' t Ht). specialize (Hlast t Ht).
    unfold shifted. destruct (decide _); simpl; lia.
Qed.

(** The region inserted behind the one that [tracker_one] tracks. *)
Lemma tracker_one_inserted_after :
  inserted (LinkeditTracker.insertLinkeditData tracker_one tracker_mem
              (Some (LinkeditData 0x130 0x1000 16)) (LinkeditData 0x134 0x3000 3))
  = Some ().
Proof. vm_compute. reflexivity. Qed.

Lemma insertLinkeditData_regions_ok_witness :
  match LinkeditTracker.insertLinkeditData tracker_one tracker_mem
          (Some (LinkeditData 0x130 0x1000 16)) (LinkeditData 0x134 0x3000 3) with
  | Some (true, self', _) => regions_ok self'
  | _ => False
  end.
Proof.
  pose proof tracker_one_inserted_after as Hruns.
  destruct (LinkeditTracker.insertLinkeditData _ _ _ _)
    as [[[[] self'] m']|] eqn:E; [|discriminate Hruns..].
  apply (insertLinkeditData_regions_ok tracker_one tracker_mem
           (Some (LinkeditData 0x130 0x1000 16)) (LinkeditData 0x134 0x3000 3)
           self' m').
  - unfold regions_ok, tracker_one. simpl. split.
    + repeat constructor.
    + repeat constructor; simpl; lia.
  - intros a [= <-]. apply list_elem_of_singleton. reflexivity.
  - simpl. lia.
  - reflexivity.
  - exact E.
Defined.
(** ** The layout of the pool *)

(** X25.  The offsets of a pool built from the constructor's, of fewer than
    [2 ^ 32] bytes, name its strings: every string lies with its terminator
    below the length of the pool, two different strings have different
    offsets and do not overlap, and a string that the pool does not hold is
    added at the end: its offset is the length of the pool, which grows by
    the string and its terminator. *)
Theorem pool_offsets_name_strings (sp : StringPool) :
  reachable sp -> pool_bytes sp < 2 ^ 32 ->
  (forall s o, _pool sp !! s = Some o ->
     0 <= o /\ o + strlen s + 1 <= _stringsLength sp)
  /\ (forall s1 o1 s2 o2,
        _pool sp !! s1 = Some o1 -> _pool sp !! s2 = Some o2 -> s1 ≠ s2 ->
        o1 ≠ o2
        /\ (o1 + strlen s1 + 1 <= o2 \/ o2 + strlen s2 + 1 <= o1))
  /\ (forall s, _pool sp !! s = None ->
        _stringsLength sp + strlen s + 1 < 2 ^ 32 ->
        (addString sp s).1 = _stringsLength sp
        /\ _stringsLength (addString sp s).2 = _stringsLength sp + strlen s + 1).
Proof.
  intros Hr Hlt. destruct (reachable_inv _ Hr Hlt) as (Hb & Hd & _ & _).
  pose proof (proj1 (reachable_range _ Hr)) as Hlen.
  split; [done|]. split.
  - intros s1 o1 s2 o2 H1 H2 Hne. pose proof (strlen_nonneg s1).
    pose proof (strlen_nonneg s2). destruct (Hd _ _ _ _ H1 H2 Hne); lia.
  - intros s Hnone Hfit. unfold addString. rewrite Hnone. simpl.
    split; [done|]. pose proof (strlen_nonneg s).
    rewrite (wrap32_small (strlen s)) by lia.
    rewrite (wrap32_small (strlen s + 1)) by lia.
    rewrite wrap32_small by lia. lia.
Qed.

(** [_foo] and [_bar] in the pool of the constructor. *)
Lemma pool_offsets_name_strings_witness :
  1 + strlen "_foo" + 1 <= 6 \/ 6 + strlen "_bar" + 1 <= 1.
Proof.
  destruct (pool_offsets_name_strings foo_bar_pool) as (_ & Hd & _).
  - apply reachable_add, reachable_add, reachable_new.
  - vm_compute. reflexivity.
  - destruct (Hd "_foo"%string 1 "_bar"%string 6) as [_ H].
    + vm_compute. reflexivity.
    + vm_compute. reflexivity.
    + discriminate.
    + exact H.
Defined.

(** ** The registry through the passes *)

Lemma registry_kept_same self self' :
  LinkeditOptimizer._linkeditTracker self' = LinkeditOptimizer._linkeditTracker self ->
  registry_kept self self'.
Proof. unfold registry_kept. intros ->. repeat split; auto. Qed.

Lemma registry_kept_trans s1 s2 s3 :
  LinkeditOptimizer._linkeditTracker s2 = LinkeditOptimizer._linkeditTracker s1 ->
  registry_kept s2 s3 -> registry_kept s1 s3.
Proof. unfold registry_kept. by intros ->. Qed.

Lemma registry_kept_track self field data size ram' :
  registry_kept self
    (LinkeditOptimizer.set_ram (LinkeditOptimizer.track self field data size) ram').
Proof.
  unfold registry_kept. simpl. split; [apply lower_bound_insert_Sorted|].
  split; [|split; [|done]].
  - intros t Ht. rewrite lower_bound_insert_Permutation. by right.
  - by rewrite lower_bound_insert_Permutation.
Qed.

Lemma registry_kept_track' self field data size :
  registry_kept self (LinkeditOptimizer.track self field data size).
Proof.
  unfold registry_kept. simpl. split; [apply lower_bound_insert_Sorted|].
  split; [|split; [|done]].
  - intros t Ht. rewrite lower_bound_insert_Permutation. by right.
  - by rewrite lower_bound_insert_Permutation.
Qed.

Lemma copyPublicLocalSymbols_loop_tracker {P : Pointer} n :
  forall strings entry self nl head count self' nl' count',
    LinkeditOptimizer.copyPublicLocalSymbols_loop n strings entry self nl head count
      = Some (self', nl', count') ->
    LinkeditOptimizer._linkeditTracker self' = LinkeditOptimizer._linkeditTracker self.
Proof.
  induction n as [|n IH]; intros strings entry self nl head count self' nl' count' H.
  - simpl in H. by inversion H.
  - cbn [LinkeditOptimizer.copyPublicLocalSymbols_loop] in H.
    destruct (load32 _ _) as [n_strx|]; simpl in H; [|done].
    destruct (c_str _ _) as [str|]; simpl in H; [|done].
    destruct (decide _) in H; [by eapply IH|].
    destruct (LinkeditOptimizer.copy_nlist _ _ _ _ _) as [[s1 nl1]|] eqn:Hc;
      simpl in H; [|done].
    apply copy_nlist_object in Hc as ->. by apply IH in H.
Qed.

Lemma copyRedactedLocalSymbols_loop_tracker {P : Pointer} n :
  forall strings entry self nl head count self' nl' count',
    LinkeditOptimizer.copyRedactedLocalSymbols_loop n strings entry self nl head
      count = Some (self', nl', count') ->
    LinkeditOptimizer._linkeditTracker self' = LinkeditOptimizer._linkeditTracker self.
Proof.
  induction n as [|n IH]; intros strings entry self nl head count self' nl' count' H.
  - simpl in H. by inversion H.
  - cbn [LinkeditOptimizer.copyRedactedLocalSymbols_loop] in H.
    destruct (load32 _ _) as [n_strx|]; simpl in H; [|done].
    destruct (c_str _ _) as [str|]; simpl in H; [|done].
    destruct (LinkeditOptimizer.copy_nlist _ _ _ _ _) as [[s1 nl1]|] eqn:Hc;
      simpl in H; [|done].
    apply copy_nlist_object in Hc as ->. by apply IH in H.
Qed.

Lemma copySymbols_loop_tracker {P : Pointer} n :
  forall syms strings symIndex self nl head count self' nl' count',
    LinkeditOptimizer.copySymbols_loop n syms strings symIndex self nl head count
      = Some (self', nl', count') ->
    LinkeditOptimizer._linkeditTracker self' = LinkeditOptimizer._linkeditTracker self.
Proof.
  induction n as [|n IH];
    intros syms strings symIndex self nl head count self' nl' count' H.
  - simpl in H. by inversion H.
  - cbn [LinkeditOptimizer.copySymbols_loop] in H.
    destruct (load32 _ _) as [n_strx|]; simpl in H; [|done].
    destruct (c_str _ _) as [str|]; simpl in H; [|done].
    destruct (LinkeditOptimizer.copy_nlist _ _ _ _ _) as [[s1 nl1]|] eqn:Hc;
      simpl in H; [|done].
    apply copy_nlist_object in Hc as ->. by apply IH in H.
Qed.

Ltac registry_by_steps H :=
  repeat pass_step H;
  repeat match goal with
  | E : (if decide _ then _ else _) = Some _ |- _ => repeat pass_step E
  end;
  first [ apply registry_kept_track
        | apply registry_kept_track'
        | by apply registry_kept_same
        | eapply registry_kept_trans; [|apply registry_kept_track]; reflexivity
        | eapply registry_kept_trans; [|apply registry_kept_track']; reflexivity ].

Lemma copyLocalSymbols_tracker {P : Pointer} self nl offset self' nl' offset' :
  LinkeditOptimizer.copyLocalSymbols self nl offset = Some (self', nl', offset') ->
  LinkeditOptimizer._linkeditTracker self' = LinkeditOptimizer._linkeditTracker self.
Proof.
  unfold LinkeditOptimizer.copyLocalSymbols. intros H.
  destruct (LinkeditOptimizer._copyPublicLocalSymbols _ _ _)
    as [[[[c1 s1] nl1] o1]|] eqn:H1; simpl in H; [|done].
  destruct (LinkeditOptimizer._copyRedactedLocalSymbols _ _ _)
    as [[[[c2 s2] nl2] o2]|] eqn:H2; simpl in H; [|done].
  assert (LinkeditOptimizer._linkeditTracker s1
          = LinkeditOptimizer._linkeditTracker self) as Hs1.
  { unfold LinkeditOptimizer._copyPublicLocalSymbols in H1.
    repeat pass_step H1; try reflexivity.
    match goal with
    | E : LinkeditOptimizer.copyPublicLocalSymbols_loop _ _ _ _ _ _ _ = Some _ |- _ =>
        exact (copyPublicLocalSymbols_loop_tracker _ _ _ _ _ _ _ _ _ _ E)
    end. }
  assert (LinkeditOptimizer._linkeditTracker s2
          = LinkeditOptimizer._linkeditTracker s1) as Hs2.
  { unfold LinkeditOptimizer._copyRedactedLocalSymbols in H2.
    destruct (getSymbolsCache _) as [cache|]; [|by inversion H2].
    repeat pass_step H2; try reflexivity.
    match goal with
    | E : LinkeditOptimizer.copyRedactedLocalSymbols_loop _ _ _ _ _ _ _ = Some _
      |- _ =>
        exact (copyRedactedLocalSymbols_loop_tracker _ _ _ _ _ _ _ _ _ _ E)
    end. }
  repeat pass_step H; simpl; congruence.
Qed.

Lemma symbols_pass_tracker {P : Pointer} g self nl offset self' nl' offset' :
  symbols_pass g self nl offset = Some (self', nl', offset') ->
  LinkeditOptimizer._linkeditTracker self' = LinkeditOptimizer._linkeditTracker self.
Proof.
  intros H.
  destruct g; simpl in H;
    [unfold LinkeditOptimizer.copyExportedSymbols in H
    |unfold LinkeditOptimizer.copyImportedSymbols in H];
    (destruct (decide _) in H; [by inversion H|]);
    repeat pass_step H;
    repeat match goal with
    | E : (if decide _ then _ else _) = Some _ |- _ => repeat pass_step E
    end;
    match goal with
    | E : LinkeditOptimizer.copySymbols_loop _ _ _ _ _ _ _ _ = Some _ |- _ =>
        apply copySymbols_loop_tracker in E
    end; simpl; congruence.
Qed.

(** X26.  Every pass keeps the registry of the tracker in the order of the
    [data] pointers, the order that the search of [trackData] relies on; it
    drops no region and adds one at most; and the bounds of the LINKEDIT that
    the tracker holds are the same. *)
Theorem passes_keep_registry_sorted {P : Pointer}
    (p : pass) (self : LinkeditOptimizer.t) (newLinkedit : mem) (offset : Z)
    (self' : LinkeditOptimizer.t) (newLinkedit' : mem) (offset' : Z) :
  Sorted data_le
    (LinkeditTracker.trackingData (LinkeditOptimizer._linkeditTracker self)) ->
  run_pass p self newLinkedit offset = Some (self', newLinkedit', offset') ->
  Sorted data_le
    (LinkeditTracker.trackingData (LinkeditOptimizer._linkeditTracker self'))
  /\ registry_kept self self'.
Proof.
  intros Hs Hrun.
  assert (registry_kept self self') as Hk.
  { destruct p; simpl in Hrun.
    - unfold LinkeditOptimizer.copyBindingInfo in Hrun. registry_by_steps Hrun.
    - unfold LinkeditOptimizer.copyWeakBindingInfo in Hrun. registry_by_steps Hrun.
    - unfold LinkeditOptimizer.copyLazyBindingInfo in Hrun. registry_by_steps Hrun.
    - apply copyExportInfo_nothing in Hrun. injection Hrun as <- <- <-.
      by apply registry_kept_same.
    - unfold LinkeditOptimizer.startSymbolEntries in Hrun. registry_by_steps Hrun.
    - unfold LinkeditOptimizer.searchRedactedSymbol in Hrun.
      registry_by_steps Hrun.
    - apply registry_kept_same. by eapply copyLocalSymbols_tracker.
    - apply registry_kept_same.
      exact (symbols_pass_tracker Exported _ _ _ _ _ _ Hrun).
    - apply registry_kept_same.
      exact (symbols_pass_tracker Imported _ _ _ _ _ _ Hrun).
    - unfold LinkeditOptimizer.endSymbolEntries in Hrun. registry_by_steps Hrun.
    - unfold LinkeditOptimizer.copyFunctionStarts in Hrun. registry_by_steps Hrun.
    - unfold LinkeditOptimizer.copyDataInCode in Hrun. registry_by_steps Hrun.
    - unfold LinkeditOptimizer.copyIndirectSymbolTable in Hrun.
      registry_by_steps Hrun.
    - unfold LinkeditOptimizer.copyStringPool in Hrun. registry_by_steps Hrun. }
  split; [by apply Hk|done].
Qed.

Lemma passes_keep_registry_sorted_witness :
  match run_pass (P := Pointer64) CopyBindingInfo image_optimizer
          image_newLinkedit 0 with
  | Some (self', _, _) =>
      Sorted data_le
        (LinkeditTracker.trackingData (LinkeditOptimizer._linkeditTracker self'))
  | None => False
  end.
Proof.
  pose proof image_binding_runs as Hruns.
  change LinkeditOptimizer.copyBindingInfo
    with (run_pass (P := Pointer64) CopyBindingInfo) in Hruns.
  destruct (run_pass _ _ _ _) as [[[self' newLinkedit'] offset']|] eqn:E;
    [|discriminate Hruns].
  destruct (passes_keep_registry_sorted (P := Pointer64) CopyBindingInfo
              image_optimizer image_newLinkedit 0 self' newLinkedit' offset')
    as [Hs _].
  - constructor.
  - exact E.
  - exact Hs.
Defined.
